(** * Comparator-driven sorting engine (ex1/src/merge_quick_sort.c)

    A shallow embedding of the two sorts of [merge_quick_sort.c] and the
    proofs of their properties.

    The C functions work on an array of [void *] through a base pointer, call
    a comparator through a function pointer, draw pivots from [rand()], take a
    scratch buffer from [malloc] and report problems on [stderr].  They are
    embedded as computations over a [world] that holds the caller's array, the
    state of the random generator, the number of allocations made so far and
    the trace of the observable events.  Indices are [size_t] values: integers
    in [Z] with the wrap-around modulo [2^64] written at every operation.  A
    computation returns, calls [exit], or runs into undefined behaviour (an
    access outside the array or the scratch buffer, a division by zero); the
    recursive drivers are given the depth of recursion they may use.

    The development also covers the program built on the two sorts
    ([merge_quick_sort_main.c]: the records, their comparators and the
    dispatch on field and algorithm) and the spelling corrector of ex2
    ([edit_distance.c] and the word functions of [main_ex2.c]). *)

From Stdlib Require Import ZArith Lia String Ascii Sorted DecimalString.
From stdpp Require Import base list sorting.

Open Scope Z_scope.

(** ** The C data model (LP64: 64-bit [size_t] and pointers, 32-bit [int]) *)

Module C.

Definition SIZE_MAX : Z := 2 ^ 64 - 1.
Definition INT_MAX : Z := 2 ^ 31 - 1.
Definition INT_MIN : Z := - 2 ^ 31.
Definition EXIT_FAILURE : Z := 1.

(** [sizeof(void * )] *)
Definition sizeof_ptr : Z := 8.

(** Arithmetic on [size_t] is modulo [2^64]. *)
Definition add (a b : Z) : Z := (a + b) mod 2 ^ 64.
Definition sub (a b : Z) : Z := (a - b) mod 2 ^ 64.
Definition mul (a b : Z) : Z := (a * b) mod 2 ^ 64.

(** [(size_t) z] *)
Definition to_size_t (z : Z) : Z := z mod 2 ^ 64.

(** [(int) z]: the value is reduced modulo [2^32] into the range of [int]
    (the conversion gcc and clang implement). *)
Definition to_int (z : Z) : Z :=
  let r := z mod 2 ^ 32 in if r <? 2 ^ 31 then r else r - 2 ^ 32.

(** [(unsigned int) z] *)
Definition to_unsigned (z : Z) : Z := z mod 2 ^ 32.

End C.

(** ** Worlds, outcomes and the monad of C computations *)

Section Model.

(** The references stored in the array: the engine never looks inside. *)
Context {A : Type}.

(** What a run lets an observer see, in the order it happens. *)
Inductive event : Type :=
| Stderr (msg : string)              (* a line printed on stderr *)
| Compar (a b : A)                   (* the comparator was called on a, b *)
| Srand (seed : Z)                   (* srand(seed) *)
| Enter_quick_sort_rec (low high : Z). (* quick_sort_rec(base, low, high, _) entered *)

Record world : Type := World {
  mem : list A;          (* the caller's array of references *)
  rng_seed : Z;          (* the seed of the last srand *)
  rng_pos : nat;         (* rand() calls since the last srand *)
  allocs : nat;          (* malloc calls so far *)
  trace : list event
}.

(** What the C library contributes: the generator behind [rand], the clock
    behind [time(NULL)] and whether the n-th [malloc] finds memory. *)
Record environment : Type := Environment {
  prng : Z -> nat -> Z;
  now : Z;
  heap_ok : nat -> bool
}.

Inductive outcome (X : Type) : Type :=
| Ok (x : X) (w : world)        (* the computation returned x *)
| Exit (status : Z) (w : world) (* the process called exit(status) *)
| Fault                         (* undefined behaviour *)
| OutOfFuel.                    (* the model ran out of recursion depth *)

Arguments Ok {X} x w.
Arguments Exit {X} status w.
Arguments Fault {X}.
Arguments OutOfFuel {X}.
Arguments World mem rng_seed rng_pos allocs trace : rename.

Definition M (X : Type) : Type := world -> outcome X.

Definition ret {X} (x : X) : M X := fun w => Ok x w.

Definition bind {X Y} (m : M X) (k : X -> M Y) : M Y :=
  fun w =>
    match m w with
    | Ok x w' => k x w'
    | Exit s w' => Exit s w'
    | Fault => Fault
    | OutOfFuel => OutOfFuel
    end.

Definition fault {X} : M X := fun _ => Fault.
Definition out_of_fuel {X} : M X := fun _ => OutOfFuel.
Definition exit {X} (status : Z) : M X := fun w => Exit status w.

(** The world with its array replaced, and with one more event. *)
Definition set_mem (w : world) (l : list A) : world :=
  World l (rng_seed w) (rng_pos w) (allocs w) (trace w).

Definition log (w : world) (e : event) : world :=
  World (mem w) (rng_seed w) (rng_pos w) (allocs w) (trace w ++ [e]).

Definition emit (e : event) : M unit := fun w => Ok tt (log w e).

(** [fprintf(stderr, msg)] *)
Definition eprint (msg : string) : M unit := emit (Stderr msg).

(** Reading and writing the array cell at absolute index [p]; an index
    outside the array is undefined behaviour. *)
Definition load (p : Z) : M A :=
  fun w =>
    if p <? 0 then Fault
    else match mem w !! Z.to_nat p with
         | Some x => Ok x w
         | None => Fault
         end.

Definition store (p : Z) (x : A) : M unit :=
  fun w =>
    if (0 <=? p) && (p <? Z.of_nat (length (mem w)))
    then Ok tt (set_mem w (<[Z.to_nat p := x]> (mem w)))
    else Fault.

End Model.

Arguments event A : clear implicits.
Arguments world A : clear implicits.
Arguments outcome A X : clear implicits.
Arguments M A X : clear implicits.
Arguments Ok {A X} x w.
Arguments Exit {A X} status w.
Arguments Fault {A X}.
Arguments OutOfFuel {A X}.

Notation "'do' x <- m 'in' k" := (bind m (fun x => k))
  (at level 10, x name, m at level 100, k at level 200,
   format "'[v' 'do'  x  <-  m  'in' '/' k ']'").
Notation "'run' m 'in' k" := (bind m (fun _ => k))
  (at level 10, m at level 100, k at level 200,
   format "'[v' 'run'  m  'in' '/' k ']'").

(** The end of line closing the diagnostics. *)
Definition newline : string := String (Ascii.ascii_of_nat 10) EmptyString.

Section Engine.

Context {A : Type}.
Variable E : environment.

(** A call through the comparator pointer. *)
Definition call (compar : A -> A -> Z) (a b : A) : M A Z :=
  run emit (Compar a b) in ret (compar a b).

(** [srand(seed)] and [rand()] *)
Definition srand (seed : Z) : M A unit :=
  fun w => Ok tt (World (mem w) seed 0%nat (allocs w) (trace w ++ [Srand seed])).

Definition rand : M A Z :=
  fun w => Ok (prng E (rng_seed w) (rng_pos w))
              (World (mem w) (rng_seed w) (S (rng_pos w)) (allocs w) (trace w)).

(** [malloc(bytes)]: [None] is the null pointer, [Some cap] a fresh buffer
    with room for [cap] references. *)
Definition malloc (bytes : Z) : M A (option Z) :=
  fun w =>
    let w' := World (mem w) (rng_seed w) (rng_pos w) (S (allocs w)) (trace w) in
    if heap_ok E (allocs w) then Ok (Some (bytes / C.sizeof_ptr)) w' else Ok None w'.

(** ** The engine *)

(** [swap(&base[a], &base[b])], the two cells given by absolute index. *)
Definition swap (a b : Z) : M A unit :=
  do temp <- load a in
  do vb <- load b in
  run store a vb in
  store b temp.

(** [rand() % m] on [int]: division by zero and [INT_MIN % -1] are
    undefined; otherwise the remainder has the sign of the dividend. *)
Definition int_rem (r m : Z) : M A Z :=
  if m =? 0 then fault
  else if (r =? C.INT_MIN) && (m =? -1) then fault
  else ret (Z.rem r m).

Definition choose_random_pivot (base low high : Z) : M A unit :=
  do r <- rand in
  do off <- int_rem r (C.to_int (C.add (C.sub high low) 1)) in
  let pivot_index := C.add low (C.to_size_t off) in
  swap (base + pivot_index) (base + high).

(** The [for] loop of [partition], from [j] on with the boundary at [i];
    [n] bounds the iterations left. *)
Fixpoint partition_loop (n : nat) (base high : Z) (compar : A -> A -> Z)
    (pivot : A) (i j : Z) : M A Z :=
  if j <? high then
    match n with
    | O => out_of_fuel
    | S n' =>
        do bj <- load (base + j) in
        do c <- call compar bj pivot in
        if c <? 0 then
          run swap (base + i) (base + j) in
          partition_loop n' base high compar pivot (C.add i 1) (C.add j 1)
        else
          partition_loop n' base high compar pivot i (C.add j 1)
    end
  else ret i.

Definition partition (base low high : Z) (compar : A -> A -> Z) : M A Z :=
  do pivot <- load (base + high) in
  do i <- partition_loop (Z.to_nat (high - low)) base high compar pivot low low in
  run swap (base + i) (base + high) in
  ret i.

(** The recursive drivers take the depth of recursion they may use, [fuel];
    each entry of [quick_sort_rec] is recorded in the trace. *)
Fixpoint quick_sort_rec (fuel : nat) (base low high : Z)
    (compar : A -> A -> Z) : M A unit :=
  match fuel with
  | O => out_of_fuel
  | S fuel' =>
      run emit (Enter_quick_sort_rec low high) in
      if low <? high then
        run choose_random_pivot base low high in
        do pi <- partition base low high compar in
        run (if 0 <? pi
             then quick_sort_rec fuel' base low (C.sub pi 1) compar
             else ret tt) in
        quick_sort_rec fuel' base (C.add pi 1) high compar
      else ret tt
  end.

(** [base] and [compar] are pointers: [None] is [NULL]. *)
Definition quick_sort (fuel : nat) (base : option Z) (nitems : Z)
    (compar : option (A -> A -> Z)) : M A unit :=
  match base, compar with
  | Some b, Some c =>
      if 0 <? nitems then
        run srand (C.to_unsigned (now E)) in
        quick_sort_rec fuel b 0 (C.sub nitems 1) c
      else ret tt
  | _, _ => eprint ("quick_sort: base and compar cannot be NULL" ++ newline)
  end.

(** The scratch buffer of [merge] is held as the list of the cells written
    so far; [temp[k] = x] with [k] the first cell not yet written extends it. *)
Definition temp_store (cap : Z) (temp : list A) (k : Z) (x : A) : M A (list A) :=
  if (0 <=? k) && (k <? cap) then
    if k =? Z.of_nat (length temp) then ret (temp ++ [x])
    else if k <? Z.of_nat (length temp) then ret (<[Z.to_nat k := x]> temp)
    else fault
  else fault.

(** [while (i < middle_i && j < nitems) ...] *)
Fixpoint merge_loop (n : nat) (base nitems middle_i : Z) (compar : A -> A -> Z)
    (cap : Z) (i j k : Z) (temp : list A) : M A (Z * Z * Z * list A) :=
  if (i <? middle_i) && (j <? nitems) then
    match n with
    | O => out_of_fuel
    | S n' =>
        do bi <- load (base + i) in
        do bj <- load (base + j) in
        do c <- call compar bi bj in
        if c <=? 0 then
          do temp' <- temp_store cap temp k bi in
          merge_loop n' base nitems middle_i compar cap (C.add i 1) j (C.add k 1) temp'
        else
          do temp' <- temp_store cap temp k bj in
          merge_loop n' base nitems middle_i compar cap i (C.add j 1) (C.add k 1) temp'
    end
  else ret (i, j, k, temp).

(** [while (c < bound) temp[k++] = base[c++];] *)
Fixpoint drain_loop (n : nat) (base bound : Z) (cap : Z) (c k : Z)
    (temp : list A) : M A (Z * Z * list A) :=
  if c <? bound then
    match n with
    | O => out_of_fuel
    | S n' =>
        do bc <- load (base + c) in
        do temp' <- temp_store cap temp k bc in
        drain_loop n' base bound cap (C.add c 1) (C.add k 1) temp'
    end
  else ret (c, k, temp).

(** [memcpy(base, temp, bytes)]: the first [bytes / sizeof(void * )] cells of
    the scratch buffer, which must have been written, replace as many cells
    of the array from [base] on. *)
Definition memcpy (base : Z) (temp : list A) (cap bytes : Z) : M A unit :=
  fun w =>
    let n := bytes / C.sizeof_ptr in
    if (0 <=? base) && (base + n <=? Z.of_nat (length (mem w)))
       && (n <=? Z.of_nat (length temp)) && (n <=? cap)
    then Ok tt (set_mem w (take (Z.to_nat base) (mem w) ++ take (Z.to_nat n) temp
                             ++ drop (Z.to_nat (base + n)) (mem w)))
    else Fault.

(** The scratch buffer lives in the call: [free(temp)] leaves nothing to
    observe. *)
Definition merge (base nitems middle_i : Z) (compar : A -> A -> Z) : M A unit :=
  do temp <- malloc (C.mul nitems C.sizeof_ptr) in
  match temp with
  | None =>
      run eprint ("merge: memory allocation failed" ++ newline) in
      exit C.EXIT_FAILURE
  | Some cap =>
      do s1 <- merge_loop (Z.to_nat nitems) base nitems middle_i compar cap
                 0 middle_i 0 [] in
      let '(i, j, k, temp) := s1 in
      do s2 <- drain_loop (Z.to_nat nitems) base middle_i cap i k temp in
      let '(i, k, temp) := s2 in
      do s3 <- drain_loop (Z.to_nat nitems) base nitems cap j k temp in
      let '(j, k, temp) := s3 in
      memcpy base temp cap (C.mul nitems C.sizeof_ptr)
  end.

Fixpoint merge_sort_rec (fuel : nat) (base nitems : Z)
    (compar : A -> A -> Z) : M A unit :=
  match fuel with
  | O => out_of_fuel
  | S fuel' =>
      if 1 <? nitems then
        let middle_i := nitems / 2 in
        run merge_sort_rec fuel' base middle_i compar in
        run merge_sort_rec fuel' (base + middle_i) (C.sub nitems middle_i) compar in
        merge base nitems middle_i compar
      else ret tt
  end.

Definition merge_sort (fuel : nat) (base : option Z) (nitems : Z)
    (compar : option (A -> A -> Z)) : M A unit :=
  match base, compar with
  | Some b, Some c =>
      if 2 <=? nitems then merge_sort_rec fuel b nitems c else ret tt
  | _, _ => eprint ("merge_sort: base and compar cannot be NULL" ++ newline)
  end.

End Engine.

(** ** Notions used by the statements *)

Section Notions.

Context {A : Type}.

(** The comparator contract of [merge_quick_sort.h]: negative, zero or
    positive as the first argument is less than, equal to or greater than
    the second, consistently with a total preorder. *)
Record total_preorder (compar : A -> A -> Z) : Prop := {
  compar_sign : forall a b, compar a b < 0 <-> 0 < compar b a;
  compar_trans : forall a b c, compar a b <= 0 -> compar b c <= 0 -> compar a c <= 0
}.

(** [a] does not follow [b]. *)
Definition le_by (compar : A -> A -> Z) (a b : A) : Prop := compar a b <= 0.

(** Non-decreasing under the comparator. *)
Definition sorted_by (compar : A -> A -> Z) (l : list A) : Prop :=
  StronglySorted (le_by compar) l.

(** The cells [lo, lo + n) of an array. *)
Definition slice (lo n : nat) (l : list A) : list A := take n (drop lo l).

(** A C array of pointers occupies at most [SIZE_MAX] bytes. *)
Definition addressable (l : list A) : Prop :=
  Z.of_nat (length l) * C.sizeof_ptr <= C.SIZE_MAX.

(** Every value [rand()] returns lies between 0 and [RAND_MAX <= INT_MAX]. *)
Definition rand_in_range (E : environment) : Prop :=
  forall seed n, 0 <= prng E seed n <= C.INT_MAX.

(** The elements the comparator ties with [x] keep their order. *)
Definition stable (compar : A -> A -> Z) (l l' : list A) : Prop :=
  forall x, filter (fun y => compar x y = 0) l' = filter (fun y => compar x y = 0) l.

(** What a run of the pivot selector or of quicksort on the cells [seg] of
    [pre ++ seg ++ suf] ends with: either it returns and the cells are
    permuted ([sorted] tells what more is known of them); or the range has
    [2^32] cells or more and the run stopped at the division [rand() % 0]
    its length converted to [int] leads to. *)
Definition quick_sort_post (sorted : list A -> Prop) (pre seg suf : list A)
    (o : outcome A unit) : Prop :=
  match o with
  | Ok _ w' => exists seg', mem w' = pre ++ seg' ++ suf /\ seg' ≡ₚ seg /\ sorted seg'
  | Fault => 2 ^ 32 <= Z.of_nat (length seg)
  | Exit _ _ => False
  | OutOfFuel => False
  end.

(** The cells [seg] of [pre ++ seg ++ suf] hold the same references after
    the computation, whether it returned or exited; [may_fault] tells when
    it may instead have stopped on undefined behaviour. *)
Definition keeps_references (may_fault : Prop) (pre seg suf : list A) {X}
    (o : outcome A X) : Prop :=
  match o with
  | Ok _ w' => exists seg', mem w' = pre ++ seg' ++ suf /\ seg' ≡ₚ seg
  | Exit _ w' => exists seg', mem w' = pre ++ seg' ++ suf /\ seg' ≡ₚ seg
  | Fault => may_fault
  | OutOfFuel => False
  end.

(** [quick_sort_rec] on a range [low < high], up to the return of
    [partition]. *)
Definition partition_step (E : environment) (base low high : Z)
    (compar : A -> A -> Z) : M A Z :=
  run emit (Enter_quick_sort_rec low high) in
  run choose_random_pivot E base low high in
  partition base low high compar.

(** The diagnostic of the top-level calls given a null pointer. *)
Definition invalid_argument (fn : string) : event A :=
  Stderr (fn ++ ": base and compar cannot be NULL" ++ newline).

(** The diagnostic of [merge] when [malloc] returns [NULL]. *)
Definition out_of_memory : event A :=
  Stderr ("merge: memory allocation failed" ++ newline).

(** What a run of mergesort on the cells [seg] of [pre ++ seg ++ suf] ends
    with: either it returns, every allocation it made having succeeded, and
    the cells are permuted (sorted and stable when the comparator is a total
    preorder); or its last allocation failed, it printed the diagnostic and
    exited, and the cells are still a permutation of what they were. *)
Definition merge_sort_post (E : environment) (compar : A -> A -> Z)
    (w : world A) (pre seg suf : list A) (o : outcome A unit) : Prop :=
  match o with
  | Ok _ w' =>
      exists seg',
        mem w' = pre ++ seg' ++ suf /\ seg' ≡ₚ seg
        /\ (total_preorder compar -> sorted_by compar seg' /\ stable compar seg seg')
        /\ (allocs w <= allocs w')%nat
        /\ (forall n, (allocs w <= n < allocs w')%nat -> heap_ok E n = true)
  | Exit status w' =>
      exists seg',
        status = C.EXIT_FAILURE
        /\ mem w' = pre ++ seg' ++ suf /\ seg' ≡ₚ seg
        /\ (allocs w < allocs w')%nat
        /\ heap_ok E (pred (allocs w')) = false
        /\ last (trace w') = Some out_of_memory
  | Fault => False
  | OutOfFuel => False
  end.

(** The functional merge the loops of [merge] compute: ties go left. *)
Fixpoint merge_lists (compar : A -> A -> Z) (l : list A) : list A -> list A :=
  fix inner (r : list A) : list A :=
    match l, r with
    | [], _ => r
    | _, [] => l
    | x :: l', y :: r' =>
        if compar x y <=? 0 then x :: merge_lists compar l' r
        else y :: inner r'
    end.

End Notions.

(** ** Concrete comparators, environments and worlds *)

(** A three-way comparison of integers, in the manner of [compar_double] of
    the unit tests. *)
Definition compar_Z (a b : Z) : Z :=
  match a ?= b with
  | Lt => -1
  | Eq => 0
  | Gt => 1
  end.

(** Records compared on a key field, as [merge_quick_sort_main.c] sorts them:
    two records with the same key tie. *)
Definition compar_key (a b : Z * Z) : Z := compar_Z (fst a) (fst b).

(** A process started at time [t] on a C library whose generator, seeded
    with [s], returns [s] (reduced to the range of [rand]) forever, and whose
    allocator answers as [ok] says. *)
Definition libc (t : Z) (ok : nat -> bool) : environment :=
  Environment (fun seed _ => seed mod 2 ^ 31) t ok.

Definition roomy : nat -> bool := fun _ => true.
Definition exhausted : nat -> bool := fun _ => false.

(** The world of a process that has just started, with array [l]: the
    generator is as after [srand(1)]. *)
Definition boot {A : Type} (l : list A) : world A := World l 1 0 0 [].

(** The world after [srand(seed)], with array [l]. *)
Definition seeded {A : Type} (seed : Z) (l : list A) : world A := World l seed 0 0 [].

(** The integers of the unit tests, and records that tie on their key. *)
Definition four_integers : list Z := [4; 3; 2; 1].
Definition tied_records : list (Z * Z) := [(1, 0); (0, 1); (1, 2); (0, 3)].

(** An array of [2^32] references. *)
Definition huge_array : list Z := replicate (Z.to_nat (2 ^ 32)) 0.

(** ** The program (ex1/src/merge_quick_sort_main.c)

    The records, their three comparators and the dispatch on the field and
    the algorithm given on the command line.  The [float]s of the machine
    with their [>], [strcmp] of the C library and the name the compiler puts
    in [__FILE__] are given. *)

Section Program.

Variable float : Type.
Variable float_gt : float -> float -> bool.
Variable strcmp : string -> string -> Z.
Variable E : environment.
Variable FILE_ : string.

Definition MAX_RECORDS : Z := 20000000.

Record Record := {
  id : Z;
  string_field : string;
  integer_field : Z;
  floating_field : float
}.

(** [%d] *)
Definition decimal (z : Z) : string := NilZero.string_of_int (Z.to_int z).

(** [fprintf(stderr, "%s:%d %s", filename, line, message); exit(1);] *)
Definition handle_error (filename : string) (line : Z) (message : string)
    : M Record unit :=
  run eprint (filename ++ ":" ++ decimal line ++ " " ++ message) in
  exit 1.

Definition comparator_record_string_field (r1 r2 : Record) : Z :=
  strcmp (string_field r1) (string_field r2).

(** [return rec1_p - rec2_p;] on [int]: a difference outside the range of
    [int] is an overflow, undefined in C; it is given the value that
    two's complement arithmetic computes. *)
Definition comparator_record_integer_field (r1 r2 : Record) : Z :=
  C.to_int (integer_field r1 - integer_field r2).

Definition comparator_record_floating_field (r1 r2 : Record) : Z :=
  if float_gt (floating_field r1) (floating_field r2) then 1
  else if float_gt (floating_field r2) (floating_field r1) then -1
  else 0.

(** The [switch] on [field]; the call of [handle_error] is on line 108 of
    the file. *)
Definition get_comparator_for_field (field : Z)
    : M Record (option (Record -> Record -> Z)) :=
  if field =? 1 then ret (Some comparator_record_string_field)
  else if field =? 2 then ret (Some comparator_record_integer_field)
  else if field =? 3 then ret (Some comparator_record_floating_field)
  else
    run handle_error FILE_ 108
          ("Field should be 1 (string), 2 (integer) or 3 (double)" ++ newline) in
    ret None.

(** The comparator is fetched first, then comes the [switch] on [algo]; the
    call of [handle_error] is on line 147 of the file. *)
Definition execute_sorting_algorithm (fuel : nat) (field algo : Z) (records : option Z)
    : M Record unit :=
  do compar <- get_comparator_for_field field in
  if algo =? 1 then merge_sort E fuel records MAX_RECORDS compar
  else if algo =? 2 then quick_sort E fuel records MAX_RECORDS compar
  else
    handle_error FILE_ 147
      ("Algorithm should be 1 (MergeSort) or 2 (QuickSort)" ++ newline).

End Program.

Arguments id {float} _.
Arguments string_field {float} _.
Arguments integer_field {float} _.
Arguments floating_field {float} _.
Arguments Build_Record {float} _ _ _ _.

(** Floats for the examples: the integers, and one value that [>] does not
    order, as a NaN. *)
Definition toy_gt (a b : option Z) : bool :=
  match a, b with
  | Some x, Some y => y <? x
  | _, _ => false
  end.

(** The sign of [strcmp] on strings without a NUL byte. *)
Definition strcmp_sign (a b : string) : Z :=
  match String.compare a b with
  | Lt => -1
  | Eq => 0
  | Gt => 1
  end.

Definition record_of (f : Z) : Record Z := Build_Record 0 EmptyString 0 f.

(** Records whose integer fields are [n], and twenty million of them that
    are out of order. *)
Definition numbered (n : Z) : Record Z := Build_Record 0 EmptyString n 0.

Definition many_numbered : list (Record Z) :=
  numbered 5 :: numbered (-3) :: replicate (Z.to_nat (MAX_RECORDS - 2)) (numbered 1).

(** Records number [i] whose float fields are the number [f], with floats
    that have a NaN; twenty million of them out of order, with ties; and the
    order of the numbers on them. *)
Definition measured (i f : Z) : Record (option Z) := Build_Record i EmptyString 0 (Some f).

Definition many_measured : list (Record (option Z)) :=
  measured 1 2 :: measured 2 1 :: replicate (Z.to_nat (MAX_RECORDS - 2)) (measured 3 1).

Definition by_measure (r1 r2 : Record (option Z)) : Z :=
  compar_Z (default 0 (floating_field r1)) (default 0 (floating_field r2)).

(** Two sorted runs side by side, and an array that is sorted already. *)
Definition two_runs : list Z := [1; 3; 2; 4].

Definition sorted_integers : list Z := [1; 2; 3; 4].

(** ** Notions for what a run costs and leaves alone *)

Section Accounts.

Context {A : Type}.

(** The calls of the comparator recorded in a stretch of trace. *)
Definition is_comparison (e : event A) : bool :=
  match e with
  | Compar _ _ => true
  | _ => false
  end.

Definition comparisons (t : list (event A)) : nat :=
  length (filter (fun e => is_comparison e = true) t).

(** The state of the C library is the same in two worlds: the generator has
    not been seeded or drawn from, and nothing has been allocated. *)
Definition same_libc (w w' : world A) : Prop :=
  rng_seed w' = rng_seed w /\ rng_pos w' = rng_pos w /\ allocs w' = allocs w.

(** An event of a sort that behaves: nothing is printed, and the comparator
    is only called on references of [seg]. *)
Definition within (seg : list A) (e : event A) : Prop :=
  match e with
  | Compar x y => x ∈ seg /\ y ∈ seg
  | Stderr _ => False
  | _ => True
  end.

(** Two comparators give results of the same sign on the references of
    [seg]. *)
Definition same_sign (compar compar' : A -> A -> Z) (seg : list A) : Prop :=
  forall a b, a ∈ seg -> b ∈ seg -> Z.sgn (compar a b) = Z.sgn (compar' a b).

(** The elements the comparator places below [p]. *)
Definition below (compar : A -> A -> Z) (p : A) (l : list A) : list A :=
  filter (fun x => compar x p < 0) l.

End Accounts.

(** * The spelling corrector (ex2)

    Computations of ex2 run on a state (the memoisation table, or the buffer
    that holds a word) and return a value, run into undefined behaviour, or
    run out of the fuel they were given. *)

Module Run.

Inductive result (S X : Type) : Type :=
| Val (x : X) (s : S)
| Undefined
| OutOfFuel.

Arguments Val {S X} x s.
Arguments Undefined {S X}.
Arguments OutOfFuel {S X}.

Definition T (S X : Type) : Type := S -> result S X.

Definition ret {S X : Type} (x : X) : T S X := fun s => Val x s.

Definition bind {S X Y : Type} (m : T S X) (k : X -> T S Y) : T S Y :=
  fun s =>
    match m s with
    | Val x s' => k x s'
    | Undefined => Undefined
    | OutOfFuel => OutOfFuel
    end.

Definition out_of_fuel {S X : Type} : T S X := fun _ => OutOfFuel.

Definition undefined {S X : Type} : T S X := fun _ => Undefined.

Notation "'let*' x ':=' m 'in' k" := (bind m (fun x => k))
  (at level 10, x name, m at level 100, k at level 200, only parsing).
Notation "'then*' m 'in' k" := (bind m (fun _ => k))
  (at level 10, m at level 100, k at level 200, only parsing).

End Run.

(** ** Edit distance (ex2/src/edit_distance.c) *)

Module EditDistance.

Import Run.

Definition MAXLEN : Z := 1000.

Definition min (a b : Z) : Z := if a <? b then a else b.

(** [int memo[MAXLEN + 1][MAXLEN + 1]], a local array: a cell holds nothing
    to read until it has been written. *)
Definition table : Type := Z -> Z -> option Z.

Definition fresh : table := fun _ _ => None.

Definition T (X : Type) : Type := Run.T table X.

Definition in_table (i j : Z) : bool :=
  (0 <=? i) && (i <=? MAXLEN) && (0 <=? j) && (j <=? MAXLEN).

(** [memo[i][j]] *)
Definition read (i j : Z) : T Z :=
  fun memo =>
    if in_table i j then
      match memo i j with
      | Some v => Val v memo
      | None => Undefined
      end
    else Undefined.

(** [memo[i][j] = v] *)
Definition write (i j v : Z) : T unit :=
  fun memo =>
    if in_table i j
    then Val tt (fun i' j' => if (i' =? i) && (j' =? j) then Some v else memo i' j')
    else Undefined.

(** [s[k]]: a string is the list of its characters, followed in memory by
    the terminating NUL; nothing beyond that may be read. *)
Definition char_at (s : list ascii) (k : Z) : T ascii :=
  fun memo =>
    if (0 <=? k) && (k <=? Z.of_nat (length s))
    then Val (nth (Z.to_nat k) s zero) memo
    else Undefined.

(** [(int) strlen(s)] *)
Definition strlen (s : list ascii) : Z := C.to_int (Z.of_nat (length s)).

(** [int] addition and subtraction. *)
Definition plus (a b : Z) : Z := C.to_int (a + b).
Definition minus (a b : Z) : Z := C.to_int (a - b).

(** [s1] and [s2] are the strings, [p1] and [p2] the offsets the pointers of
    the C function have been advanced to. *)
Fixpoint edit_distance_recursive (fuel : nat) (s1 s2 : list ascii) (p1 p2 : Z)
    (len1 len2 : Z) : T Z :=
  match fuel with
  | O => out_of_fuel
  | S fuel' =>
      let* m := read len1 len2 in
      if negb (m =? -1) then ret m
      else if len1 =? 0 then ret len2
      else if len2 =? 0 then ret len1
      else
        let* c1 := char_at s1 p1 in
        let* c2 := char_at s2 p2 in
        if Ascii.eqb c1 c2 then
          let* r := edit_distance_recursive fuel' s1 s2 (p1 + 1) (p2 + 1)
                      (minus len1 1) (minus len2 1) in
          then* write len1 len2 r in
          read len1 len2
        else
          let* r1 := edit_distance_recursive fuel' s1 s2 p1 (p2 + 1) len1 (minus len2 1) in
          let insert := plus 1 r1 in
          let* r2 := edit_distance_recursive fuel' s1 s2 (p1 + 1) p2 (minus len1 1) len2 in
          let delete := plus 1 r2 in
          then* write len1 len2 (min insert delete) in
          read len1 len2
  end.

(** [for (int j = 0; j <= len2; ++j) memo[i][j] = -1;] from [j] on; [n]
    bounds the iterations left. *)
Fixpoint clear_row (n : nat) (i j len2 : Z) : T unit :=
  if j <=? len2 then
    match n with
    | O => out_of_fuel
    | S n' => then* write i j (-1) in clear_row n' i (plus j 1) len2
    end
  else ret tt.

(** [for (int i = 0; i <= len1; ++i) ...] from [i] on. *)
Fixpoint clear_rows (n : nat) (i len1 len2 : Z) : T unit :=
  if i <=? len1 then
    match n with
    | O => out_of_fuel
    | S n' =>
        then* clear_row (Z.to_nat (len2 + 1)) i 0 len2 in
        clear_rows n' (plus i 1) len1 len2
    end
  else ret tt.

Definition edit_distance (fuel : nat) (s1 s2 : list ascii) : result table Z :=
  let len1 := strlen s1 in
  let len2 := strlen s2 in
  (then* clear_rows (Z.to_nat (len1 + 1)) 0 len1 len2 in
   edit_distance_recursive fuel s1 s2 0 0 len1 len2) fresh.

(** The body of the two loops of [edit_distance_dyn]. *)
Definition fill_cell (s1 s2 : list ascii) (i j : Z) : T unit :=
  if i =? 0 then write i j j
  else if j =? 0 then write i j i
  else
    let* c1 := char_at s1 (minus i 1) in
    let* c2 := char_at s2 (minus j 1) in
    if Ascii.eqb c1 c2 then
      let* v := read (minus i 1) (minus j 1) in
      write i j v
    else
      let* a := read (minus i 1) j in
      let* b := read i (minus j 1) in
      write i j (plus 1 (min a b)).

Fixpoint fill_row (n : nat) (s1 s2 : list ascii) (i j len2 : Z) : T unit :=
  if j <=? len2 then
    match n with
    | O => out_of_fuel
    | S n' => then* fill_cell s1 s2 i j in fill_row n' s1 s2 i (plus j 1) len2
    end
  else ret tt.

Fixpoint fill_rows (n : nat) (s1 s2 : list ascii) (i len1 len2 : Z) : T unit :=
  if i <=? len1 then
    match n with
    | O => out_of_fuel
    | S n' =>
        then* fill_row (Z.to_nat (len2 + 1)) s1 s2 i 0 len2 in
        fill_rows n' s1 s2 (plus i 1) len1 len2
    end
  else ret tt.

Definition edit_distance_dyn (s1 s2 : list ascii) : result table Z :=
  let len1 := strlen s1 in
  let len2 := strlen s2 in
  (then* fill_rows (Z.to_nat (len1 + 1)) s1 s2 0 len1 len2 in
   read len1 len2) fresh.

(** The recursion of [edit_distance_recursive] without its table. *)
Fixpoint distance (s1 : list ascii) : list ascii -> Z :=
  fix inner (s2 : list ascii) : Z :=
    match s1, s2 with
    | [], _ => Z.of_nat (length s2)
    | _, [] => Z.of_nat (length s1)
    | a :: t1, b :: t2 =>
        if Ascii.eqb a b then distance t1 t2
        else min (1 + inner t2) (1 + distance t1 s2)
    end.

End EditDistance.



(** ** The corrector (ex2/src/main_ex2.c) *)

Module Corrector.

Import Run.

Definition MAXLEN : Z := 100000.

(** The value of a [char], signed as on the usual targets. *)
Definition char_value (c : ascii) : Z :=
  let n := Z.of_N (N_of_ascii c) in if n <? 128 then n else n - 256.

(** [(c >= 'a' && c <= 'z') || (c >= 'A' && c <= 'Z')] *)
Definition is_letter (c : ascii) : bool :=
  ((97 <=? char_value c) && (char_value c <=? 122))
  || ((65 <=? char_value c) && (char_value c <=? 90)).

(** The memory that holds the word is the list of its bytes; pointers into
    it are offsets. *)

(** [*p] *)
Definition peek (p : Z) : T (list ascii) ascii :=
  fun buf =>
    if 0 <=? p then
      match buf !! Z.to_nat p with
      | Some c => Val c buf
      | None => Undefined
      end
    else Undefined.

(** [*p = c] *)
Definition poke (p : Z) (c : ascii) : T (list ascii) unit :=
  fun buf =>
    if (0 <=? p) && (p <? Z.of_nat (length buf))
    then Val tt (<[Z.to_nat p := c]> buf)
    else Undefined.

(** [while ( *src) ...], returning [dst]; [n] bounds the iterations left. *)
Fixpoint remove_punctuation_loop (n : nat) (src dst : Z) : T (list ascii) Z :=
  let* c := peek src in
  if Ascii.eqb c zero then ret dst
  else
    match n with
    | O => out_of_fuel
    | S n' =>
        if is_letter c then
          then* poke dst c in
          remove_punctuation_loop n' (src + 1) (dst + 1)
        else remove_punctuation_loop n' (src + 1) dst
    end.

Definition remove_punctuation (fuel : nat) (word : Z) : T (list ascii) unit :=
  let* dst := remove_punctuation_loop fuel word word in
  poke dst zero.

(** The [for] loop of [find_closest_word] from [i] on; the pointer
    [closest_word] is the dictionary word it points to, [None] is [NULL]. *)
Fixpoint find_closest_word_loop (n : nat) (word : list ascii)
    (dictionary : list (list ascii)) (dict_size edit_distance_threshold : Z)
    (i min_distance : Z) (closest_word : option (list ascii))
    : result unit (option (list ascii)) :=
  if i <? dict_size then
    match n with
    | O => OutOfFuel
    | S n' =>
        if 0 <=? i then
          match dictionary !! Z.to_nat i with
          | Some entry =>
              match EditDistance.edit_distance_dyn word entry with
              | Val dist _ =>
                  if (dist <=? edit_distance_threshold) && (dist <? min_distance)
                  then find_closest_word_loop n' word dictionary dict_size
                         edit_distance_threshold (EditDistance.plus i 1) dist (Some entry)
                  else find_closest_word_loop n' word dictionary dict_size
                         edit_distance_threshold (EditDistance.plus i 1) min_distance
                         closest_word
              | Undefined => Undefined
              | OutOfFuel => OutOfFuel
              end
          | None => Undefined
          end
        else Undefined
    end
  else Val closest_word tt.

Definition find_closest_word (word : list ascii) (dictionary : list (list ascii))
    (dict_size edit_distance_threshold : Z) : result unit (option (list ascii)) :=
  find_closest_word_loop (Z.to_nat dict_size) word dictionary dict_size
    edit_distance_threshold 0 MAXLEN None.

End Corrector.

(** ** Notions for the edit distance *)

Section EditDistanceNotions.

Import EditDistance.

Variables s1 s2 : list ascii.

(** The cell [i], [j] of the table of [edit_distance_dyn]: the distance of
    the first [i] characters of [s1] from the first [j] of [s2], read from
    the last character backwards as the loops do. *)
Definition prefix_distance (i j : Z) : Z :=
  distance (reverse (take (Z.to_nat i) s1)) (reverse (take (Z.to_nat j) s2)).

Definition filled (i j : Z) (memo : table) : Prop :=
  forall i' j', 0 <= i' -> 0 <= j' <= Z.of_nat (length s2) ->
    i' < i \/ (i' = i /\ j' < j) -> memo i' j' = Some (prefix_distance i' j').

(** The cells of the table of [edit_distance]: the distance of the last
    [i] characters of [s1] from the last [j] of [s2]. *)
Definition suffix_distance (i j : Z) : Z :=
  distance (drop (Z.to_nat (Z.of_nat (length s1) - i)) s1)
           (drop (Z.to_nat (Z.of_nat (length s2) - j)) s2).

Definition memoised (memo : table) : Prop :=
  forall i j, 0 <= i <= Z.of_nat (length s1) -> 0 <= j <= Z.of_nat (length s2) ->
    memo i j = Some (-1) \/ memo i j = Some (suffix_distance i j).

End EditDistanceNotions.

(** The letters of a word, in their order. *)
Definition letters (w : list ascii) : list ascii :=
  filter (fun c => Corrector.is_letter c = true) w.

(** Words for the examples: the pairs of the unit tests, a word longer than
    the table, a small dictionary, and a word with punctuation in a buffer. *)
Definition casa : list ascii := list_ascii_of_string "casa".

Definition cassa : list ascii := list_ascii_of_string "cassa".

Definition too_long : list ascii := replicate 1001 "a"%char.

Definition small_dictionary : list (list ascii) :=
  [list_ascii_of_string "cosa"; list_ascii_of_string "cassa"; list_ascii_of_string "causa"].

Definition punctuated : list ascii := list_ascii_of_string "c'e!".

(** ** Arithmetic of the C types *)

Lemma add_small a b : 0 <= a + b < 2 ^ 64 -> C.add a b = a + b.
Proof. intros H. unfold C.add. now rewrite Z.mod_small. Qed.

Lemma sub_small a b : 0 <= a - b < 2 ^ 64 -> C.sub a b = a - b.
Proof. intros H. unfold C.sub. now rewrite Z.mod_small. Qed.

Lemma mul_small a b : 0 <= a * b < 2 ^ 64 -> C.mul a b = a * b.
Proof. intros H. unfold C.mul. now rewrite Z.mod_small. Qed.

Lemma to_size_t_small a : 0 <= a < 2 ^ 64 -> C.to_size_t a = a.
Proof. intros H. unfold C.to_size_t. now rewrite Z.mod_small. Qed.

Lemma to_int_small n : 0 <= n < 2 ^ 31 -> C.to_int n = n.
Proof.
  intros H. unfold C.to_int. rewrite Z.mod_small by lia.
  destruct (Z.ltb_spec n (2 ^ 31)); lia.
Qed.

Lemma to_int_large n : 2 ^ 31 <= n < 2 ^ 32 -> C.to_int n = n - 2 ^ 32.
Proof.
  intros H. unfold C.to_int. rewrite Z.mod_small by lia.
  destruct (Z.ltb_spec n (2 ^ 31)); lia.
Qed.

(** The remainder the pivot selector computes stays below the length of the
    range, whichever way the length converts to [int], as long as it does not
    convert to zero. *)
Lemma rem_to_int_bound r n :
  0 <= r -> 0 < n -> C.to_int n <> 0 -> 0 <= Z.rem r (C.to_int n) < n.
Proof.
  intros Hr Hn. unfold C.to_int.
  pose proof (Z.mod_pos_bound n (2 ^ 32) ltac:(lia)) as Hm.
  pose proof (Z.mod_le n (2 ^ 32) ltac:(lia) ltac:(lia)) as Hle.
  set (m := n mod 2 ^ 32) in *. cbv zeta.
  destruct (Z.ltb_spec m (2 ^ 31)) as [Hs|Hl]; intros Hnz.
  - pose proof (Z.rem_bound_pos r m ltac:(lia) ltac:(lia)). lia.
  - replace (m - 2 ^ 32) with (- (2 ^ 32 - m)) by lia.
    rewrite Z.rem_opp_r by lia.
    pose proof (Z.rem_bound_pos r (2 ^ 32 - m) ltac:(lia) ltac:(lia)). lia.
Qed.

Lemma to_int_zero n : 0 < n -> C.to_int n = 0 -> 2 ^ 32 <= n.
Proof.
  intros Hn Hz. destruct (Z_lt_le_dec n (2 ^ 32)) as [Hlt|]; [|assumption].
  destruct (Z_lt_le_dec n (2 ^ 31)).
  - rewrite to_int_small in Hz; lia.
  - rewrite to_int_large in Hz; lia.
Qed.

(** ** The primitives *)

Ltac list_norm := repeat rewrite <- app_assoc; simpl; try reflexivity.
Ltac len := repeat rewrite length_app in *; simpl length in *; lia.

Section Primitives.

Context {A : Type}.
Implicit Types (w : world A) (l pre suf : list A) (x y : A).

Lemma bind_Ok {X Y} (m : M A X) (k : X -> M A Y) w v w' :
  m w = Ok v w' -> bind m k w = k v w'.
Proof. intros H. unfold bind. now rewrite H. Qed.

Lemma load_at w p x :
  0 <= p -> mem w !! Z.to_nat p = Some x -> load p w = Ok x w.
Proof.
  intros Hp Hx. unfold load. destruct (Z.ltb_spec p 0); [lia|]. now rewrite Hx.
Qed.

Lemma load_middle w pre x suf p :
  mem w = pre ++ x :: suf -> p = Z.of_nat (length pre) -> load p w = Ok x w.
Proof.
  intros Hm ->. apply load_at; [lia|].
  rewrite Hm, Nat2Z.id. now apply list_lookup_middle.
Qed.

Lemma store_at w p x :
  0 <= p < Z.of_nat (length (mem w)) ->
  store p x w = Ok tt (set_mem w (<[Z.to_nat p := x]> (mem w))).
Proof.
  intros Hp. unfold store.
  destruct (Z.leb_spec 0 p); [|lia]. destruct (Z.ltb_spec p (Z.of_nat (length (mem w)))); [|lia].
  reflexivity.
Qed.

Lemma call_Ok (c : A -> A -> Z) a b w : call c a b w = Ok (c a b) (log w (Compar a b)).
Proof. reflexivity. Qed.

(** Exchanging two cells of a list, seen on the list cut at the cells. *)
Lemma exchange_apart l1 x l2 y l3 :
  <[(length l1 + S (length l2))%nat := x]> (<[length l1 := y]> (l1 ++ x :: l2 ++ y :: l3))
  = l1 ++ y :: l2 ++ x :: l3.
Proof.
  rewrite insert_app_r_alt by lia. rewrite Nat.sub_diag. simpl.
  rewrite insert_app_r_alt by (simpl; lia).
  replace (length l1 + S (length l2) - length l1)%nat with (S (length l2)) by lia.
  simpl. f_equal. f_equal.
  rewrite insert_app_r_alt by lia. now rewrite Nat.sub_diag.
Qed.

Lemma swap_at w a b x y :
  0 <= a -> 0 <= b ->
  mem w !! Z.to_nat a = Some x -> mem w !! Z.to_nat b = Some y ->
  swap a b w
  = Ok tt (set_mem w (<[Z.to_nat b := x]> (<[Z.to_nat a := y]> (mem w)))).
Proof.
  intros Ha Hb Hx Hy. unfold swap.
  rewrite (bind_Ok _ _ _ _ _ (load_at w a x Ha Hx)).
  rewrite (bind_Ok _ _ _ _ _ (load_at w b y Hb Hy)).
  apply lookup_lt_Some in Hx as Hla. apply lookup_lt_Some in Hy as Hlb.
  rewrite (bind_Ok _ _ _ _ _ (store_at w a y ltac:(lia))).
  rewrite store_at by (simpl; rewrite length_insert; lia).
  reflexivity.
Qed.

Lemma swap_apart w l1 x l2 y l3 a b :
  mem w = l1 ++ x :: l2 ++ y :: l3 ->
  a = Z.of_nat (length l1) -> b = Z.of_nat (length l1 + S (length l2)) ->
  swap a b w = Ok tt (set_mem w (l1 ++ y :: l2 ++ x :: l3)).
Proof.
  intros Hm -> ->.
  rewrite (swap_at w _ _ x y); try lia.
  - rewrite !Nat2Z.id, Hm. now rewrite exchange_apart.
  - rewrite Nat2Z.id, Hm. now apply list_lookup_middle.
  - rewrite Nat2Z.id, Hm.
    replace (l1 ++ x :: l2 ++ y :: l3) with ((l1 ++ x :: l2) ++ y :: l3) by list_norm.
    apply list_lookup_middle. len.
Qed.

Lemma swap_same w l1 x l3 a :
  mem w = l1 ++ x :: l3 -> a = Z.of_nat (length l1) ->
  swap a a w = Ok tt (set_mem w (mem w)).
Proof.
  intros Hm ->.
  assert (Hx : mem w !! Z.to_nat (Z.of_nat (length l1)) = Some x).
  { rewrite Nat2Z.id, Hm. now apply list_lookup_middle. }
  rewrite (swap_at w _ _ x x); try lia; try assumption.
  now rewrite !(list_insert_id (mem w)) by assumption.
Qed.

End Primitives.

(** ** Orders, sorted lists and the functional merge *)

Section Order.

Context {A : Type}.
Variable compar : A -> A -> Z.
Implicit Types (l r : list A) (p x y : A).

Lemma merge_lists_nil_l r : merge_lists compar [] r = r.
Proof. now destruct r. Qed.

Lemma merge_lists_nil_r l : merge_lists compar l [] = l.
Proof. now destruct l. Qed.

Lemma merge_lists_cons x l y r :
  merge_lists compar (x :: l) (y :: r)
  = if compar x y <=? 0 then x :: merge_lists compar l (y :: r)
    else y :: merge_lists compar (x :: l) r.
Proof. reflexivity. Qed.

Lemma merge_lists_perm l r : merge_lists compar l r ≡ₚ l ++ r.
Proof.
  revert r. induction l as [|x l IHl]; intros r.
  - now rewrite merge_lists_nil_l.
  - induction r as [|y r IHr].
    + now rewrite merge_lists_nil_r, app_nil_r.
    + rewrite merge_lists_cons. destruct (compar x y <=? 0).
      * now rewrite IHl.
      * rewrite IHr. solve_Permutation.
Qed.

Lemma filter_none (P : A -> Prop) `{forall x, Decision (P x)} l :
  Forall (fun x => ~ P x) l -> filter P l = [].
Proof.
  induction 1 as [|x l Hx _ IH]; [reflexivity|].
  rewrite filter_cons. now destruct (decide (P x)).
Qed.

Hypothesis Hord : total_preorder compar.

Lemma le_by_refl x : le_by compar x x.
Proof.
  unfold le_by. destruct (Z_lt_le_dec 0 (compar x x)) as [H|H]; [|assumption].
  apply (compar_sign _ Hord) in H. lia.
Qed.

(** An element that is not below the pivot does not precede it. *)
Lemma not_below_le p x : ~ compar x p < 0 -> le_by compar p x.
Proof.
  intros H. unfold le_by. destruct (Z_lt_le_dec 0 (compar p x)) as [H1|H1]; [|assumption].
  apply (compar_sign _ Hord) in H1. contradiction.
Qed.

Lemma tie_sym x y : compar x y = 0 -> compar y x = 0.
Proof.
  intros H. pose proof (compar_sign _ Hord x y). pose proof (compar_sign _ Hord y x). lia.
Qed.

Lemma sorted_around_pivot l1 p l2 :
  sorted_by compar l1 -> sorted_by compar l2 ->
  Forall (fun x => compar x p < 0) l1 ->
  Forall (fun x => ~ compar x p < 0) l2 ->
  sorted_by compar (l1 ++ p :: l2).
Proof.
  intros H1 H2 Hlt Hge. apply StronglySorted_app_2; [|assumption|].
  - intros x1 x2 Hx1 Hx2. rewrite Forall_forall in Hlt, Hge.
    assert (le_by compar x1 p) by (specialize (Hlt x1 Hx1); unfold le_by; lia).
    apply elem_of_cons in Hx2 as [->|Hx2]; [assumption|].
    apply (compar_trans _ Hord x1 p x2); [assumption|]. now apply not_below_le, Hge.
  - constructor; [assumption|]. eapply Forall_impl; [exact Hge|]. apply not_below_le.
Qed.

Lemma merge_lists_sorted l r :
  sorted_by compar l -> sorted_by compar r -> sorted_by compar (merge_lists compar l r).
Proof.
  revert r. induction l as [|x l IHl]; intros r Hl Hr.
  - now rewrite merge_lists_nil_l.
  - induction r as [|y r IHr].
    + now rewrite merge_lists_nil_r.
    + rewrite merge_lists_cons.
      apply StronglySorted_cons in Hl as [Hxl Hl]. apply StronglySorted_cons in Hr as [Hyr Hr].
      destruct (Z.leb_spec (compar x y) 0) as [Hc|Hc].
      * constructor; [apply IHl; [assumption | now constructor]|].
        rewrite merge_lists_perm. apply Forall_app; split; [assumption|].
        constructor; [assumption|].
        eapply Forall_impl; [exact Hyr|]. intros z Hz. now apply (compar_trans _ Hord x y z).
      * assert (Hyx : le_by compar y x).
        { unfold le_by. pose proof (compar_sign _ Hord y x). lia. }
        constructor; [apply IHr; assumption|].
        rewrite merge_lists_perm. apply Forall_app; split; [|assumption].
        constructor; [assumption|].
        eapply Forall_impl; [exact Hxl|]. intros z Hz. now apply (compar_trans _ Hord y x z).
Qed.

(** Merging sorted runs never lets an element of the right run overtake an
    element of the left run it ties with. *)
Lemma merge_lists_stable l r x :
  sorted_by compar l ->
  filter (fun y => compar x y = 0) (merge_lists compar l r)
  = filter (fun y => compar x y = 0) l ++ filter (fun y => compar x y = 0) r.
Proof.
  revert r. induction l as [|a l IHl]; intros r Hl.
  - now rewrite merge_lists_nil_l.
  - induction r as [|b r IHr].
    + now rewrite merge_lists_nil_r, app_nil_r.
    + rewrite merge_lists_cons.
      apply StronglySorted_cons in Hl as Hl'. destruct Hl' as [Hal Hl'].
      destruct (Z.leb_spec (compar a b) 0) as [Hc|Hc].
      * rewrite !(filter_cons _ a). destruct (decide (compar x a = 0)); now rewrite IHl.
      * rewrite !(filter_cons _ b), IHr.
        destruct (decide (compar x b = 0)) as [Hb|Hb]; [|reflexivity].
        rewrite (filter_none (fun y => compar x y = 0) (a :: l)); [reflexivity|].
        assert (Hall : Forall (le_by compar a) (a :: l)) by (constructor; [apply le_by_refl|assumption]).
        eapply Forall_impl; [exact Hall|]. intros z Haz Hz. unfold le_by in Haz.
        assert (compar z b <= 0).
        { apply (compar_trans _ Hord z x b); [apply tie_sym in Hz|]; lia. }
        pose proof (compar_trans _ Hord a z b). lia.
Qed.

(** Below-ness passes down a sorted list, and its absence up. *)
Lemma below_le_trans x y z : le_by compar y x -> compar x z < 0 -> compar y z < 0.
Proof.
  intros Hyx Hxz. destruct (Z_lt_le_dec (compar y z) 0) as [|Hn]; [assumption|].
  assert (le_by compar z y) by (apply not_below_le; lia).
  pose proof (compar_trans _ Hord z y x ltac:(assumption) Hyx).
  pose proof (compar_sign _ Hord x z). lia.
Qed.

Lemma not_below_le_trans x y z : le_by compar x y -> ~ compar x z < 0 -> ~ compar y z < 0.
Proof.
  intros Hxy Hxz Hyz. apply Hxz. now apply (below_le_trans y x z).
Qed.

Lemma filter_all (P : A -> Prop) `{forall x, Decision (P x)} l :
  Forall P l -> filter P l = l.
Proof.
  induction 1 as [|x l Hx _ IH]; [reflexivity|].
  now rewrite filter_cons_True, IH.
Qed.

(** In a sorted list, the elements below [z] are a prefix: knowing the
    element at a position, one knows on which side of it they end. *)
Lemma count_below_from l i x z :
  sorted_by compar l -> l !! i = Some x -> compar x z < 0 ->
  (i < length (filter (fun y => (compar y z < 0)%Z) l))%nat.
Proof.
  intros Hs Hi Hx. rewrite <- (take_drop_middle l i x Hi) in Hs |- *.
  apply StronglySorted_app in Hs as (Hcross & _ & _).
  assert (Hall : Forall (fun y => compar y z < 0) (take i l)).
  { apply Forall_forall. intros y Hy. apply (below_le_trans x y z); [|assumption].
    apply Hcross; [assumption|]. now left. }
  rewrite filter_app, length_app, (filter_all _ _ Hall), filter_cons_True by assumption.
  rewrite length_take. apply lookup_lt_Some in Hi. simpl. lia.
Qed.

Lemma count_below_upto l i x z :
  sorted_by compar l -> l !! i = Some x -> ~ compar x z < 0 ->
  (length (filter (fun y => (compar y z < 0)%Z) l) <= i)%nat.
Proof.
  intros Hs Hi Hx. rewrite <- (take_drop_middle l i x Hi) in Hs |- *.
  apply StronglySorted_app in Hs as (_ & _ & Hs).
  apply StronglySorted_cons in Hs as [Hall _].
  rewrite filter_app, length_app.
  rewrite (filter_none (fun y => compar y z < 0) (x :: drop (S i) l)).
  - pose proof (length_filter (fun y => compar y z < 0) (take i l)).
    rewrite length_take in *. simpl. lia.
  - constructor; [assumption|]. eapply Forall_impl; [exact Hall|].
    intros y Hy. now apply (not_below_le_trans x y z).
Qed.

(** Two sorted arrangements of the same elements agree position by
    position up to ties. *)
Lemma sorted_permutations_tied l1 l2 :
  sorted_by compar l1 -> sorted_by compar l2 -> l1 ≡ₚ l2 ->
  Forall2 (fun a b => compar a b = 0) l1 l2.
Proof.
  intros H1 H2 Hp. apply Forall2_same_length_lookup_2; [now apply Permutation_length|].
  intros i x y Hx Hy.
  assert (Hcount : forall z, length (filter (fun y => compar y z < 0) l1)
                             = length (filter (fun y => compar y z < 0) l2))
    by (intros z; now rewrite Hp).
  assert (Hxx : ~ compar x x < 0) by (pose proof (le_by_refl x); pose proof (compar_sign _ Hord x x); unfold le_by in *; lia).
  assert (Hyy : ~ compar y y < 0) by (pose proof (le_by_refl y); pose proof (compar_sign _ Hord y y); unfold le_by in *; lia).
  destruct (Z_lt_le_dec (compar x y) 0) as [Hlt|Hge].
  { pose proof (count_below_from l1 i x y H1 Hx Hlt).
    pose proof (count_below_upto l2 i y y H2 Hy Hyy). rewrite Hcount in *. lia. }
  destruct (Z_lt_le_dec (compar y x) 0) as [Hlt|Hge'].
  { pose proof (count_below_from l2 i y x H2 Hy Hlt).
    pose proof (count_below_upto l1 i x x H1 Hx Hxx). rewrite Hcount in *. lia. }
  pose proof (compar_sign _ Hord y x). lia.
Qed.

(** When the comparator ties no two distinct elements of the list, the
    sorted arrangement is unique. *)
Lemma sorted_permutations_equal l l1 l2 :
  (forall a b, a ∈ l -> b ∈ l -> compar a b = 0 -> a = b) ->
  sorted_by compar l1 -> sorted_by compar l2 -> l1 ≡ₚ l -> l2 ≡ₚ l -> l1 = l2.
Proof.
  intros Hanti H1 H2 Hp1 Hp2.
  apply (StronglySorted_unique_strong (le_by compar)); try assumption; [|now rewrite Hp1, Hp2].
  intros x1 x2 Hx1 Hx2 H12 H21. apply Hanti; [now rewrite <- Hp1 | now rewrite <- Hp2 |].
  unfold le_by in *. pose proof (compar_sign _ Hord x1 x2). lia.
Qed.

End Order.

(** ** The partitioner *)

Section Partition.

Context {A : Type}.
Variable compar : A -> A -> Z.
Implicit Types (w : world A) (pre suf lts ges rest : list A) (p x : A).

(** The loop invariant of the Lomuto scan: the range is cut into the cells
    known to be below the pivot, the cells known not to be, and the cells
    still to scan. *)
Lemma partition_loop_spec base high p : forall rest n pre lts ges suf w i j,
  mem w = pre ++ lts ++ ges ++ rest ++ p :: suf ->
  base + i = Z.of_nat (length pre + length lts) ->
  j = i + Z.of_nat (length ges) ->
  high = j + Z.of_nat (length rest) ->
  (length rest <= n)%nat ->
  0 <= i -> high < 2 ^ 64 ->
  Forall (fun x => compar x p < 0) lts ->
  Forall (fun x => ~ compar x p < 0) ges ->
  exists w' lts' ges',
    partition_loop n base high compar p i j w
    = Ok (Z.of_nat (length pre + length lts') - base) w'
    /\ mem w' = pre ++ lts' ++ ges' ++ p :: suf
    /\ Forall (fun x => compar x p < 0) lts'
    /\ Forall (fun x => ~ compar x p < 0) ges'
    /\ lts' ++ ges' ≡ₚ lts ++ ges ++ rest.
Proof.
  induction rest as [|x rest IH]; intros n pre lts ges suf w i j Hm Hi Hj Hh Hn H0 Hmax Hlt Hge.
  - exists w, lts, ges. simpl in Hh, Hm.
    split; [|split; [assumption|split; [assumption|split; [assumption|]]]].
    + destruct n; simpl; (destruct (Z.ltb_spec j high); [lia|]); unfold ret; f_equal; lia.
    + now rewrite app_nil_r.
  - destruct n as [|n]; [simpl in Hn; lia|]. simpl in Hn, Hh.
    cbn [partition_loop]. destruct (Z.ltb_spec j high); [|lia].
    assert (Hl : load (base + j) w = Ok x w).
    { apply (load_middle w (pre ++ lts ++ ges) x (rest ++ p :: suf)); [rewrite Hm; list_norm | len]. }
    rewrite (bind_Ok _ _ _ _ _ Hl), (bind_Ok _ _ _ _ _ (call_Ok _ _ _ _)).
    rewrite !add_small by len.
    destruct (Z.ltb_spec (compar x p) 0) as [Hc|Hc].
    + destruct ges as [|g gs].
      * assert (Hs : swap (base + i) (base + j) (log w (Compar x p))
                     = Ok tt (set_mem (log w (Compar x p)) (mem (log w (Compar x p))))).
        { simpl in Hj. replace j with i by lia.
          apply (swap_same _ (pre ++ lts) x (rest ++ p :: suf));
            [simpl; rewrite Hm; list_norm | len]. }
        rewrite (bind_Ok _ _ _ _ _ Hs).
        destruct (IH n pre (lts ++ [x]) [] suf
                    (set_mem (log w (Compar x p)) (mem (log w (Compar x p)))) (i + 1) (j + 1))
          as (w' & lts' & ges' & Hr & Hm' & Hlt' & Hge' & Hp);
          [ simpl; rewrite Hm; list_norm | simpl in *; len .. | | | ].
        { apply Forall_app; split; [assumption|]. now repeat constructor. }
        { constructor. }
        exists w', lts', ges'. rewrite Hr.
        repeat split; try assumption. rewrite Hp. solve_Permutation.
      * assert (Hs : swap (base + i) (base + j) (log w (Compar x p))
                     = Ok tt (set_mem (log w (Compar x p))
                                ((pre ++ lts) ++ x :: gs ++ g :: rest ++ p :: suf))).
        { apply (swap_apart _ (pre ++ lts) g gs x (rest ++ p :: suf));
            [simpl; rewrite Hm; list_norm | len | simpl in Hj; len]. }
        rewrite (bind_Ok _ _ _ _ _ Hs).
        destruct (IH n pre (lts ++ [x]) (gs ++ [g]) suf
                    (set_mem (log w (Compar x p))
                       ((pre ++ lts) ++ x :: gs ++ g :: rest ++ p :: suf)) (i + 1) (j + 1))
          as (w' & lts' & ges' & Hr & Hm' & Hlt' & Hge' & Hp);
          [ simpl; list_norm | simpl in *; len .. | | | ].
        { apply Forall_app; split; [assumption|]. now repeat constructor. }
        { inversion Hge; subst. apply Forall_app; split; [assumption|]. now repeat constructor. }
        exists w', lts', ges'. rewrite Hr.
        repeat split; try assumption. rewrite Hp. solve_Permutation.
    + destruct (IH n pre lts (ges ++ [x]) suf (log w (Compar x p)) i (j + 1))
        as (w' & lts' & ges' & Hr & Hm' & Hlt' & Hge' & Hp);
        [ simpl; rewrite Hm; list_norm | simpl in *; len .. | assumption | | ].
      { apply Forall_app; split; [assumption|]. repeat constructor. lia. }
      exists w', lts', ges'. rewrite Hr.
      repeat split; try assumption. rewrite Hp. solve_Permutation.
Qed.

Lemma partition_spec base low high w pre mid p suf :
  mem w = pre ++ mid ++ p :: suf ->
  base + low = Z.of_nat (length pre) ->
  high = low + Z.of_nat (length mid) ->
  0 <= low -> high < 2 ^ 64 ->
  exists w' lts ges,
    partition base low high compar w = Ok (low + Z.of_nat (length lts)) w'
    /\ mem w' = pre ++ lts ++ p :: ges ++ suf
    /\ Forall (fun x => compar x p < 0) lts
    /\ Forall (fun x => ~ compar x p < 0) ges
    /\ lts ++ ges ≡ₚ mid.
Proof.
  intros Hm Hlow Hhigh H0 Hmax. unfold partition.
  assert (Hl : load (base + high) w = Ok p w).
  { apply (load_middle w (pre ++ mid) p suf); [rewrite Hm; list_norm | len]. }
  rewrite (bind_Ok _ _ _ _ _ Hl).
  destruct (partition_loop_spec base high p mid (Z.to_nat (high - low)) pre [] [] suf w low low)
    as (w1 & lts & ges & Hr & Hm1 & Hlt & Hge & Hp);
    [ assumption | simpl; lia .. | constructor | constructor | ].
  simpl in Hp. rewrite (bind_Ok _ _ _ _ _ Hr).
  apply Permutation_length in Hp as Hlen. rewrite length_app in Hlen.
  replace (Z.of_nat (length pre + length lts) - base) with (low + Z.of_nat (length lts)) by lia.
  destruct ges as [|g gs].
  - assert (Hs : swap (base + (low + Z.of_nat (length lts))) (base + high) w1
                 = Ok tt (set_mem w1 (mem w1))).
    { replace high with (low + Z.of_nat (length lts)) by (simpl in Hlen; lia).
      apply (swap_same _ (pre ++ lts) p suf); [rewrite Hm1; list_norm | len]. }
    rewrite (bind_Ok _ _ _ _ _ Hs).
    exists (set_mem w1 (mem w1)), lts, []. repeat split; try assumption.
  - assert (Hs : swap (base + (low + Z.of_nat (length lts))) (base + high) w1
                 = Ok tt (set_mem w1 ((pre ++ lts) ++ p :: gs ++ g :: suf))).
    { apply (swap_apart _ (pre ++ lts) g gs p suf);
        [rewrite Hm1; list_norm | len | simpl in Hlen; len]. }
    rewrite (bind_Ok _ _ _ _ _ Hs).
    exists (set_mem w1 ((pre ++ lts) ++ p :: gs ++ g :: suf)), lts, (gs ++ [g]).
    split; [reflexivity|]. split; [simpl; list_norm|]. split; [assumption|].
    inversion Hge; subst. split.
    + apply Forall_app; split; [assumption|]. now repeat constructor.
    + rewrite <- Hp. solve_Permutation.
Qed.

End Partition.

(** ** The quicksort driver *)

Section Quicksort.

Context {A : Type}.
Variable E : environment.
Variable compar : A -> A -> Z.
Implicit Types (w : world A) (pre suf seg : list A) (p x : A).

(** Exchanging two cells of a segment of the array. *)
Lemma swap_in_segment w pre seg suf a b :
  mem w = pre ++ seg ++ suf ->
  Z.of_nat (length pre) <= a < Z.of_nat (length pre + length seg) ->
  Z.of_nat (length pre) <= b < Z.of_nat (length pre + length seg) ->
  exists seg', swap a b w = Ok tt (set_mem w (pre ++ seg' ++ suf))
               /\ seg' ≡ₚ seg.
Proof.
  intros Hm Ha Hb.
  destruct (lookup_lt_is_Some_2 seg (Z.to_nat a - length pre)) as [x Hx]; [lia|].
  destruct (lookup_lt_is_Some_2 seg (Z.to_nat b - length pre)) as [y Hy]; [lia|].
  exists (<[(Z.to_nat b - length pre)%nat := x]> (<[(Z.to_nat a - length pre)%nat := y]> seg)).
  split; [|now apply Permutation_insert_swap].
  rewrite (swap_at w a b x y); try lia.
  - f_equal. f_equal. rewrite Hm.
    rewrite (insert_app_r_alt pre _ (Z.to_nat a)) by lia.
    rewrite (insert_app_r_alt pre _ (Z.to_nat b)) by lia.
    f_equal. apply lookup_lt_Some in Hx as Hxl. apply lookup_lt_Some in Hy as Hyl.
    rewrite insert_app_l by lia. rewrite insert_app_l by (rewrite length_insert; lia).
    reflexivity.
  - rewrite Hm, lookup_app_r by lia. rewrite lookup_app_l by (apply lookup_lt_Some in Hx; lia).
    assumption.
  - rewrite Hm, lookup_app_r by lia. rewrite lookup_app_l by (apply lookup_lt_Some in Hy; lia).
    assumption.
Qed.

Hypothesis Hrand : rand_in_range E.

Lemma choose_random_pivot_spec base low high w pre seg suf :
  mem w = pre ++ seg ++ suf ->
  base + low = Z.of_nat (length pre) ->
  high + 1 = low + Z.of_nat (length seg) ->
  0 <= low <= high -> high + 1 < 2 ^ 64 ->
  quick_sort_post (fun _ => True) pre seg suf (choose_random_pivot E base low high w).
Proof.
  intros Hm Hlow Hhigh H0 Hmax. unfold choose_random_pivot.
  unfold bind at 1. unfold rand at 1.
  rewrite sub_small, add_small by lia.
  pose proof (Hrand (rng_seed w) (rng_pos w)) as Hrv.
  set (r := prng E (rng_seed w) (rng_pos w)) in *.
  set (w1 := World (mem w) (rng_seed w) (S (rng_pos w)) (allocs w) (trace w)).
  unfold bind at 1, int_rem.
  destruct (Z.eqb_spec (C.to_int (high - low + 1)) 0) as [Hz|Hnz].
  { simpl. apply to_int_zero in Hz; lia. }
  pose proof (rem_to_int_bound r (high - low + 1) ltac:(lia) ltac:(lia) Hnz) as Hb.
  destruct (Z.eqb_spec r C.INT_MIN) as [Hz|_].
  { exfalso. unfold C.INT_MIN, C.INT_MAX in *. lia. }
  cbn [andb]. unfold ret.
  rewrite to_size_t_small, add_small by lia.
  destruct (swap_in_segment w1 pre seg suf
              (base + (low + Z.rem r (C.to_int (high - low + 1)))) (base + high))
    as (seg' & Hs & Hp); [assumption | lia | lia |].
  rewrite Hs. simpl. now exists seg'.
Qed.

Lemma quick_sort_rec_spec : forall fuel base low high w pre seg suf,
  mem w = pre ++ seg ++ suf ->
  base + low = Z.of_nat (length pre) ->
  high + 1 = low + Z.of_nat (length seg) ->
  0 <= low -> high + 1 < 2 ^ 64 ->
  (length seg < fuel)%nat ->
  quick_sort_post (fun seg' => total_preorder compar -> sorted_by compar seg')
    pre seg suf (quick_sort_rec E fuel base low high compar w).
Proof.
  induction fuel as [|fuel IH]; intros base low high w pre seg suf Hm Hlow Hhigh H0 Hmax Hfuel;
    [lia|].
  cbn [quick_sort_rec]. unfold bind at 1, emit at 1.
  destruct (Z.ltb_spec low high) as [Hlt|Hge].
  - pose proof (choose_random_pivot_spec base low high (log w (Enter_quick_sort_rec low high))
                  pre seg suf Hm Hlow Hhigh ltac:(lia) Hmax) as Hc.
    unfold bind at 1.
    destruct (choose_random_pivot E base low high (log w (Enter_quick_sort_rec low high)))
      as [[] w1| | |]; simpl in Hc; try assumption.
    destruct Hc as (seg1 & Hm1 & Hp1 & _).
    apply Permutation_length in Hp1 as Hlen1.
    destruct seg1 as [|p mid _] using rev_ind; [simpl in Hlen1; lia|].
    rewrite length_app in Hlen1. simpl in Hlen1.
    destruct (partition_spec compar base low high w1 pre mid p suf)
      as (w2 & lts & ges & Hpart & Hm2 & Hl & Hg & Hp2); try lia.
    { rewrite Hm1. list_norm. }
    rewrite (bind_Ok _ _ _ _ _ Hpart).
    apply Permutation_length in Hp2 as Hlen2. rewrite length_app in Hlen2.
    assert (Hleft : quick_sort_post (fun seg' => total_preorder compar -> sorted_by compar seg')
                      pre lts (p :: ges ++ suf)
                      ((if 0 <? low + Z.of_nat (length lts)
                        then quick_sort_rec E fuel base low
                               (C.sub (low + Z.of_nat (length lts)) 1) compar
                        else ret tt) w2)).
    { destruct (Z.ltb_spec 0 (low + Z.of_nat (length lts))).
      - rewrite sub_small by lia. apply IH; try assumption; lia.
      - simpl. exists lts. destruct lts; [|simpl in *; lia].
        repeat split; try assumption; try reflexivity. constructor. }
    unfold bind at 1.
    destruct ((if 0 <? low + Z.of_nat (length lts)
               then quick_sort_rec E fuel base low (C.sub (low + Z.of_nat (length lts)) 1) compar
               else ret tt) w2) as [[] w3| | |]; simpl in Hleft |- *; try lia; try contradiction.
    destruct Hleft as (lts' & Hm3 & Hp3 & Hs3).
    rewrite add_small by lia.
    apply Permutation_length in Hp3 as Hlen3.
    pose proof (IH base (low + Z.of_nat (length lts) + 1) high w3 (pre ++ lts' ++ [p]) ges suf)
      as Hright.
    destruct (quick_sort_rec E fuel base (low + Z.of_nat (length lts) + 1) high compar w3)
      as [[] w4| | |]; simpl in Hright |- *;
      try (exfalso; apply Hright; try len; rewrite Hm3; list_norm).
    + destruct Hright as (ges' & Hm4 & Hp4 & Hs4); [rewrite Hm3; list_norm | len ..|].
      exists (lts' ++ p :: ges'). split; [rewrite Hm4; list_norm|].
      split.
      * rewrite <- Hp1, Hp3, Hp4, <- Hp2. solve_Permutation.
      * intros Hord. apply sorted_around_pivot; auto.
        -- now rewrite Hp3.
        -- now rewrite Hp4.
    + assert (2 ^ 32 <= Z.of_nat (length ges)); [|lia].
      apply Hright; [rewrite Hm3; list_norm | len ..].
  - simpl. exists seg.
    repeat split; try assumption; try reflexivity.
    intros _. destruct seg as [|x [|y seg]]; [constructor| |simpl in *; lia].
    repeat constructor.
Qed.

End Quicksort.

(** ** The merge primitive *)

Section Merge.

Context {A : Type}.
Variable E : environment.
Variable compar : A -> A -> Z.
Implicit Types (w : world A) (pre suf left right temp : list A) (x y : A).

Lemma temp_store_next cap temp k x w :
  k = Z.of_nat (length temp) -> k < cap ->
  temp_store cap temp k x w = Ok (temp ++ [x]) w.
Proof.
  intros -> Hk. unfold temp_store.
  destruct (Z.leb_spec 0 (Z.of_nat (length temp))); [|lia].
  destruct (Z.ltb_spec (Z.of_nat (length temp)) cap); [|lia].
  simpl. now rewrite Z.eqb_refl.
Qed.

Lemma length_merge_lists left right :
  length (merge_lists compar left right) = (length left + length right)%nat.
Proof. now rewrite merge_lists_perm, length_app. Qed.

(** The first loop stops when one run is exhausted; what it has written,
    followed by the merge of what is left, is the merge of the two runs. *)
Lemma merge_loop_spec base nitems middle cap pre left right suf :
  forall n lr rr ld rd temp w i j k,
  mem w = pre ++ left ++ right ++ suf ->
  left = ld ++ lr -> right = rd ++ rr ->
  base = Z.of_nat (length pre) ->
  middle = Z.of_nat (length left) ->
  nitems = Z.of_nat (length left + length right) ->
  i = Z.of_nat (length ld) -> j = middle + Z.of_nat (length rd) ->
  k = Z.of_nat (length temp) ->
  k + Z.of_nat (length lr + length rr) <= cap ->
  nitems < 2 ^ 64 -> cap < 2 ^ 64 ->
  (length lr + length rr <= n)%nat ->
  exists w' ld' lr' rd' rr' temp',
    merge_loop n base nitems middle compar cap i j k temp w
    = Ok (Z.of_nat (length ld'), middle + Z.of_nat (length rd'),
          Z.of_nat (length temp'), temp') w'
    /\ mem w' = mem w /\ allocs w' = allocs w
    /\ left = ld' ++ lr' /\ right = rd' ++ rr'
    /\ (lr' = [] \/ rr' = [])
    /\ temp' ++ merge_lists compar lr' rr' = temp ++ merge_lists compar lr rr.
Proof.
  induction n as [|n IH]; intros lr rr ld rd temp w i j k Hm Hl Hr Hb Hmid Hn Hi Hj Hk Hcap Hmax Hcmax Hfuel.
  - destruct lr; [|simpl in Hfuel; lia]. destruct rr; [|simpl in Hfuel; lia].
    exists w, ld, [], rd, [], temp. subst left. rewrite app_nil_r in *.
    simpl. destruct (Z.ltb_spec i middle); [lia|]. simpl. unfold ret. subst.
    repeat split; rewrite ?app_nil_r; auto.
  - destruct lr as [|x lr].
    { exists w, ld, [], rd, rr, temp. subst left. rewrite app_nil_r in *.
      cbn [merge_loop]. destruct (Z.ltb_spec i middle); [lia|]. simpl. unfold ret. subst.
      repeat split; rewrite ?app_nil_r; auto. }
    destruct rr as [|y rr].
    { exists w, ld, (x :: lr), rd, [], temp. subst right. rewrite app_nil_r in *.
      cbn [merge_loop]. destruct (Z.ltb_spec j nitems); [lia|].
      rewrite andb_false_r. unfold ret. subst.
      repeat split; rewrite ?app_nil_r; auto. }
    cbn [merge_loop].
    destruct (Z.ltb_spec i middle); [|subst; len].
    destruct (Z.ltb_spec j nitems); [|subst; len]. cbn [andb].
    assert (Hli : load (base + i) w = Ok x w).
    { apply (load_middle w (pre ++ ld) x (lr ++ right ++ suf)); [rewrite Hm, Hl; list_norm | len]. }
    assert (Hlj : load (base + j) w = Ok y w).
    { apply (load_middle w (pre ++ left ++ rd) y (rr ++ suf)); [rewrite Hm, Hr; list_norm | len]. }
    rewrite (bind_Ok _ _ _ _ _ Hli), (bind_Ok _ _ _ _ _ Hlj), (bind_Ok _ _ _ _ _ (call_Ok _ _ _ _)).
    rewrite merge_lists_cons.
    destruct (Z.leb_spec (compar x y) 0) as [Hc|Hc].
    + rewrite (bind_Ok _ _ _ _ _ (temp_store_next cap temp k x _ Hk ltac:(simpl in Hcap; lia))).
      rewrite !add_small by (simpl in Hcap; subst; len).
      destruct (IH lr (y :: rr) (ld ++ [x]) rd (temp ++ [x]) (log w (Compar x y)) (i + 1) j (k + 1))
        as (w' & ld' & lr' & rd' & rr' & temp' & Hrun & Hm' & Ha' & Hl' & Hr' & Hor & Ht);
        [ assumption | rewrite Hl; list_norm | assumption | assumption | assumption
        | assumption | len | assumption | len | simpl in *; len | assumption | assumption
        | simpl in *; lia | ].
      exists w', ld', lr', rd', rr', temp'. rewrite Hrun.
      repeat split; try assumption. rewrite Ht. list_norm.
    + rewrite (bind_Ok _ _ _ _ _ (temp_store_next cap temp k y _ Hk ltac:(simpl in Hcap; lia))).
      rewrite !add_small by (simpl in Hcap; subst; len).
      destruct (IH (x :: lr) rr ld (rd ++ [y]) (temp ++ [y]) (log w (Compar x y)) i (j + 1) (k + 1))
        as (w' & ld' & lr' & rd' & rr' & temp' & Hrun & Hm' & Ha' & Hl' & Hr' & Hor & Ht);
        [ assumption | assumption | rewrite Hr; list_norm | assumption | assumption
        | assumption | assumption | len | len | simpl in *; len | assumption | assumption
        | simpl in *; lia | ].
      exists w', ld', lr', rd', rr', temp'. rewrite Hrun.
      repeat split; try assumption. rewrite Ht. list_norm.
Qed.

Lemma drain_loop_spec base bound cap : forall todo n l1 l2 w temp c k,
  mem w = l1 ++ todo ++ l2 ->
  base + c = Z.of_nat (length l1) ->
  bound = c + Z.of_nat (length todo) ->
  k = Z.of_nat (length temp) ->
  k + Z.of_nat (length todo) <= cap ->
  0 <= c -> bound < 2 ^ 64 -> cap < 2 ^ 64 ->
  (length todo <= n)%nat ->
  drain_loop n base bound cap c k temp w
  = Ok (bound, k + Z.of_nat (length todo), temp ++ todo) w.
Proof.
  induction todo as [|x todo IH]; intros n l1 l2 w temp c k Hm Hc Hb Hk Hcap H0 Hmax Hcmax Hn.
  - simpl in *. rewrite app_nil_r.
    destruct n; simpl; (destruct (Z.ltb_spec c bound); [lia|]); unfold ret;
      repeat f_equal; lia.
  - destruct n as [|n]; [simpl in Hn; lia|]. simpl in Hb, Hcap, Hn.
    cbn [drain_loop]. destruct (Z.ltb_spec c bound); [|lia].
    assert (Hl : load (base + c) w = Ok x w).
    { apply (load_middle w l1 x (todo ++ l2)); [rewrite Hm; list_norm | lia]. }
    rewrite (bind_Ok _ _ _ _ _ Hl).
    rewrite (bind_Ok _ _ _ _ _ (temp_store_next cap temp k x _ Hk ltac:(lia))).
    rewrite !add_small by lia.
    rewrite (IH n (l1 ++ [x]) l2 w (temp ++ [x]) (c + 1) (k + 1));
      [ | rewrite Hm; list_norm | len .. ].
    replace (k + 1 + Z.of_nat (length todo)) with (k + Z.of_nat (length (x :: todo)))
      by (simpl length; lia).
    now rewrite <- app_assoc.
Qed.

Lemma memcpy_spec base nitems temp cap w pre seg suf :
  mem w = pre ++ seg ++ suf ->
  base = Z.of_nat (length pre) ->
  nitems = Z.of_nat (length seg) ->
  length temp = length seg ->
  nitems <= cap ->
  nitems * C.sizeof_ptr < 2 ^ 64 ->
  memcpy base temp cap (nitems * C.sizeof_ptr) w = Ok tt (set_mem w (pre ++ temp ++ suf)).
Proof.
  intros Hm Hb Hn Hl Hcap Hfit. unfold memcpy.
  rewrite Z.div_mul by (unfold C.sizeof_ptr; lia).
  rewrite Hm. repeat rewrite length_app.
  destruct (Z.leb_spec 0 base); [|lia].
  destruct (Z.leb_spec (base + nitems) (Z.of_nat (length pre + (length seg + length suf)))); [|lia].
  destruct (Z.leb_spec nitems (Z.of_nat (length temp))); [|lia].
  destruct (Z.leb_spec nitems cap); [|lia]. simpl.
  f_equal. f_equal.
  rewrite take_app_length' by lia. rewrite take_ge by lia.
  rewrite (app_assoc pre seg suf). rewrite drop_app_length' by len.
  reflexivity.
Qed.

(** [merge] when the allocation succeeds: the range holds the merge of its
    two halves, whatever they contained. *)
Lemma merge_spec base nitems middle w pre left right suf :
  heap_ok E (allocs w) = true ->
  mem w = pre ++ left ++ right ++ suf ->
  base = Z.of_nat (length pre) ->
  middle = Z.of_nat (length left) ->
  nitems = Z.of_nat (length left + length right) ->
  nitems * C.sizeof_ptr < 2 ^ 64 ->
  exists w',
    merge E base nitems middle compar w = Ok tt w'
    /\ mem w' = pre ++ merge_lists compar left right ++ suf
    /\ allocs w' = S (allocs w).
Proof.
  intros Hheap Hm Hb Hmid Hn Hfit. unfold merge.
  unfold bind at 1, malloc at 1. rewrite Hheap.
  rewrite mul_small by (unfold C.sizeof_ptr in *; lia).
  rewrite Z.div_mul by (unfold C.sizeof_ptr; lia).
  set (w1 := World (mem w) (rng_seed w) (rng_pos w) (S (allocs w)) (trace w)).
  unfold C.sizeof_ptr in Hfit.
  destruct (merge_loop_spec base nitems middle nitems pre left right suf
              (Z.to_nat nitems) left right [] [] [] w1 0 middle 0)
    as (w2 & ld & lr & rd & rr & temp & Hrun & Hm2 & Ha2 & Hl & Hr & Hor & Ht);
    try assumption; try reflexivity; try (simpl; lia).
  rewrite (bind_Ok _ _ _ _ _ Hrun). simpl in Ht, Hm2.
  assert (Hlen : (length temp + (length lr + length rr) = length left + length right)%nat).
  { apply (f_equal length) in Ht. rewrite length_app, !length_merge_lists in Ht. lia. }
  assert (Hd1 : drain_loop (Z.to_nat nitems) base middle nitems
                  (Z.of_nat (length ld)) (Z.of_nat (length temp)) temp w2
                = Ok (middle, Z.of_nat (length temp) + Z.of_nat (length lr), temp ++ lr) w2).
  { apply (drain_loop_spec base middle nitems lr (Z.to_nat nitems) (pre ++ ld) (right ++ suf) w2);
      [ rewrite Hm2, Hm, Hl; list_norm | subst; len .. ]. }
  rewrite (bind_Ok _ _ _ _ _ Hd1).
  assert (Hd2 : drain_loop (Z.to_nat nitems) base nitems nitems
                  (middle + Z.of_nat (length rd))
                  (Z.of_nat (length temp) + Z.of_nat (length lr)) (temp ++ lr) w2
                = Ok (nitems, Z.of_nat (length temp) + Z.of_nat (length lr) + Z.of_nat (length rr),
                      (temp ++ lr) ++ rr) w2).
  { apply (drain_loop_spec base nitems nitems rr (Z.to_nat nitems) (pre ++ left ++ rd) suf w2);
      [ rewrite Hm2, Hm, Hr; list_norm | subst; len .. ]. }
  rewrite (bind_Ok _ _ _ _ _ Hd2).
  rewrite (memcpy_spec base nitems _ nitems w2 pre (left ++ right) suf);
    [ | rewrite Hm2, Hm; list_norm | subst; unfold C.sizeof_ptr; len .. ].
  exists (set_mem w2 (pre ++ ((temp ++ lr) ++ rr) ++ suf)).
  split; [reflexivity|]. split; [|simpl; now rewrite Ha2].
  simpl. do 2 f_equal. rewrite <- Ht.
  destruct Hor as [-> | ->].
  - now rewrite merge_lists_nil_l, app_nil_r.
  - now rewrite merge_lists_nil_r, <- app_assoc, app_nil_r.
Qed.

(** [merge] when the allocation fails: a diagnostic, then [exit], with the
    array as it was. *)
Lemma merge_out_of_memory base nitems middle w :
  heap_ok E (allocs w) = false ->
  merge E base nitems middle compar w
  = Exit C.EXIT_FAILURE
      (log (World (mem w) (rng_seed w) (rng_pos w) (S (allocs w)) (trace w))
           (Stderr ("merge: memory allocation failed" ++ newline))).
Proof. intros Hheap. unfold merge, bind, malloc. now rewrite Hheap. Qed.

End Merge.

(** ** The mergesort driver *)

Section Mergesort.

Context {A : Type}.
Variable E : environment.
Variable compar : A -> A -> Z.
Implicit Types (w : world A) (pre suf seg : list A).

Lemma half_bounds n : 1 < n -> 1 <= n / 2 < n.
Proof.
  intros Hn. split.
  - apply Z.div_le_lower_bound; lia.
  - apply Z.div_lt_upper_bound; lia.
Qed.

Lemma stable_refl seg : stable compar seg seg.
Proof. intros x. reflexivity. Qed.

Lemma merge_sort_rec_spec : forall fuel base nitems w pre seg suf,
  mem w = pre ++ seg ++ suf ->
  base = Z.of_nat (length pre) ->
  nitems = Z.of_nat (length seg) ->
  nitems * C.sizeof_ptr < 2 ^ 64 ->
  (length seg < fuel)%nat ->
  merge_sort_post E compar w pre seg suf (merge_sort_rec E fuel base nitems compar w).
Proof.
  induction fuel as [|fuel IH]; intros base nitems w pre seg suf Hm Hb Hn Hfit Hfuel; [lia|].
  cbn [merge_sort_rec]. destruct (Z.ltb_spec 1 nitems) as [Hbig|Hsmall].
  - pose proof (half_bounds nitems Hbig) as Hhalf.
    set (m := Z.to_nat (nitems / 2)).
    assert (Hsplit : seg = take m seg ++ drop m seg) by now rewrite take_drop.
    assert (Hlt : length (take m seg) = m) by (rewrite length_take; lia).
    assert (Hld : (length (drop m seg) = length seg - m)%nat) by now rewrite length_drop.
    unfold C.sizeof_ptr in Hfit.
    pose proof (IH base (nitems / 2) w pre (take m seg) (drop m seg ++ suf)) as IH1.
    unfold bind at 1.
    destruct (merge_sort_rec E fuel base (nitems / 2) compar w) as [[] w1|st w1| |];
      simpl in IH1; try (exfalso; apply IH1; try (unfold C.sizeof_ptr; lia);
                         rewrite Hm, Hsplit at 1; list_norm).
    + destruct IH1 as (left' & Hm1 & Hp1 & Hs1 & Ha1 & Hh1);
        [ rewrite Hm; rewrite Hsplit at 1; list_norm | lia | lia | unfold C.sizeof_ptr; lia | lia | ].
      apply Permutation_length in Hp1 as Hlen1.
      rewrite sub_small by lia.
      pose proof (IH (base + nitems / 2) (nitems - nitems / 2) w1 (pre ++ left')
                    (drop m seg) suf) as IH2.
      unfold bind at 1.
      destruct (merge_sort_rec E fuel (base + nitems / 2) (nitems - nitems / 2) compar w1)
        as [[] w2|st w2| |];
        simpl in IH2; try (exfalso; apply IH2; try (unfold C.sizeof_ptr; len);
                           rewrite Hm1; list_norm).
      * destruct IH2 as (right' & Hm2 & Hp2 & Hs2 & Ha2 & Hh2);
          [ rewrite Hm1; list_norm | len | len | unfold C.sizeof_ptr; lia | lia | ].
        apply Permutation_length in Hp2 as Hlen2.
        destruct (heap_ok E (allocs w2)) eqn:Hheap.
        -- destruct (merge_spec E compar base nitems (nitems / 2) w2 pre left' right' suf)
             as (w3 & Hrun & Hm3 & Ha3);
             [ assumption | rewrite Hm2; list_norm | lia | lia | lia | unfold C.sizeof_ptr; lia | ].
           rewrite Hrun. simpl. exists (merge_lists compar left' right').
           split; [assumption|]. split.
           { rewrite merge_lists_perm, Hp1, Hp2. now rewrite take_drop. }
           split.
           { intros Hord. destruct (Hs1 Hord) as [Hso1 Hst1]. destruct (Hs2 Hord) as [Hso2 Hst2].
             split; [now apply merge_lists_sorted|].
             intros x. rewrite merge_lists_stable by assumption.
             rewrite Hst1, Hst2, <- filter_app. now rewrite take_drop. }
           split; [lia|].
           intros n Hnr. destruct (Nat.lt_ge_cases n (allocs w1)); [apply Hh1; lia|].
           destruct (Nat.lt_ge_cases n (allocs w2)); [apply Hh2; lia|].
           replace n with (allocs w2) by lia. assumption.
        -- rewrite merge_out_of_memory by assumption. simpl.
           exists (left' ++ right'). split; [reflexivity|].
           split; [rewrite Hm2; list_norm|].
           split; [rewrite Hp1, Hp2; now rewrite take_drop|].
           split; [lia|]. split; [assumption|]. now rewrite last_snoc.
      * destruct IH2 as (right' & Hst & Hm2 & Hp2 & Ha2 & Hh2 & Ht2);
          [ rewrite Hm1; list_norm | len | len | unfold C.sizeof_ptr; lia | lia | ].
        exists (left' ++ right'). split; [assumption|].
        split; [rewrite Hm2; list_norm|].
        split; [rewrite Hp1, Hp2; now rewrite take_drop|].
        split; [lia|]. split; assumption.
    + destruct IH1 as (left' & Hst & Hm1 & Hp1 & Ha1 & Hh1 & Ht1);
        [ rewrite Hm; rewrite Hsplit at 1; list_norm | lia | lia | unfold C.sizeof_ptr; lia | lia | ].
      exists (left' ++ drop m seg). split; [assumption|].
      split; [rewrite Hm1; list_norm|].
      split; [rewrite Hp1; now rewrite take_drop|].
      split; [assumption|]. split; assumption.
  - simpl. exists seg. split; [assumption|]. split; [reflexivity|].
    split; [|split; [lia|intros n Hnr; lia]].
    intros _. split; [|apply stable_refl].
    destruct seg as [|x [|y seg]]; [constructor| |simpl in *; lia].
    repeat constructor.
Qed.

End Mergesort.

(** ** What the quicksort driver leaves in the trace *)

Section Traces.

Context {A : Type}.
Variable E : environment.
Variable compar : A -> A -> Z.
Implicit Types (w : world A).

Lemma swap_trace a b w w' : swap a b w = Ok tt w' -> trace w' = trace w.
Proof.
  unfold swap, bind, load, store. intros H.
  destruct (a <? 0); [discriminate|]. destruct (mem w !! Z.to_nat a); [|discriminate].
  destruct (b <? 0); [discriminate|]. destruct (mem w !! Z.to_nat b); [|discriminate].
  destruct (_ && _); [|discriminate]. destruct (_ && _); [|discriminate].
  now injection H as <-.
Qed.

Lemma choose_random_pivot_trace base low high w w' :
  choose_random_pivot E base low high w = Ok tt w' -> trace w' = trace w.
Proof.
  unfold choose_random_pivot. unfold bind at 1, rand at 1. unfold bind at 1.
  unfold int_rem, fault, ret. intros H.
  destruct (_ =? 0); [discriminate|]. destruct (_ && _); [discriminate|].
  now apply swap_trace in H.
Qed.

Lemma partition_loop_trace base high pivot : forall n i j w r w',
  partition_loop n base high compar pivot i j w = Ok r w' ->
  trace w `prefix_of` trace w'.
Proof.
  induction n as [|n IH]; intros i j w r w' H; cbn [partition_loop] in H.
  - destruct (j <? high); [discriminate|]. injection H as <- <-. reflexivity.
  - destruct (j <? high); [|injection H as <- <-; reflexivity].
    unfold bind at 1, load at 1 in H.
    destruct (base + j <? 0); [discriminate|].
    destruct (mem w !! Z.to_nat (base + j)) as [bj|]; [|discriminate].
    rewrite (bind_Ok _ _ _ _ _ (call_Ok _ _ _ _)) in H.
    assert (Hlog : trace w `prefix_of` trace (log w (Compar bj pivot)))
      by (now apply prefix_app_r).
    destruct (compar bj pivot <? 0).
    + unfold bind at 1 in H.
      destruct (swap (base + i) (base + j) (log w (Compar bj pivot))) as [[] w1| | |] eqn:Hs;
        try discriminate.
      apply swap_trace in Hs. apply IH in H. rewrite Hs in H. now transitivity (trace w ++ [Compar bj pivot]).
    + apply IH in H. now transitivity (trace (log w (Compar bj pivot))).
Qed.

Lemma partition_trace base low high w r w' :
  partition base low high compar w = Ok r w' -> trace w `prefix_of` trace w'.
Proof.
  unfold partition. unfold bind at 1, load at 1. intros H.
  destruct (base + high <? 0); [discriminate|].
  destruct (mem w !! Z.to_nat (base + high)) as [pivot|]; [|discriminate].
  unfold bind at 1 in H.
  destruct (partition_loop _ base high compar pivot low low w) as [i w1| | |] eqn:Hl;
    try discriminate.
  apply partition_loop_trace in Hl. unfold bind at 1 in H.
  destruct (swap (base + i) (base + high) w1) as [[] w2| | |] eqn:Hs; try discriminate.
  apply swap_trace in Hs. injection H as <- <-. now rewrite Hs.
Qed.

(** A call of the driver that returns has recorded its entry first. *)
Lemma quick_sort_rec_trace : forall fuel base low high w w',
  quick_sort_rec E fuel base low high compar w = Ok tt w' ->
  (trace w ++ [Enter_quick_sort_rec low high]) `prefix_of` trace w'.
Proof.
  induction fuel as [|fuel IH]; intros base low high w w' H; [discriminate|].
  cbn [quick_sort_rec] in H. unfold bind at 1, emit at 1 in H.
  destruct (low <? high); [|injection H as <-; reflexivity].
  unfold bind at 1 in H.
  destruct (choose_random_pivot E base low high _) as [[] w1| | |] eqn:Hc; try discriminate.
  apply choose_random_pivot_trace in Hc. simpl in Hc.
  unfold bind at 1 in H.
  destruct (partition base low high compar w1) as [pi w2| | |] eqn:Hp; try discriminate.
  apply partition_trace in Hp. rewrite Hc in Hp.
  unfold bind at 1 in H.
  destruct ((if 0 <? pi then quick_sort_rec E fuel base low (C.sub pi 1) compar else ret tt) w2)
    as [[] w3| | |] eqn:Hleft; try discriminate.
  assert (trace w2 `prefix_of` trace w3).
  { destruct (0 <? pi).
    - apply IH in Hleft. etransitivity; [|exact Hleft]. now apply prefix_app_r.
    - injection Hleft as <-. reflexivity. }
  apply IH in H. etransitivity; [exact Hp|]. etransitivity; [eassumption|].
  etransitivity; [|exact H]. now apply prefix_app_r.
Qed.

(** The bounds of the index [partition] returns follow from the scan alone. *)
Lemma partition_loop_bounds base high pivot : forall n i j w r w',
  partition_loop n base high compar pivot i j w = Ok r w' ->
  0 <= i <= j -> j <= high -> high < 2 ^ 64 ->
  i <= r <= i + (high - j).
Proof.
  induction n as [|n IH]; intros i j w r w' H Hi Hj Hmax; cbn [partition_loop] in H.
  - destruct (Z.ltb_spec j high); [discriminate|]. injection H as <- <-. lia.
  - destruct (Z.ltb_spec j high); [|injection H as <- <-; lia].
    unfold bind at 1, load at 1 in H.
    destruct (base + j <? 0); [discriminate|].
    destruct (mem w !! Z.to_nat (base + j)) as [bj|]; [|discriminate].
    rewrite (bind_Ok _ _ _ _ _ (call_Ok _ _ _ _)) in H.
    rewrite !add_small in H by lia.
    destruct (compar bj pivot <? 0).
    + unfold bind at 1 in H.
      destruct (swap (base + i) (base + j) _) as [[] w1| | |]; try discriminate.
      apply IH in H; lia.
    + apply IH in H; lia.
Qed.

Lemma partition_bounds base low high w r w' :
  partition base low high compar w = Ok r w' ->
  0 <= low <= high -> high < 2 ^ 64 -> low <= r <= high.
Proof.
  unfold partition. unfold bind at 1, load at 1. intros H Hl Hmax.
  destruct (base + high <? 0); [discriminate|].
  destruct (mem w !! Z.to_nat (base + high)) as [pivot|]; [|discriminate].
  unfold bind at 1 in H.
  destruct (partition_loop _ base high compar pivot low low w) as [i w1| | |] eqn:Hloop;
    try discriminate.
  apply partition_loop_bounds in Hloop; try lia. unfold bind at 1 in H.
  destruct (swap (base + i) (base + high) w1) as [[] w2| | |]; try discriminate.
  injection H as <- <-. lia.
Qed.

End Traces.

(** ** The properties of the engine *)

Section Properties.

Context {A : Type}.
Implicit Types (w : world A) (pre suf seg : list A) (compar : A -> A -> Z).

Lemma slice_middle pre seg suf n :
  n = length seg -> slice (length pre) n (pre ++ seg ++ suf) = seg.
Proof.
  intros ->. unfold slice. rewrite drop_app_length. now rewrite take_app_length.
Qed.

Lemma addressable_fits (l : list A) : addressable l -> Z.of_nat (length l) * 8 < 2 ^ 64.
Proof. unfold addressable, C.sizeof_ptr, C.SIZE_MAX. lia. Qed.

(** Cutting an array at a valid range. *)
Lemma cut_range (l : list A) (lo n : nat) :
  (lo + n <= length l)%nat ->
  exists pre seg suf, l = pre ++ seg ++ suf /\ length pre = lo /\ length seg = n.
Proof.
  intros H. exists (take lo l), (take n (drop lo l)), (drop n (drop lo l)).
  split; [now rewrite !take_drop|].
  split; [rewrite length_take; lia | rewrite length_take, length_drop; lia].
Qed.

(** C3 (partition): on a range [low <= high] inside the array, [partition]
    returns an index [i] of the range; afterwards the reference that was at
    [high] is at [i], every cell of the range before [i] compares below it,
    no cell of the range after [i] does, and the range holds the same
    references as before. *)
Theorem partition_correct compar base low high w :
  0 <= base -> 0 <= low <= high ->
  base + high < Z.of_nat (length (mem w)) ->
  addressable (mem w) ->
  exists pivot i w',
    mem w !! Z.to_nat (base + high) = Some pivot
    /\ partition base low high compar w = Ok i w'
    /\ low <= i <= high
    /\ mem w' !! Z.to_nat (base + i) = Some pivot
    /\ (forall k, low <= k < i ->
          exists x, mem w' !! Z.to_nat (base + k) = Some x /\ compar x pivot < 0)
    /\ (forall k, i < k <= high ->
          exists x, mem w' !! Z.to_nat (base + k) = Some x /\ ~ compar x pivot < 0)
    /\ slice (Z.to_nat (base + low)) (Z.to_nat (high - low + 1)) (mem w')
        ≡ₚ slice (Z.to_nat (base + low)) (Z.to_nat (high - low + 1)) (mem w).
Proof.
  intros Hbase Hrange Hin Haddr. apply addressable_fits in Haddr.
  destruct (cut_range (mem w) (Z.to_nat (base + low)) (Z.to_nat (high - low + 1)))
    as (pre & seg & suf & Hm & Hpre & Hseg); [lia|].
  destruct seg as [|pivot mid _] using rev_ind; [simpl in Hseg; lia|].
  rewrite length_app in Hseg. simpl in Hseg.
  destruct (partition_spec compar base low high w pre mid pivot suf)
    as (w' & lts & ges & Hrun & Hm' & Hlt & Hge & Hp); [rewrite Hm; list_norm | lia ..|].
  apply Permutation_length in Hp as Hlen. rewrite length_app in Hlen.
  exists pivot, (low + Z.of_nat (length lts)), w'.
  split. { rewrite Hm. replace (pre ++ (mid ++ [pivot]) ++ suf) with ((pre ++ mid) ++ pivot :: suf)
             by list_norm. apply list_lookup_middle. len. }
  split; [assumption|]. split; [lia|].
  split. { rewrite Hm'. replace (pre ++ lts ++ pivot :: ges ++ suf)
             with ((pre ++ lts) ++ pivot :: ges ++ suf) by list_norm.
           apply list_lookup_middle. len. }
  split. { intros k Hk.
           destruct (lookup_lt_is_Some_2 lts (Z.to_nat (k - low))) as [x Hx]; [lia|].
           exists x. split; [|exact (proj1 (Forall_lookup _ _) Hlt _ _ Hx)].
           rewrite Hm', lookup_app_r by lia. rewrite lookup_app_l by lia.
           rewrite <- Hx. f_equal. lia. }
  split. { intros k Hk.
           destruct (lookup_lt_is_Some_2 ges (Z.to_nat (k - low) - length lts - 1)) as [x Hx]; [lia|].
           exists x. split; [|exact (proj1 (Forall_lookup _ _) Hge _ _ Hx)].
           rewrite Hm', lookup_app_r by lia. rewrite lookup_app_r by lia.
           replace (Z.to_nat (base + k) - length pre - length lts)%nat
             with (S (Z.to_nat (k - low) - length lts - 1)) by lia.
           simpl. rewrite lookup_app_l by (apply lookup_lt_Some in Hx; lia). assumption. }
  rewrite Hm, Hm', <- Hpre.
  replace (pre ++ lts ++ pivot :: ges ++ suf) with (pre ++ (lts ++ pivot :: ges) ++ suf) by list_norm.
  rewrite !slice_middle by len. rewrite <- Hp. solve_Permutation.
Qed.

(** C10 (pivot selector): on a range [low <= high] inside the array whose
    length fits a positive [int], whatever value [rand()] returns, the index
    drawn is [low + rand() % (high - low + 1)], it lies in the range, and
    the call does nothing but exchange the cells at that index and at
    [high] (and advance the generator). *)
Theorem choose_random_pivot_in_bounds (E : environment) base low high w :
  0 <= base -> 0 <= low <= high ->
  base + high < Z.of_nat (length (mem w)) ->
  addressable (mem w) ->
  1 <= high - low + 1 <= C.INT_MAX ->
  0 <= prng E (rng_seed w) (rng_pos w) <= C.INT_MAX ->
  let pivot_index := low + Z.rem (prng E (rng_seed w) (rng_pos w)) (high - low + 1) in
  low <= pivot_index <= high
  /\ exists x y,
      mem w !! Z.to_nat (base + pivot_index) = Some x
      /\ mem w !! Z.to_nat (base + high) = Some y
      /\ choose_random_pivot E base low high w
         = Ok tt (World (<[Z.to_nat (base + high) := x]>
                          (<[Z.to_nat (base + pivot_index) := y]> (mem w)))
                       (rng_seed w) (S (rng_pos w)) (allocs w) (trace w)).
Proof.
  intros Hbase Hrange Hin Haddr Hlen Hr pivot_index. apply addressable_fits in Haddr.
  unfold C.INT_MAX in *.
  pose proof (Z.rem_bound_pos (prng E (rng_seed w) (rng_pos w)) (high - low + 1)
                ltac:(lia) ltac:(lia)) as Hb.
  split; [subst pivot_index; lia|].
  destruct (lookup_lt_is_Some_2 (mem w) (Z.to_nat (base + pivot_index))) as [x Hx];
    [subst pivot_index; lia|].
  destruct (lookup_lt_is_Some_2 (mem w) (Z.to_nat (base + high))) as [y Hy]; [lia|].
  exists x, y. split; [assumption|]. split; [assumption|].
  unfold choose_random_pivot. unfold bind at 1, rand at 1.
  rewrite sub_small, add_small by lia. rewrite to_int_small by lia.
  unfold bind at 1, int_rem.
  destruct (Z.eqb_spec (high - low + 1) 0) as [Hz|_]; [lia|].
  destruct (Z.eqb_spec (prng E (rng_seed w) (rng_pos w)) C.INT_MIN) as [Hz|_].
  { exfalso. unfold C.INT_MIN in Hz. lia. }
  cbn [andb]. unfold ret. rewrite to_size_t_small, add_small by lia.
  fold pivot_index.
  now rewrite (swap_at _ _ _ x y) by (simpl; try assumption; subst pivot_index; lia).
Qed.

(** C5, amended (left recursion of the quicksort driver): once
    partitioning [low < high] has yielded [pi], the next thing a returning
    run does is to enter the recursive call on [low, pi - 1] if and only if
    [pi > 0].  When [pi = low > 0] that call is made, on the empty range
    [low, low - 1]: it records its entry and returns, touching nothing. *)
Theorem left_recursion_guard (E : environment) compar fuel base low high w pi w1 w' :
  0 <= low -> low < high -> high < 2 ^ 64 ->
  partition_step E base low high compar w = Ok pi w1 ->
  quick_sort_rec E (S fuel) base low high compar w = Ok tt w' ->
  (trace w' !! length (trace w1) = Some (Enter_quick_sort_rec low (C.sub pi 1)) <-> 0 < pi)
  /\ (pi = low -> 0 < pi ->
      forall fuel' w2,
        quick_sort_rec E (S fuel') base low (C.sub pi 1) compar w2
        = Ok tt (log w2 (Enter_quick_sort_rec low (C.sub pi 1)))).
Proof.
  intros H0 Hlt Hmax Hstep Hrun.
  cbn [quick_sort_rec] in Hrun. unfold partition_step in Hstep.
  unfold bind at 1, emit at 1 in Hrun. unfold bind at 1, emit at 1 in Hstep.
  destruct (Z.ltb_spec low high); [|lia].
  unfold bind at 1 in Hrun. unfold bind at 1 in Hstep.
  destruct (choose_random_pivot E base low high _) as [[] w0| | |]; try discriminate.
  unfold bind at 1 in Hrun.
  rewrite Hstep in Hrun. pose proof (partition_bounds compar _ _ _ _ _ _ Hstep ltac:(lia) Hmax) as Hpi.
  split.
  - unfold bind at 1 in Hrun. destruct (Z.ltb_spec 0 pi) as [Hpos|Hzero].
    + destruct (quick_sort_rec E fuel base low (C.sub pi 1) compar w1) as [[] w2| | |] eqn:Hleft;
        try discriminate.
      apply quick_sort_rec_trace in Hleft, Hrun.
      assert (Hpre : (trace w1 ++ [Enter_quick_sort_rec low (C.sub pi 1)]) `prefix_of` trace w').
      { etransitivity; [exact Hleft|]. etransitivity; [|exact Hrun]. now apply prefix_app_r. }
      destruct Hpre as [k ->]. rewrite <- app_assoc. simpl.
      split; [lia|]. intros _. now apply list_lookup_middle.
    + unfold ret in Hrun. apply quick_sort_rec_trace in Hrun. destruct Hrun as [k ->].
      rewrite <- app_assoc. simpl. rewrite list_lookup_middle by reflexivity.
      split; [|lia]. intros [= Hlow _]. rewrite add_small in Hlow by lia. lia.
  - intros -> Hpos fuel' w2. cbn [quick_sort_rec]. unfold bind, emit.
    rewrite sub_small by lia. destruct (Z.ltb_spec low (low - 1)); [lia|]. reflexivity.
Qed.

(** C4 (entry contract of the two sorts): given a null array or a null
    comparator, each sort prints its diagnostic and returns, the array and
    everything else being as before; given both, with [nitems = 0] each
    returns at once with the world unchanged, so that no comparison is
    made, and with [nitems = 1] [merge_sort] does the same and [quick_sort]
    only seeds the generator and enters and leaves [quick_sort_rec]: the
    array is as before and the comparator is not called. *)
Theorem entry_contract (E : environment) fuel (base : option Z) nitems
    (compar : option (A -> A -> Z)) w :
  (0 < fuel)%nat ->
  (base = None \/ compar = None ->
     quick_sort E fuel base nitems compar w = Ok tt (log w (invalid_argument "quick_sort"))
     /\ merge_sort E fuel base nitems compar w = Ok tt (log w (invalid_argument "merge_sort")))
  /\ (base <> None -> compar <> None -> nitems = 0 ->
        quick_sort E fuel base nitems compar w = Ok tt w
        /\ merge_sort E fuel base nitems compar w = Ok tt w)
  /\ (base <> None -> compar <> None -> nitems = 1 ->
        exists w',
          quick_sort E fuel base nitems compar w = Ok tt w'
          /\ mem w' = mem w
          /\ trace w' = trace w ++ [Srand (C.to_unsigned (now E)); Enter_quick_sort_rec 0 0]
          /\ merge_sort E fuel base nitems compar w = Ok tt w).
Proof.
  intros Hfuel. split; [|split].
  - intros [-> | ->]; [split; reflexivity|]. destruct base; split; reflexivity.
  - intros Hb Hc ->. destruct base; [|contradiction]. destruct compar; [|contradiction].
    split; reflexivity.
  - intros Hb Hc ->. destruct base as [b|]; [|contradiction].
    destruct compar as [c|]; [|contradiction].
    destruct fuel as [|fuel]; [lia|].
    eexists. split; [reflexivity|]. split; [reflexivity|]. split; [|reflexivity].
    simpl. now rewrite <- app_assoc.
Qed.

(** C7 (allocation failure): when [malloc] returns [NULL], [merge] prints
    its diagnostic and calls [exit(EXIT_FAILURE)] with the array exactly as
    it was on entry.  Seen from [merge_sort]: the sort returns only if every
    allocation it asked for succeeded; otherwise the process has exited
    with that status, the diagnostic is the last thing it printed, and the
    array holds the references it was given, none lost and none repeated. *)
Theorem allocation_failure_is_explicit (E : environment) compar :
  (forall base nitems middle w,
     heap_ok E (allocs w) = false ->
     exists w',
       merge E base nitems middle compar w = Exit C.EXIT_FAILURE w'
       /\ mem w' = mem w
       /\ trace w' = trace w ++ [out_of_memory])
  /\ (forall fuel w pre seg suf,
        mem w = pre ++ seg ++ suf -> addressable (mem w) -> (length seg < fuel)%nat ->
        match merge_sort E fuel (Some (Z.of_nat (length pre))) (Z.of_nat (length seg))
                (Some compar) w with
        | Ok _ w' => forall n, (allocs w <= n < allocs w')%nat -> heap_ok E n = true
        | Exit status w' =>
            status = C.EXIT_FAILURE
            /\ last (trace w') = Some out_of_memory
            /\ heap_ok E (pred (allocs w')) = false
            /\ exists seg', mem w' = pre ++ seg' ++ suf /\ seg' ≡ₚ seg
        | Fault => False
        | OutOfFuel => False
        end).
Proof.
  split.
  - intros base nitems middle w Hheap. eexists.
    split; [now apply merge_out_of_memory|]. split; reflexivity.
  - intros fuel w pre seg suf Hm Haddr Hfuel. apply addressable_fits in Haddr.
    rewrite Hm, !length_app in Haddr. cbn [merge_sort].
    destruct (Z.leb_spec 2 (Z.of_nat (length seg))).
    + pose proof (merge_sort_rec_spec E compar fuel (Z.of_nat (length pre))
                    (Z.of_nat (length seg)) w pre seg suf Hm eq_refl eq_refl
                    ltac:(unfold C.sizeof_ptr; lia) Hfuel) as Hpost.
      destruct (merge_sort_rec E fuel _ _ compar w) as [[] w'|st w'| |]; simpl in Hpost;
        try contradiction.
      * destruct Hpost as (seg' & _ & _ & _ & _ & Hh). exact Hh.
      * destruct Hpost as (seg' & Hst & Hm' & Hp & _ & Hh & Hl). eauto 10.
    + simpl. intros n Hn. lia.
Qed.

(** The two sorts, called on the cells [seg] of [pre ++ seg ++ suf]. *)
Lemma quick_sort_spec (E : environment) compar fuel w pre seg suf :
  rand_in_range E ->
  mem w = pre ++ seg ++ suf -> addressable (mem w) -> (length seg < fuel)%nat ->
  quick_sort_post (fun seg' => total_preorder compar -> sorted_by compar seg') pre seg suf
    (quick_sort E fuel (Some (Z.of_nat (length pre))) (Z.of_nat (length seg)) (Some compar) w).
Proof.
  intros Hrand Hm Haddr Hfuel. apply addressable_fits in Haddr.
  rewrite Hm, !length_app in Haddr. cbn [quick_sort].
  destruct (Z.ltb_spec 0 (Z.of_nat (length seg))).
  - unfold bind at 1, srand at 1. rewrite sub_small by lia.
    apply quick_sort_rec_spec; simpl; try assumption; lia.
  - simpl. exists seg. repeat split; try assumption; try reflexivity.
    intros _. destruct seg; [constructor | simpl in *; lia].
Qed.

Lemma merge_sort_spec (E : environment) compar fuel w pre seg suf :
  mem w = pre ++ seg ++ suf -> addressable (mem w) -> (length seg < fuel)%nat ->
  merge_sort_post E compar w pre seg suf
    (merge_sort E fuel (Some (Z.of_nat (length pre))) (Z.of_nat (length seg)) (Some compar) w).
Proof.
  intros Hm Haddr Hfuel. apply addressable_fits in Haddr.
  rewrite Hm, !length_app in Haddr. cbn [merge_sort].
  destruct (Z.leb_spec 2 (Z.of_nat (length seg))).
  - apply merge_sort_rec_spec; try assumption; try reflexivity. unfold C.sizeof_ptr. lia.
  - simpl. exists seg. split; [assumption|]. split; [reflexivity|].
    split; [|split; [lia | intros n Hn; lia]].
    intros _. split; [|apply stable_refl].
    destruct seg as [|x [|y seg]]; [constructor| |simpl in *; lia]. repeat constructor.
Qed.

Lemma quick_sort_returns_sorted (E : environment) compar fuel w pre seg suf :
  total_preorder compar -> rand_in_range E ->
  mem w = pre ++ seg ++ suf -> addressable (mem w) -> (length seg < fuel)%nat ->
  Z.of_nat (length seg) < 2 ^ 32 ->
  exists w' seg',
    quick_sort E fuel (Some (Z.of_nat (length pre))) (Z.of_nat (length seg))
      (Some compar) w = Ok tt w'
    /\ mem w' = pre ++ seg' ++ suf /\ seg' ≡ₚ seg /\ sorted_by compar seg'.
Proof.
  intros Hord Hrand Hm Haddr Hfuel Hsmall.
  pose proof (quick_sort_spec E compar fuel w pre seg suf Hrand Hm Haddr Hfuel) as H.
  destruct (quick_sort E fuel _ _ _ w) as [[] w'| | |]; simpl in H; try contradiction; try lia.
  destruct H as (seg' & Hm' & Hp & Hs). exists w', seg'. auto.
Qed.

(** C1, amended (the two sorts sort): for a sequence [seg] of [N] references
    and a comparator that is a total preorder, [quick_sort] returns with the
    sequence a permutation of [seg] that is non-decreasing, provided
    [N < 2^32]; [merge_sort] does so provided its allocations succeed. *)
Theorem sorts_sort (E : environment) compar fuel w pre seg suf :
  total_preorder compar -> rand_in_range E ->
  mem w = pre ++ seg ++ suf -> addressable (mem w) -> (length seg < fuel)%nat ->
  (Z.of_nat (length seg) < 2 ^ 32 ->
     exists w' seg',
       quick_sort E fuel (Some (Z.of_nat (length pre))) (Z.of_nat (length seg))
         (Some compar) w = Ok tt w'
       /\ mem w' = pre ++ seg' ++ suf /\ seg' ≡ₚ seg /\ sorted_by compar seg')
  /\ ((forall n, (allocs w <= n)%nat -> heap_ok E n = true) ->
      exists w' seg',
        merge_sort E fuel (Some (Z.of_nat (length pre))) (Z.of_nat (length seg))
          (Some compar) w = Ok tt w'
        /\ mem w' = pre ++ seg' ++ suf /\ seg' ≡ₚ seg /\ sorted_by compar seg').
Proof.
  intros Hord Hrand Hm Haddr Hfuel. split.
  - intros Hsmall. now apply quick_sort_returns_sorted.
  - intros Hheap. pose proof (merge_sort_spec E compar fuel w pre seg suf Hm Haddr Hfuel) as H.
    destruct (merge_sort E fuel _ _ _ w) as [[] w'|st w'| |]; simpl in H; try contradiction.
    + destruct H as (seg' & Hm' & Hp & Hs & _). exists w', seg'.
      destruct (Hs Hord). auto.
    + destruct H as (seg' & _ & _ & _ & Hlt & Hfail & _).
      rewrite Hheap in Hfail by lia. discriminate.
Qed.

(** C2 (stability of mergesort): whatever the allocator does, [merge_sort]
    called with a total preorder either returns, and then the sequence is a
    sorted permutation of the input in which the elements the comparator
    ties keep the order they had, or exits because an allocation failed; it
    returns whenever the allocations succeed.  And a step of the merge loop
    that finds its two cursors on tied elements copies the left one. *)
Theorem merge_sort_stable (E : environment) compar fuel w pre seg suf :
  total_preorder compar ->
  mem w = pre ++ seg ++ suf -> addressable (mem w) -> (length seg < fuel)%nat ->
  match merge_sort E fuel (Some (Z.of_nat (length pre))) (Z.of_nat (length seg))
          (Some compar) w with
  | Ok _ w' =>
      exists seg', mem w' = pre ++ seg' ++ suf /\ seg' ≡ₚ seg /\ sorted_by compar seg'
                   /\ stable compar seg seg'
  | Exit _ w' => exists n, (allocs w <= n)%nat /\ heap_ok E n = false
  | Fault => False
  | OutOfFuel => False
  end
  /\ ((forall n, (allocs w <= n)%nat -> heap_ok E n = true) ->
      exists w', merge_sort E fuel (Some (Z.of_nat (length pre))) (Z.of_nat (length seg))
                   (Some compar) w = Ok tt w')
  /\ (forall n base nitems middle cap i j k temp w0 x y,
        i < middle -> j < nitems ->
        load (base + i) w0 = Ok x w0 -> load (base + j) w0 = Ok y w0 ->
        compar x y = 0 ->
        k = Z.of_nat (length temp) -> k < cap ->
        merge_loop (S n) base nitems middle compar cap i j k temp w0
        = merge_loop n base nitems middle compar cap (C.add i 1) j (C.add k 1) (temp ++ [x])
            (log w0 (Compar x y))).
Proof.
  intros Hord Hm Haddr Hfuel.
  pose proof (merge_sort_spec E compar fuel w pre seg suf Hm Haddr Hfuel) as H.
  split; [|split].
  - destruct (merge_sort E fuel _ _ _ w) as [[] w'|st w'| |]; simpl in H; try contradiction.
    + destruct H as (seg' & Hm' & Hp & Hs & _). exists seg'. destruct (Hs Hord). auto.
    + destruct H as (seg' & _ & _ & _ & Hlt & Hfail & _).
      exists (pred (allocs w')). split; [lia | assumption].
  - intros Hheap.
    destruct (merge_sort E fuel _ _ _ w) as [[] w'|st w'| |]; simpl in H; try contradiction.
    + now exists w'.
    + destruct H as (seg' & _ & _ & _ & Hlt & Hfail & _).
      rewrite Hheap in Hfail by lia. discriminate.
  - intros n base nitems middle cap i j k temp w0 x y Hi Hj Hx Hy Hxy Hk Hcap.
    cbn [merge_loop].
    destruct (Z.ltb_spec i middle); [|lia]. destruct (Z.ltb_spec j nitems); [|lia]. cbn [andb].
    rewrite (bind_Ok _ _ _ _ _ Hx), (bind_Ok _ _ _ _ _ Hy), (bind_Ok _ _ _ _ _ (call_Ok _ _ _ _)).
    rewrite Hxy. change (0 <=? 0) with true. cbv iota.
    now rewrite (bind_Ok _ _ _ _ _ (temp_store_next cap temp k x _ Hk Hcap)).
Qed.

(** C6, amended (termination of the drivers): on a valid range of the array,
    for every comparator, every value the generator may return and every
    behaviour of the allocator, given a recursion depth above the length of
    the range neither driver exhausts it; [quick_sort_rec] returns when the
    range has fewer than [2^32] cells, and [merge_sort_rec] returns, or
    stops the process with [exit(EXIT_FAILURE)] when an allocation fails; and
    so do the two sorts that call them. *)
Theorem drivers_terminate (E : environment) compar fuel w pre seg suf base low high :
  rand_in_range E ->
  mem w = pre ++ seg ++ suf -> addressable (mem w) ->
  0 <= base -> base + low = Z.of_nat (length pre) ->
  high + 1 = low + Z.of_nat (length seg) -> 0 <= low ->
  (length seg < fuel)%nat ->
  quick_sort_rec E fuel base low high compar w <> OutOfFuel
  /\ (Z.of_nat (length seg) < 2 ^ 32 ->
      exists w', quick_sort_rec E fuel base low high compar w = Ok tt w')
  /\ ((exists w', merge_sort_rec E fuel (Z.of_nat (length pre)) (Z.of_nat (length seg)) compar w
                  = Ok tt w')
      \/ (exists w', merge_sort_rec E fuel (Z.of_nat (length pre)) (Z.of_nat (length seg)) compar w
                     = Exit C.EXIT_FAILURE w'
                     /\ (allocs w < allocs w')%nat
                     /\ heap_ok E (pred (allocs w')) = false))
  /\ (Z.of_nat (length seg) < 2 ^ 32 ->
      exists w', quick_sort E fuel (Some (Z.of_nat (length pre))) (Z.of_nat (length seg))
                   (Some compar) w = Ok tt w')
  /\ ((forall n, (allocs w <= n)%nat -> heap_ok E n = true) ->
      exists w', merge_sort E fuel (Some (Z.of_nat (length pre))) (Z.of_nat (length seg))
                   (Some compar) w = Ok tt w').
Proof.
  intros Hrand Hm Haddr Hbase Hlow Hhigh H0 Hfuel.
  pose proof (addressable_fits _ Haddr) as Hfit. rewrite Hm, !length_app in Hfit.
  pose proof (quick_sort_rec_spec E compar Hrand fuel base low high w pre seg suf Hm Hlow Hhigh H0
                ltac:(lia) Hfuel) as Hq.
  pose proof (merge_sort_rec_spec E compar fuel (Z.of_nat (length pre)) (Z.of_nat (length seg))
                w pre seg suf Hm eq_refl eq_refl ltac:(unfold C.sizeof_ptr; lia) Hfuel) as Hms.
  pose proof (quick_sort_spec E compar fuel w pre seg suf Hrand Hm Haddr Hfuel) as Hqs.
  pose proof (merge_sort_spec E compar fuel w pre seg suf Hm Haddr Hfuel) as Hmss.
  split; [|split; [|split; [|split]]].
  - intros Heq. rewrite Heq in Hq. exact Hq.
  - intros Hsmall.
    destruct (quick_sort_rec E fuel base low high compar w) as [[] w'| | |]; simpl in Hq;
      try contradiction; try lia.
    now exists w'.
  - destruct (merge_sort_rec E fuel _ _ compar w) as [[] w'|st w'| |]; simpl in Hms;
      try contradiction.
    + left. now exists w'.
    + right. destruct Hms as (seg' & -> & _ & _ & Hlt & Hfail & _). now exists w'.
  - intros Hsmall.
    destruct (quick_sort E fuel _ _ _ w) as [[] w'| | |]; simpl in Hqs;
      try contradiction; try lia.
    now exists w'.
  - intros Hheap.
    destruct (merge_sort E fuel _ _ _ w) as [[] w'|st w'| |]; simpl in Hmss; try contradiction.
    + now exists w'.
    + destruct Hmss as (seg' & _ & _ & _ & Hlt & Hfail & _).
      rewrite Hheap in Hfail by lia. discriminate.
Qed.

(** C8, amended (the outcome of quicksort and the random choices): two runs
    of [quick_sort] on the same sequence of fewer than [2^32] references, in
    any two environments, both return a non-decreasing permutation of it, and
    the two results agree position by position up to ties; they are the same
    sequence when the comparator ties no two distinct references of it. *)
Theorem quick_sort_outcome_up_to_ties (E1 E2 : environment) compar fuel1 fuel2 w1 w2 pre seg suf :
  total_preorder compar -> rand_in_range E1 -> rand_in_range E2 ->
  mem w1 = pre ++ seg ++ suf -> mem w2 = pre ++ seg ++ suf -> addressable (pre ++ seg ++ suf) ->
  Z.of_nat (length seg) < 2 ^ 32 ->
  (length seg < fuel1)%nat -> (length seg < fuel2)%nat ->
  exists w1' w2' seg1 seg2,
    quick_sort E1 fuel1 (Some (Z.of_nat (length pre))) (Z.of_nat (length seg)) (Some compar) w1
    = Ok tt w1'
    /\ quick_sort E2 fuel2 (Some (Z.of_nat (length pre))) (Z.of_nat (length seg)) (Some compar) w2
       = Ok tt w2'
    /\ mem w1' = pre ++ seg1 ++ suf /\ mem w2' = pre ++ seg2 ++ suf
    /\ seg1 ≡ₚ seg /\ seg2 ≡ₚ seg
    /\ sorted_by compar seg1 /\ sorted_by compar seg2
    /\ Forall2 (fun a b => compar a b = 0) seg1 seg2
    /\ ((forall a b, a ∈ seg -> b ∈ seg -> compar a b = 0 -> a = b) -> seg1 = seg2).
Proof.
  intros Hord Hr1 Hr2 Hm1 Hm2 Haddr Hsmall Hf1 Hf2.
  destruct (quick_sort_returns_sorted E1 compar fuel1 w1 pre seg suf Hord Hr1 Hm1
              ltac:(now rewrite Hm1) Hf1 Hsmall) as (w1' & seg1 & Hrun1 & Hm1' & Hp1 & Hs1).
  destruct (quick_sort_returns_sorted E2 compar fuel2 w2 pre seg suf Hord Hr2 Hm2
              ltac:(now rewrite Hm2) Hf2 Hsmall) as (w2' & seg2 & Hrun2 & Hm2' & Hp2 & Hs2).
  exists w1', w2', seg1, seg2. repeat split; try assumption.
  - apply sorted_permutations_tied; try assumption. now rewrite Hp1, Hp2.
  - intros Hanti. now apply (sorted_permutations_equal compar Hord seg).
Qed.

(** X25 (the references are preserved below [2^32] cells): on cells inside
    the array, whatever they hold and whatever the comparator answers,
    [swap], [partition] and [merge] (on any two adjacent runs, sorted or not)
    leave the range a permutation of what it was and the cells outside it as
    they were, and so do [merge_sort_rec] and [merge_sort], whether they
    return or exit; the pivot selector, [quick_sort_rec] and [quick_sort] do
    so on every range of fewer than [2^32] cells (on a larger one the only
    other outcome is the division by zero of the pivot selector). *)
Theorem references_preserved (E : environment) compar fuel w pre left right suf base low high :
  rand_in_range E ->
  mem w = pre ++ (left ++ right) ++ suf -> addressable (mem w) ->
  0 <= base -> base + low = Z.of_nat (length pre) ->
  high + 1 = low + Z.of_nat (length (left ++ right)) -> 0 <= low <= high ->
  (length (left ++ right) < fuel)%nat ->
  let big := 2 ^ 32 <= Z.of_nat (length (left ++ right)) in
  (forall a b, low <= a <= high -> low <= b <= high ->
     keeps_references False pre (left ++ right) suf (swap (base + a) (base + b) w))
  /\ keeps_references big pre (left ++ right) suf (choose_random_pivot E base low high w)
  /\ keeps_references False pre (left ++ right) suf (partition base low high compar w)
  /\ keeps_references False pre (left ++ right) suf
       (merge E (Z.of_nat (length pre)) (Z.of_nat (length (left ++ right)))
          (Z.of_nat (length left)) compar w)
  /\ keeps_references big pre (left ++ right) suf (quick_sort_rec E fuel base low high compar w)
  /\ keeps_references False pre (left ++ right) suf
       (merge_sort_rec E fuel (Z.of_nat (length pre)) (Z.of_nat (length (left ++ right))) compar w)
  /\ keeps_references big pre (left ++ right) suf
       (quick_sort E fuel (Some (Z.of_nat (length pre))) (Z.of_nat (length (left ++ right)))
          (Some compar) w)
  /\ keeps_references False pre (left ++ right) suf
       (merge_sort E fuel (Some (Z.of_nat (length pre))) (Z.of_nat (length (left ++ right)))
          (Some compar) w).
Proof.
  intros Hrand Hm Haddr Hbase Hlow Hhigh H0 Hfuel big.
  pose proof (addressable_fits _ Haddr) as Hfit. rewrite Hm, !length_app in Hfit.
  rewrite <- length_app in Hfit.
  split; [|split; [|split; [|split; [|split; [|split; [|split]]]]]].
  - intros a b Ha Hb.
    destruct (swap_in_segment w pre (left ++ right) suf (base + a) (base + b) Hm)
      as (seg' & Hs & Hp); [lia | lia |].
    rewrite Hs. simpl. now exists seg'.
  - pose proof (choose_random_pivot_spec E Hrand base low high w pre (left ++ right) suf
                  Hm Hlow Hhigh H0 ltac:(lia)) as H.
    destruct (choose_random_pivot E base low high w) as [[] w'| | |]; simpl in H |- *;
      try assumption; try contradiction.
    destruct H as (seg' & Hm' & Hp & _). now exists seg'.
  - destruct (left ++ right) as [|p mid _] eqn:Hseg using rev_ind.
    { simpl in Hhigh. lia. }
    rewrite length_app in Hhigh, Hfit. simpl in Hhigh, Hfit.
    destruct (partition_spec compar base low high w pre mid p suf)
      as (w' & lts & ges & Hrun & Hm' & _ & _ & Hp); [rewrite Hm; list_norm | lia ..|].
    rewrite Hrun. simpl. exists (lts ++ p :: ges). split; [rewrite Hm'; list_norm|].
    rewrite <- Hp. solve_Permutation.
  - destruct (heap_ok E (allocs w)) eqn:Hheap.
    + destruct (merge_spec E compar (Z.of_nat (length pre)) (Z.of_nat (length (left ++ right)))
                  (Z.of_nat (length left)) w pre left right suf Hheap)
        as (w' & Hrun & Hm' & _);
        [rewrite Hm; list_norm | reflexivity | reflexivity | now rewrite length_app
        | unfold C.sizeof_ptr; lia |].
      rewrite Hrun. simpl. exists (merge_lists compar left right).
      split; [assumption | apply merge_lists_perm].
    + rewrite merge_out_of_memory by assumption. simpl. now exists (left ++ right).
  - pose proof (quick_sort_rec_spec E compar Hrand fuel base low high w pre (left ++ right) suf
                  Hm Hlow Hhigh ltac:(lia) ltac:(lia) Hfuel) as H.
    destruct (quick_sort_rec E fuel base low high compar w) as [[] w'| | |]; simpl in H |- *;
      try assumption; try contradiction.
    destruct H as (seg' & Hm' & Hp & _). now exists seg'.
  - pose proof (merge_sort_rec_spec E compar fuel (Z.of_nat (length pre))
                  (Z.of_nat (length (left ++ right))) w pre (left ++ right) suf Hm eq_refl eq_refl
                  ltac:(unfold C.sizeof_ptr; lia) Hfuel) as H.
    destruct (merge_sort_rec E fuel _ _ compar w) as [[] w'|st w'| |]; simpl in H |- *;
      try assumption; try contradiction.
    + destruct H as (seg' & Hm' & Hp & _). now exists seg'.
    + destruct H as (seg' & _ & Hm' & Hp & _). now exists seg'.
  - pose proof (quick_sort_spec E compar fuel w pre (left ++ right) suf Hrand Hm Haddr Hfuel) as H.
    destruct (quick_sort E fuel _ _ _ w) as [[] w'| | |]; simpl in H |- *; try assumption; try contradiction.
    destruct H as (seg' & Hm' & Hp & _). now exists seg'.
  - pose proof (merge_sort_spec E compar fuel w pre (left ++ right) suf Hm Haddr Hfuel) as H.
    destruct (merge_sort E fuel _ _ _ w) as [[] w'|st w'| |]; simpl in H |- *; try assumption; try contradiction.
    + destruct H as (seg' & Hm' & Hp & _). now exists seg'.
    + destruct H as (seg' & _ & Hm' & Hp & _). now exists seg'.
Qed.

End Properties.

(** ** The properties on concrete arrays *)

Lemma compar_Z_total_preorder : total_preorder compar_Z.
Proof.
  split; unfold compar_Z.
  - intros a b. rewrite (Z.compare_antisym a b).
    destruct (a ?= b); simpl; lia.
  - intros a b c.
    destruct (Z.compare_spec a b), (Z.compare_spec b c), (Z.compare_spec a c); lia.
Qed.

Lemma compar_key_total_preorder : total_preorder compar_key.
Proof.
  destruct compar_Z_total_preorder as [Hs Ht]. split; unfold compar_key.
  - intros a b. apply Hs.
  - intros a b c. apply Ht.
Qed.

Lemma libc_rand_in_range t ok : rand_in_range (libc t ok).
Proof.
  intros seed n. simpl. unfold C.INT_MAX.
  pose proof (Z.mod_pos_bound seed (2 ^ 31) ltac:(lia)). lia.
Qed.

Lemma small_addressable {A} (l : list A) : (length l < 1000)%nat -> addressable l.
Proof. unfold addressable, C.sizeof_ptr, C.SIZE_MAX. lia. Qed.

(** On a range of exactly [2^32] cells the length converts to the [int] 0
    and the pivot selector divides by it, whatever the array holds. *)
Lemma quick_sort_rec_divides_by_zero {A} (E : environment) fuel base (compar : A -> A -> Z)
    (w : world A) :
  quick_sort_rec E (S fuel) base 0 (2 ^ 32 - 1) compar w = Fault.
Proof. reflexivity. Qed.

Lemma quick_sort_divides_by_zero {A} (E : environment) fuel base (compar : A -> A -> Z)
    (w : world A) :
  quick_sort E (S fuel) (Some base) (2 ^ 32) (Some compar) w = Fault.
Proof. reflexivity. Qed.

Lemma length_huge_array : Z.of_nat (length huge_array) = 2 ^ 32.
Proof. unfold huge_array. rewrite length_replicate. apply Z2Nat.id. lia. Qed.

Lemma choose_random_pivot_divides_by_zero {A} (E : environment) base (w : world A) :
  choose_random_pivot E base 0 (2 ^ 32 - 1) w = Fault.
Proof. reflexivity. Qed.

(** C9 (the references are preserved), where the code fails it: on a range
    of [2^32] cells the pivot selector computes [rand() % (int)(high - low + 1)]
    with the [int] 0 as divisor, whatever the generator returns, the array
    holds and the comparator answers; it stops there, and with it
    [quick_sort_rec] and [quick_sort] at any depth of one or more: there is
    no final sequence to hold the original references. *)
Theorem references_lost_on_huge_range (E : environment) (compar : Z -> Z -> Z) (fuel : nat) :
  Z.of_nat (length (mem (boot huge_array))) = 2 ^ 32
  /\ C.to_int (C.add (C.sub (2 ^ 32 - 1) 0) 1) = 0
  /\ choose_random_pivot E 0 0 (2 ^ 32 - 1) (boot huge_array) = Fault
  /\ quick_sort_rec E (S fuel) 0 0 (2 ^ 32 - 1) compar (boot huge_array) = Fault
  /\ quick_sort E (S fuel) (Some 0) (2 ^ 32) (Some compar) (boot huge_array) = Fault.
Proof.
  split; [exact length_huge_array|]. split; [reflexivity|].
  split; [apply choose_random_pivot_divides_by_zero|].
  split; [apply quick_sort_rec_divides_by_zero | apply quick_sort_divides_by_zero].
Qed.

(** C1: the comparator of integers, the generator and the array of the unit
    tests meet the hypotheses, and both sorts return it sorted. *)
Lemma sorts_sort_witness :
  total_preorder compar_Z /\ rand_in_range (libc 0 roomy)
  /\ addressable four_integers
  /\ (exists w' seg',
        quick_sort (libc 0 roomy) 5 (Some 0) 4 (Some compar_Z) (boot four_integers) = Ok tt w'
        /\ mem w' = [] ++ seg' ++ [] /\ seg' ≡ₚ four_integers /\ sorted_by compar_Z seg')
  /\ (exists w' seg',
        merge_sort (libc 0 roomy) 5 (Some 0) 4 (Some compar_Z) (boot four_integers) = Ok tt w'
        /\ mem w' = [] ++ seg' ++ [] /\ seg' ≡ₚ four_integers /\ sorted_by compar_Z seg').
Proof.
  pose proof compar_Z_total_preorder as Hord.
  pose proof (libc_rand_in_range 0 roomy) as Hrand.
  assert (Haddr : addressable four_integers) by (apply small_addressable; simpl; lia).
  destruct (sorts_sort (libc 0 roomy) compar_Z 5 (boot four_integers) [] four_integers []
              Hord Hrand eq_refl Haddr ltac:(simpl; lia)) as [Hq Hm].
  split; [assumption|]. split; [assumption|]. split; [assumption|]. split.
  - apply Hq. simpl. lia.
  - apply Hm. reflexivity.
Defined.

(** C1 as stated fails in two ways.  With an allocator that has no memory,
    [merge_sort] on [2; 1] never returns, whatever depth it is given: it
    prints the diagnostic and exits, leaving [2; 1], which is not sorted.
    And on an array of [2^32] references [quick_sort] never returns either:
    it stops at the division by zero of the pivot selector. *)
Lemma sorts_sort_counterexample :
  total_preorder compar_Z
  /\ (forall fuel w',
        merge_sort (libc 0 exhausted) fuel (Some 0) 2 (Some compar_Z) (boot [2; 1]) <> Ok tt w')
  /\ (exists w',
        merge_sort (libc 0 exhausted) 3 (Some 0) 2 (Some compar_Z) (boot [2; 1])
        = Exit C.EXIT_FAILURE w'
        /\ mem w' = [2; 1])
  /\ ~ sorted_by compar_Z [2; 1]
  /\ Z.of_nat (length huge_array) = 2 ^ 32
  /\ (forall fuel w',
        quick_sort (libc 0 roomy) fuel (Some 0) (2 ^ 32) (Some compar_Z) (boot huge_array)
        <> Ok tt w')
  /\ quick_sort (libc 0 roomy) (S (S (length huge_array))) (Some 0) (2 ^ 32) (Some compar_Z)
       (boot huge_array) = Fault.
Proof.
  split; [exact compar_Z_total_preorder|].
  split; [intros [|[|fuel]] w'; discriminate|].
  split; [eexists; split; [vm_compute; reflexivity | reflexivity]|].
  split.
  { intros H. apply StronglySorted_cons in H as [H _].
    apply Forall_cons in H as [H _]. unfold le_by in H. vm_compute in H. now apply H. }
  split; [exact length_huge_array|].
  split.
  { intros [|fuel] w'; [discriminate|]. now rewrite quick_sort_divides_by_zero. }
  apply quick_sort_divides_by_zero.
Qed.

(** C2: records that tie on their key are returned by [merge_sort] in a
    stable order. *)
Lemma merge_sort_stable_witness :
  total_preorder compar_key /\ addressable tied_records
  /\ exists w' seg',
       merge_sort (libc 0 roomy) 5 (Some 0) 4 (Some compar_key) (boot tied_records) = Ok tt w'
       /\ mem w' = [] ++ seg' ++ []
       /\ seg' = [(0, 1); (0, 3); (1, 0); (1, 2)]
       /\ sorted_by compar_key seg' /\ stable compar_key tied_records seg'.
Proof.
  pose proof compar_key_total_preorder as Hord.
  assert (Haddr : addressable tied_records) by (apply small_addressable; simpl; lia).
  split; [assumption|]. split; [assumption|].
  destruct (merge_sort_stable (libc 0 roomy) compar_key 5 (boot tied_records) [] tied_records []
              Hord eq_refl Haddr ltac:(simpl; lia)) as [H _].
  change (merge_sort (libc 0 roomy) 5 (Some (Z.of_nat (length []))) (Z.of_nat (length tied_records))
            (Some compar_key) (boot tied_records))
    with (merge_sort (libc 0 roomy) 5 (Some 0) 4 (Some compar_key) (boot tied_records)) in H.
  destruct (merge_sort (libc 0 roomy) 5 (Some 0) 4 (Some compar_key) (boot tied_records))
    as [[] w'|st w'| |] eqn:Hrun; try contradiction.
  - destruct H as (seg' & Hm & Hp & Hs & Hst). exists w', seg'.
    split; [reflexivity|]. split; [assumption|]. split; [|split; assumption].
    vm_compute in Hrun. injection Hrun as <-. simpl in Hm. rewrite app_nil_r in Hm. now symmetry.
  - vm_compute in Hrun. discriminate.
Defined.

(** C3: [partition] on the whole array of the unit tests. *)
Lemma partition_correct_witness :
  0 <= 0 /\ 0 <= 0 <= 3 /\ 0 + 3 < Z.of_nat (length (mem (boot four_integers)))
  /\ addressable (mem (boot four_integers))
  /\ exists pivot i w',
       partition 0 0 3 compar_Z (boot four_integers) = Ok i w'
       /\ 0 <= i <= 3 /\ mem w' !! Z.to_nat (0 + i) = Some pivot
       /\ mem (boot four_integers) !! Z.to_nat (0 + 3) = Some pivot.
Proof.
  assert (Haddr : addressable (mem (boot four_integers))) by (apply small_addressable; simpl; lia).
  split; [lia|]. split; [lia|]. split; [simpl; lia|]. split; [assumption|].
  destruct (partition_correct compar_Z 0 0 3 (boot four_integers)
              ltac:(lia) ltac:(lia) ltac:(simpl; lia) Haddr)
    as (pivot & i & w' & H1 & H2 & H3 & H4 & _).
  exists pivot, i, w'. auto.
Defined.

(** C4: a null array, and the one-element array of the unit tests. *)
Lemma entry_contract_witness :
  (0 < 1)%nat
  /\ quick_sort (libc 0 roomy) 1 None 1 (Some compar_Z) (boot [10])
     = Ok tt (log (boot [10]) (invalid_argument "quick_sort"))
  /\ merge_sort (libc 0 roomy) 1 None 1 (Some compar_Z) (boot [10])
     = Ok tt (log (boot [10]) (invalid_argument "merge_sort"))
  /\ exists w',
       quick_sort (libc 0 roomy) 1 (Some 0) 1 (Some compar_Z) (boot [10]) = Ok tt w'
       /\ mem w' = [10]
       /\ merge_sort (libc 0 roomy) 1 (Some 0) 1 (Some compar_Z) (boot [10]) = Ok tt (boot [10]).
Proof.
  split; [lia|].
  destruct (entry_contract (libc 0 roomy) 1 None 1 (Some compar_Z) (boot [10]) ltac:(lia))
    as [Hnull _].
  destruct (Hnull (or_introl eq_refl)) as [Hq Hm].
  split; [exact Hq|]. split; [exact Hm|].
  destruct (entry_contract (libc 0 roomy) 1 (Some 0) 1 (Some compar_Z) (boot [10]) ltac:(lia))
    as (_ & _ & Hone).
  destruct (Hone ltac:(discriminate) ltac:(discriminate) eq_refl) as (w' & H1 & H2 & _ & H4).
  exists w'. auto.
Defined.

(** C5: on the range [1, 2] of [0; 1; 2], with the generator returning 0,
    the pivot lands at [pi = 1]. *)
Lemma left_recursion_guard_witness :
  0 <= 1 /\ 1 < 2 /\ 2 < 2 ^ 64
  /\ exists w1 w',
       partition_step (libc 0 roomy) 0 1 2 compar_Z (seeded 0 [0; 1; 2]) = Ok 1 w1
       /\ quick_sort_rec (libc 0 roomy) 2 0 1 2 compar_Z (seeded 0 [0; 1; 2]) = Ok tt w'
       /\ (trace w' !! length (trace w1) = Some (Enter_quick_sort_rec 1 (C.sub 1 1)) <-> 0 < 1).
Proof.
  split; [lia|]. split; [lia|]. split; [lia|].
  eexists. eexists. split; [reflexivity|]. split; [reflexivity|].
  apply (left_recursion_guard (libc 0 roomy) compar_Z 1 0 1 2 (seeded 0 [0; 1; 2]) 1 _ _
           ltac:(lia) ltac:(lia) ltac:(lia) eq_refl eq_refl).
Defined.

(** C5 as stated fails there: the pivot index equals the lower bound, 1, and
    the recursive call on the left range [1, 0] is made all the same. *)
Lemma left_recursion_counterexample :
  exists w1 w',
    partition_step (libc 0 roomy) 0 1 2 compar_Z (seeded 0 [0; 1; 2]) = Ok 1 w1
    /\ quick_sort_rec (libc 0 roomy) 2 0 1 2 compar_Z (seeded 0 [0; 1; 2]) = Ok tt w'
    /\ trace w' !! length (trace w1) = Some (Enter_quick_sort_rec 1 0).
Proof.
  eexists. eexists. split; [reflexivity|]. split; reflexivity.
Qed.

(** C6: the drivers on the array of the unit tests. *)
Lemma drivers_terminate_witness :
  rand_in_range (libc 0 roomy) /\ addressable (mem (boot four_integers))
  /\ (length four_integers < 5)%nat
  /\ quick_sort_rec (libc 0 roomy) 5 0 0 3 compar_Z (boot four_integers) <> OutOfFuel
  /\ (exists w', quick_sort_rec (libc 0 roomy) 5 0 0 3 compar_Z (boot four_integers) = Ok tt w')
  /\ (exists w', merge_sort (libc 0 roomy) 5 (Some 0) 4 (Some compar_Z) (boot four_integers)
                 = Ok tt w').
Proof.
  pose proof (libc_rand_in_range 0 roomy) as Hrand.
  assert (Haddr : addressable (mem (boot four_integers))) by (apply small_addressable; simpl; lia).
  split; [assumption|]. split; [assumption|]. split; [simpl; lia|].
  destruct (drivers_terminate (libc 0 roomy) compar_Z 5 (boot four_integers) [] four_integers []
              0 0 3 Hrand eq_refl Haddr ltac:(lia) eq_refl eq_refl ltac:(lia) ltac:(simpl; lia))
    as (H1 & H2 & _ & _ & H5).
  split; [exact H1|]. split; [apply H2; simpl; lia | apply H5; reflexivity].
Defined.

(** C6 as stated fails in two ways.  With an allocator that has no memory,
    [merge_sort_rec] on four cells never returns, whatever depth it is given:
    it stops the process at its first merge, before the right half is ever
    visited.  And on a range of [2^32] cells [quick_sort_rec] never returns
    either: it stops at the division by zero of the pivot selector. *)
Lemma drivers_terminate_counterexample :
  (forall fuel w',
     merge_sort_rec (libc 0 exhausted) fuel 0 4 compar_Z (boot four_integers) <> Ok tt w')
  /\ (exists w',
        merge_sort_rec (libc 0 exhausted) 5 0 4 compar_Z (boot four_integers)
        = Exit C.EXIT_FAILURE w'
        /\ mem w' = four_integers /\ trace w' = [out_of_memory])
  /\ Z.of_nat (length huge_array) = 2 ^ 32
  /\ (forall fuel w',
        quick_sort_rec (libc 0 roomy) fuel 0 0 (2 ^ 32 - 1) compar_Z (boot huge_array) <> Ok tt w')
  /\ quick_sort_rec (libc 0 roomy) (S (S (length huge_array))) 0 0 (2 ^ 32 - 1) compar_Z
       (boot huge_array) = Fault.
Proof.
  split; [intros [|[|[|fuel]]] w'; discriminate|].
  split; [eexists; split; [vm_compute; reflexivity | split; reflexivity]|].
  split; [exact length_huge_array|].
  split.
  { intros [|fuel] w'; [discriminate|]. now rewrite quick_sort_rec_divides_by_zero. }
  apply quick_sort_rec_divides_by_zero.
Qed.

(** C7: [merge] and [merge_sort] when the allocator has no memory. *)
Lemma allocation_failure_is_explicit_witness :
  heap_ok (libc 0 exhausted) (allocs (boot [2; 1])) = false
  /\ (exists w',
        merge (libc 0 exhausted) 0 2 1 compar_Z (boot [2; 1]) = Exit C.EXIT_FAILURE w'
        /\ mem w' = mem (boot [2; 1])
        /\ trace w' = trace (boot [2; 1]) ++ [out_of_memory])
  /\ addressable (mem (boot [2; 1]))
  /\ merge_sort (libc 0 exhausted) 3 (Some 0) 2 (Some compar_Z) (boot [2; 1]) <> Fault.
Proof.
  destruct (allocation_failure_is_explicit (libc 0 exhausted) compar_Z) as [Hmerge Hsort].
  assert (Haddr : addressable (mem (boot [2; 1]))) by (apply small_addressable; simpl; lia).
  split; [reflexivity|]. split; [apply Hmerge; reflexivity|]. split; [assumption|].
  specialize (Hsort 3%nat (boot [2; 1]) [] [2; 1] [] eq_refl Haddr ltac:(simpl; lia)).
  intros Heq.
  change (merge_sort (libc 0 exhausted) 3 (Some (Z.of_nat (length []))) (Z.of_nat (length [2; 1]))
            (Some compar_Z) (boot [2; 1]))
    with (merge_sort (libc 0 exhausted) 3 (Some 0) 2 (Some compar_Z) (boot [2; 1])) in Hsort.
  rewrite Heq in Hsort. exact Hsort.
Defined.

(** C8: the tied records under two seeds. *)
Lemma quick_sort_outcome_up_to_ties_witness :
  total_preorder compar_key /\ rand_in_range (libc 0 roomy) /\ rand_in_range (libc 1 roomy)
  /\ addressable ([] ++ tied_records ++ [])
  /\ Z.of_nat (length tied_records) < 2 ^ 32
  /\ exists w1' w2' seg1 seg2,
       quick_sort (libc 0 roomy) 5 (Some 0) 4 (Some compar_key) (boot tied_records) = Ok tt w1'
       /\ quick_sort (libc 1 roomy) 5 (Some 0) 4 (Some compar_key) (boot tied_records) = Ok tt w2'
       /\ mem w1' = [] ++ seg1 ++ [] /\ mem w2' = [] ++ seg2 ++ []
       /\ seg1 ≡ₚ tied_records /\ seg2 ≡ₚ tied_records
       /\ sorted_by compar_key seg1 /\ sorted_by compar_key seg2
       /\ Forall2 (fun a b => compar_key a b = 0) seg1 seg2.
Proof.
  pose proof compar_key_total_preorder as Hord.
  pose proof (libc_rand_in_range 0 roomy) as Hr0.
  pose proof (libc_rand_in_range 1 roomy) as Hr1.
  assert (Haddr : addressable ([] ++ tied_records ++ [])) by (apply small_addressable; simpl; lia).
  split; [assumption|]. split; [assumption|]. split; [assumption|]. split; [assumption|].
  split; [simpl; lia|].
  destruct (quick_sort_outcome_up_to_ties (libc 0 roomy) (libc 1 roomy) compar_key 5 5
              (boot tied_records) (boot tied_records) [] tied_records []
              Hord Hr0 Hr1 eq_refl eq_refl Haddr ltac:(simpl; lia) ltac:(simpl; lia) ltac:(simpl; lia))
    as (w1' & w2' & seg1 & seg2 & H1 & H2 & H3 & H4 & H5 & H6 & H7 & H8 & H9 & _).
  exists w1', w2', seg1, seg2. repeat (split; [assumption|]). assumption.
Defined.

(** C8 as stated fails: two records that tie come out of [quick_sort] in one
    order when the generator is seeded with 0 and in the other when it is
    seeded with 1.  (And on an array of [2^32] references a run stops at the
    division by zero of the pivot selector and produces no sequence at all.) *)
Lemma quick_sort_outcome_counterexample :
  total_preorder compar_key
  /\ (exists w1' w2',
        quick_sort (libc 0 roomy) 3 (Some 0) 2 (Some compar_key) (boot [(0, 0); (0, 1)]) = Ok tt w1'
        /\ quick_sort (libc 1 roomy) 3 (Some 0) 2 (Some compar_key) (boot [(0, 0); (0, 1)]) = Ok tt w2'
        /\ mem w1' = [(0, 0); (0, 1)]
        /\ mem w2' = [(0, 1); (0, 0)]
        /\ mem w1' <> mem w2')
  /\ (forall fuel w',
        quick_sort (libc 1 roomy) fuel (Some 0) (2 ^ 32) (Some compar_Z) (boot huge_array)
        <> Ok tt w').
Proof.
  split; [exact compar_key_total_preorder|]. split.
  - eexists. eexists.
    split; [vm_compute; reflexivity|]. split; [vm_compute; reflexivity|].
    split; [reflexivity|]. split; [reflexivity|]. discriminate.
  - intros [|fuel] w'; [discriminate|]. now rewrite quick_sort_divides_by_zero.
Qed.

(** X25: the operations on the array of the unit tests, cut into two runs
    that are not sorted. *)
Lemma references_preserved_witness :
  rand_in_range (libc 0 roomy) /\ addressable (mem (boot four_integers))
  /\ keeps_references False [] ([4; 3] ++ [2; 1]) [] (swap (0 + 0) (0 + 3) (boot four_integers))
  /\ keeps_references False [] ([4; 3] ++ [2; 1]) []
       (merge (libc 0 roomy) 0 4 2 compar_Z (boot four_integers))
  /\ keeps_references False [] ([4; 3] ++ [2; 1]) []
       (merge_sort (libc 0 exhausted) 5 (Some 0) 4 (Some compar_Z) (boot four_integers)).
Proof.
  pose proof (libc_rand_in_range 0 roomy) as Hrand.
  assert (Haddr : addressable (mem (boot four_integers))) by (apply small_addressable; simpl; lia).
  split; [assumption|]. split; [assumption|].
  destruct (references_preserved (libc 0 roomy) compar_Z 5 (boot four_integers) [] [4; 3] [2; 1] []
              0 0 3 Hrand eq_refl Haddr ltac:(lia) eq_refl eq_refl ltac:(lia) ltac:(simpl; lia))
    as (Hswap & _ & _ & Hmerge & _).
  destruct (references_preserved (libc 0 exhausted) compar_Z 5 (boot four_integers) [] [4; 3] [2; 1] []
              0 0 3 (libc_rand_in_range 0 exhausted) eq_refl Haddr ltac:(lia) eq_refl eq_refl
              ltac:(lia) ltac:(simpl; lia))
    as (_ & _ & _ & _ & _ & _ & _ & Hsort).
  split; [apply Hswap; lia|]. split; [exact Hmerge | exact Hsort].
Defined.

(** C10: the pivot selector on the whole array of the unit tests. *)
Lemma choose_random_pivot_in_bounds_witness :
  0 <= 0 /\ 0 <= 0 <= 3
  /\ 0 + 3 < Z.of_nat (length (mem (boot four_integers)))
  /\ addressable (mem (boot four_integers))
  /\ 1 <= 3 - 0 + 1 <= C.INT_MAX
  /\ 0 <= prng (libc 0 roomy) (rng_seed (boot four_integers)) (rng_pos (boot four_integers))
     <= C.INT_MAX
  /\ 0 <= 0 + Z.rem (prng (libc 0 roomy) 1 0) (3 - 0 + 1) <= 3.
Proof.
  assert (Haddr : addressable (mem (boot four_integers))) by (apply small_addressable; simpl; lia).
  assert (Hlen : 1 <= 3 - 0 + 1 <= C.INT_MAX) by (unfold C.INT_MAX; lia).
  pose proof (libc_rand_in_range 0 roomy 1 0%nat) as Hr.
  split; [lia|]. split; [lia|]. split; [simpl; lia|]. split; [assumption|].
  split; [assumption|]. split; [exact Hr|].
  exact (proj1 (choose_random_pivot_in_bounds (libc 0 roomy) 0 0 3 (boot four_integers)
                  ltac:(lia) ltac:(lia) ltac:(simpl; lia) Haddr Hlen Hr)).
Defined.


(** ** What the operations cost and leave alone *)

Section Costs.

Context {A : Type}.
Variable compar : A -> A -> Z.
Implicit Types (w : world A) (pre suf seg : list A).

Lemma swap_inv a b w w' :
  swap a b w = Ok tt w' ->
  exists x y,
    0 <= a /\ 0 <= b
    /\ mem w !! Z.to_nat a = Some x /\ mem w !! Z.to_nat b = Some y
    /\ w' = set_mem w (<[Z.to_nat b := x]> (<[Z.to_nat a := y]> (mem w))).
Proof.
  intros H.
  destruct (Z.ltb_spec a 0) as [Ha|Ha].
  { unfold swap, bind, load in H. destruct (Z.ltb_spec a 0); [discriminate|lia]. }
  destruct (mem w !! Z.to_nat a) as [x|] eqn:Hx.
  2:{ unfold swap, bind, load in H. destruct (Z.ltb_spec a 0); [discriminate|].
      rewrite Hx in H. discriminate. }
  unfold swap in H. rewrite (bind_Ok _ _ _ _ _ (load_at w a x Ha Hx)) in H.
  destruct (Z.ltb_spec b 0) as [Hb|Hb].
  { unfold bind, load in H. destruct (Z.ltb_spec b 0); [discriminate|lia]. }
  destruct (mem w !! Z.to_nat b) as [y|] eqn:Hy.
  2:{ unfold bind, load in H. destruct (Z.ltb_spec b 0); [discriminate|].
      rewrite Hy in H. discriminate. }
  exists x, y. repeat (split; [assumption|]).
  rewrite (bind_Ok _ _ _ _ _ (load_at w b y Hb Hy)) in H.
  apply lookup_lt_Some in Hx as Hla. apply lookup_lt_Some in Hy as Hlb.
  rewrite (bind_Ok _ _ _ _ _ (store_at w a y ltac:(lia))) in H.
  rewrite store_at in H by (simpl; rewrite length_insert; lia).
  now injection H as <-.
Qed.

Lemma slice_cons (l : list A) n m x :
  l !! n = Some x -> slice n (S m) l = x :: slice (S n) m l.
Proof. intros H. unfold slice. now rewrite (drop_S l x n H). Qed.

Lemma slice_insert_before (l : list A) i x n m :
  (i < n)%nat -> slice n m (<[i := x]> l) = slice n m l.
Proof. intros H. unfold slice. now rewrite drop_insert_lt by lia. Qed.

(** The scan compares the cells from [j] on with the pivot, one after the
    other, as it finds them on entry, and does nothing else to observe. *)
Lemma partition_loop_comparisons base high pivot : forall n i j w r w',
  partition_loop n base high compar pivot i j w = Ok r w' ->
  0 <= base + i -> 0 <= i <= j -> j <= high -> high < 2 ^ 64 ->
  trace w' = trace w ++ map (fun x => Compar x pivot)
                            (slice (Z.to_nat (base + j)) (Z.to_nat (high - j)) (mem w))
  /\ same_libc w w'.
Proof.
  induction n as [|n IH]; intros i j w r w' H Hb Hi Hj Hmax; cbn [partition_loop] in H.
  - destruct (Z.ltb_spec j high); [discriminate|]. injection H as <- <-.
    replace (Z.to_nat (high - j)) with 0%nat by lia. unfold slice. rewrite take_0. simpl.
    now rewrite app_nil_r.
  - destruct (Z.ltb_spec j high).
    2:{ injection H as <- <-. replace (Z.to_nat (high - j)) with 0%nat by lia.
        unfold slice. rewrite take_0. simpl. now rewrite app_nil_r. }
    unfold bind at 1, load at 1 in H.
    destruct (Z.ltb_spec (base + j) 0); [lia|].
    destruct (mem w !! Z.to_nat (base + j)) as [bj|] eqn:Hbj; [|discriminate].
    rewrite (bind_Ok _ _ _ _ _ (call_Ok _ _ _ _)) in H.
    rewrite !add_small in H by lia.
    replace (Z.to_nat (high - j)) with (S (Z.to_nat (high - (j + 1)))) by lia.
    rewrite (slice_cons _ _ _ _ Hbj).
    replace (S (Z.to_nat (base + j))) with (Z.to_nat (base + (j + 1))) by lia.
    destruct (compar bj pivot <? 0).
    + unfold bind at 1 in H.
      destruct (swap (base + i) (base + j) (log w (Compar bj pivot))) as [[] w1| | |] eqn:Hs;
        try discriminate.
      apply swap_inv in Hs as (x & y & _ & _ & _ & _ & ->).
      apply IH in H as [Ht Hf]; try lia. simpl in Ht, Hf.
      rewrite !slice_insert_before in Ht by lia.
      split; [rewrite Ht; list_norm | exact Hf].
    + apply IH in H as [Ht Hf]; try lia. simpl in Ht, Hf.
      split; [rewrite Ht; list_norm | exact Hf].
Qed.

Lemma partition_comparisons base low high w r w' :
  partition base low high compar w = Ok r w' ->
  0 <= base + low -> 0 <= low <= high -> high < 2 ^ 64 ->
  exists pivot,
    mem w !! Z.to_nat (base + high) = Some pivot
    /\ trace w' = trace w ++ map (fun x => Compar x pivot)
                               (slice (Z.to_nat (base + low)) (Z.to_nat (high - low)) (mem w))
    /\ same_libc w w'.
Proof.
  unfold partition. unfold bind at 1, load at 1. intros H Hb Hl Hmax.
  destruct (Z.ltb_spec (base + high) 0); [lia|].
  destruct (mem w !! Z.to_nat (base + high)) as [pivot|]; [|discriminate].
  exists pivot. split; [reflexivity|].
  unfold bind at 1 in H.
  destruct (partition_loop _ base high compar pivot low low w) as [i w1| | |] eqn:Hloop;
    try discriminate.
  apply partition_loop_comparisons in Hloop as [Ht Hf]; try lia.
  unfold bind at 1 in H.
  destruct (swap (base + i) (base + high) w1) as [[] w2| | |] eqn:Hs; try discriminate.
  apply swap_inv in Hs as (x & y & _ & _ & _ & _ & ->). injection H as <- <-.
  split; assumption.
Qed.

Lemma bind_inv {X Y : Type} (m : M A X) (k : X -> M A Y) w r w' :
  bind m k w = Ok r w' -> exists v w1, m w = Ok v w1 /\ k v w1 = Ok r w'.
Proof. unfold bind. destruct (m w); try discriminate. eauto. Qed.

Lemma load_inv p w x w' :
  load p w = Ok x w' -> w' = w /\ 0 <= p /\ mem w !! Z.to_nat p = Some x.
Proof.
  unfold load. destruct (Z.ltb_spec p 0) as [Hp|Hp]; [discriminate|].
  destruct (mem w !! Z.to_nat p); [|discriminate]. intros H. injection H as <- <-. auto.
Qed.

Lemma temp_store_inv cap temp k x w temp' w' :
  temp_store cap temp k x w = Ok temp' w' -> w' = w.
Proof.
  unfold temp_store, ret, fault.
  repeat match goal with |- context [if ?b then _ else _] => destruct b end;
    intros H; try discriminate; now injection H.
Qed.

(** The comparisons of the merging loop: each one takes its first argument
    from what is left of the left run and its second from what is left of
    the right run, and each one moves one of the two cursors by one. *)
Lemma merge_loop_comparisons base nitems middle_i cap :
  forall n i j k temp w i' j' k' temp' w',
  merge_loop n base nitems middle_i compar cap i j k temp w = Ok (i', j', k', temp') w' ->
  0 <= base -> 0 <= i <= middle_i -> middle_i <= j <= nitems -> nitems < 2 ^ 64 ->
  mem w' = mem w /\ same_libc w w'
  /\ exists t,
      trace w' = trace w ++ t
      /\ Forall (fun e => exists x y p q,
                   e = Compar x y /\ i <= p < middle_i /\ j <= q < nitems
                   /\ mem w !! Z.to_nat (base + p) = Some x
                   /\ mem w !! Z.to_nat (base + q) = Some y) t
      /\ Z.of_nat (length t) = (i' - i) + (j' - j)
      /\ i <= i' <= middle_i /\ j <= j' <= nitems
      /\ (i' = middle_i \/ j' = nitems)
      /\ (t <> [] -> i' < middle_i \/ j' < nitems).
Proof.
  induction n as [|n IH]; intros i j k temp w i' j' k' temp' w' H Hb Hi Hj Hmax;
    cbn [merge_loop] in H.
  - destruct (Z.ltb_spec i middle_i); destruct (Z.ltb_spec j nitems); cbn [andb] in H;
      try discriminate; injection H as <- <- <- <- <-;
      (split; [reflexivity|]); (split; [repeat split|]);
      exists []; rewrite app_nil_r;
      (split; [reflexivity|]); (split; [constructor|]); (split; [simpl; lia|]);
      (split; [lia|]); (split; [lia|]); (split; [lia|congruence]).
  - destruct (Z.ltb_spec i middle_i); destruct (Z.ltb_spec j nitems); cbn [andb] in H.
    2-4: injection H as <- <- <- <- <-;
      (split; [reflexivity|]); (split; [repeat split|]);
      exists []; rewrite app_nil_r;
      (split; [reflexivity|]); (split; [constructor|]); (split; [simpl; lia|]);
      (split; [lia|]); (split; [lia|]); (split; [lia|congruence]).
    apply bind_inv in H as (bi & w1 & Hl & H). apply load_inv in Hl as (-> & _ & Hbi).
    apply bind_inv in H as (bj & w1 & Hl & H). apply load_inv in Hl as (-> & _ & Hbj).
    rewrite (bind_Ok _ _ _ _ _ (call_Ok _ _ _ _)) in H.
    assert (Hhere : exists x y p q,
               Compar bi bj = Compar x y /\ i <= p < middle_i /\ j <= q < nitems
               /\ mem w !! Z.to_nat (base + p) = Some x
               /\ mem w !! Z.to_nat (base + q) = Some y).
    { exists bi, bj, i, j. repeat split; try assumption; lia. }
    destruct (compar bi bj <=? 0);
      apply bind_inv in H as (temp1 & w1 & Hs & H); apply temp_store_inv in Hs as ->;
      rewrite !add_small in H by lia;
      apply IH in H as (Hm & Hf & t & Ht & Hall & Hlen & Hi' & Hj' & Hend & Hlast); try lia.
    all: simpl in Hm, Hf, Ht, Hall.
    all: (split; [exact Hm|]); (split; [exact Hf|]).
    all: exists (Compar bi bj :: t).
    all: (split; [rewrite Ht; list_norm|]).
    all: split.
    1,3: constructor; [exact Hhere|].
    1,2: eapply Forall_impl; [exact Hall|].
    1,2: intros e (x & y & p & q & -> & Hp & Hq & Hx & Hy).
    1,2: exists x, y, p, q; repeat split; try assumption; try lia.
    all: (split; [simpl length; lia|]).
    all: (split; [lia|]); (split; [lia|]); (split; [exact Hend|]).
    all: intros _; destruct t as [|e t]; [simpl in Hlen; lia | apply Hlast; discriminate].
Qed.

Lemma drain_loop_inv base bound cap : forall n c k temp w r w',
  drain_loop n base bound cap c k temp w = Ok r w' -> w' = w.
Proof.
  induction n as [|n IH]; intros c k temp w r w' H; cbn [drain_loop] in H.
  - destruct (c <? bound); [discriminate|]. now injection H.
  - destruct (c <? bound); [|now injection H].
    apply bind_inv in H as (bc & w1 & Hl & H). apply load_inv in Hl as (-> & _ & _).
    apply bind_inv in H as (temp1 & w1 & Hs & H). apply temp_store_inv in Hs as ->.
    now apply IH in H.
Qed.

Lemma memcpy_inv base temp cap bytes w w' :
  memcpy base temp cap bytes w = Ok tt w' ->
  trace w' = trace w /\ same_libc w w'.
Proof.
  unfold memcpy. match goal with |- context [if ?b then _ else _] => destruct b end;
    intros H; [|discriminate]. injection H as <-. repeat split.
Qed.

End Costs.

(** ** What merging and mergesort cost *)

Section MergeCosts.

Context {A : Type}.
Variable E : environment.
Variable compar : A -> A -> Z.
Implicit Types (w : world A) (pre suf seg : list A).

Lemma lookup_run (pre l suf : list A) p x :
  (pre ++ l ++ suf) !! (length pre + p)%nat = Some x -> (p < length l)%nat -> x ∈ l.
Proof.
  intros H Hp. rewrite lookup_app_r in H by lia.
  replace (length pre + p - length pre)%nat with p in H by lia.
  rewrite lookup_app_l in H by lia. eapply list_elem_of_lookup_2; eassumption.
Qed.

Lemma merge_account base nitems middle_i w w' pre left right suf :
  merge E base nitems middle_i compar w = Ok tt w' ->
  mem w = pre ++ left ++ right ++ suf ->
  base = Z.of_nat (length pre) ->
  middle_i = Z.of_nat (length left) ->
  nitems = Z.of_nat (length left + length right) ->
  nitems < 2 ^ 64 ->
  allocs w' = S (allocs w) /\ rng_seed w' = rng_seed w /\ rng_pos w' = rng_pos w
  /\ exists t,
      trace w' = trace w ++ t
      /\ Forall (fun e => exists x y, e = Compar x y /\ x ∈ left /\ y ∈ right) t
      /\ (Nat.min (length left) (length right) <= length t
          <= Nat.pred (length left + length right))%nat.
Proof.
  intros H Hm Hb Hmid Hn Hmax. unfold merge in H.
  apply bind_inv in H as (temp & w1 & Hmal & H).
  unfold malloc in Hmal. destruct (heap_ok E (allocs w)); injection Hmal as <- <-.
  2:{ unfold bind, eprint, emit, exit in H. discriminate. }
  apply bind_inv in H as ([[[i j] k] temp1] & w2 & Hloop & H). cbv beta iota in H.
  apply merge_loop_comparisons in Hloop
    as (Hm2 & (Hs2 & Hp2 & Ha2) & t & Ht & Hall & Hlen & Hi & Hj & Hend & Hlast); try lia.
  apply bind_inv in H as ([[i2 k2] temp2] & w3 & Hd1 & H). cbv beta iota in H.
  apply drain_loop_inv in Hd1 as ->.
  apply bind_inv in H as ([[j3 k3] temp3] & w3 & Hd2 & H). cbv beta iota in H.
  apply drain_loop_inv in Hd2 as ->.
  apply memcpy_inv in H as (Ht5 & Hs5 & Hp5 & Ha5). simpl in *.
  split; [congruence|]. split; [congruence|]. split; [congruence|].
  exists t. split; [congruence|]. split.
  - eapply Forall_impl; [exact Hall|].
    intros e (x & y & p & q & -> & Hp & Hq & Hx & Hy). exists x, y. split; [reflexivity|].
    rewrite Hm in Hx, Hy. split.
    + apply (lookup_run pre left (right ++ suf) (Z.to_nat p)); [|lia].
      replace (length pre + Z.to_nat p)%nat with (Z.to_nat (base + p)) by lia. exact Hx.
    + apply (lookup_run (pre ++ left) right suf (Z.to_nat q - length left)); [|lia].
      rewrite length_app, <- app_assoc.
      replace (length pre + length left + (Z.to_nat q - length left))%nat
        with (Z.to_nat (base + q)) by lia.
      exact Hy.
  - destruct t as [|e t]; [simpl in *; lia|].
    specialize (Hlast ltac:(discriminate)). simpl length in *. lia.
Qed.

Lemma half_pow n k :
  1 < n -> n <= 2 ^ Z.of_nat k ->
  exists k', k = S k' /\ n / 2 <= 2 ^ Z.of_nat k' /\ n - n / 2 <= 2 ^ Z.of_nat k'.
Proof.
  intros Hn Hk. destruct k as [|k']; [simpl in Hk; lia|]. exists k'. split; [reflexivity|].
  rewrite Nat2Z.inj_succ, Z.pow_succ_r in Hk by lia.
  pose proof (Z.div_mod n 2 ltac:(lia)). pose proof (Z.mod_pos_bound n 2 ltac:(lia)). lia.
Qed.

(** What a run of [merge_sort_rec] that returns has done besides permuting
    its range: one allocation for every merge, no use of the generator, and
    comparisons between references of the range only. *)
Lemma merge_sort_rec_account : forall fuel k base nitems w w' pre seg suf,
  merge_sort_rec E fuel base nitems compar w = Ok tt w' ->
  mem w = pre ++ seg ++ suf ->
  base = Z.of_nat (length pre) ->
  nitems = Z.of_nat (length seg) ->
  nitems * C.sizeof_ptr < 2 ^ 64 ->
  (length seg < fuel)%nat ->
  nitems <= 2 ^ Z.of_nat k ->
  allocs w' = (allocs w + Nat.pred (length seg))%nat
  /\ rng_seed w' = rng_seed w /\ rng_pos w' = rng_pos w
  /\ exists t,
      trace w' = trace w ++ t
      /\ Forall (fun e => exists x y, e = Compar x y /\ x ∈ seg /\ y ∈ seg) t
      /\ (length t <= length seg * k)%nat.
Proof.
  induction fuel as [|fuel IH];
    intros k base nitems w w' pre seg suf H Hm Hb Hn Hfit Hfuel Hk; [lia|].
  cbn [merge_sort_rec] in H. destruct (Z.ltb_spec 1 nitems) as [Hbig|Hsmall].
  - pose proof (half_bounds nitems Hbig) as Hhalf.
    destruct (half_pow nitems k Hbig Hk) as (k' & -> & Hk1 & Hk2).
    set (m := Z.to_nat (nitems / 2)) in *.
    assert (Hsplit : seg = take m seg ++ drop m seg) by now rewrite take_drop.
    assert (Hlt : length (take m seg) = m) by (rewrite length_take; lia).
    assert (Hld : (length (drop m seg) = length seg - m)%nat) by now rewrite length_drop.
    unfold C.sizeof_ptr in Hfit.
    apply bind_inv in H as ([] & w1 & H1 & H).
    apply bind_inv in H as ([] & w2 & H2 & H).
    rewrite sub_small in H2 by lia.
    pose proof (merge_sort_rec_spec E compar fuel base (nitems / 2) w pre (take m seg)
                  (drop m seg ++ suf)) as S1.
    rewrite H1 in S1. destruct S1 as (left' & Hm1 & Hp1 & _);
      [ rewrite Hm; rewrite Hsplit at 1; list_norm | lia | lia | unfold C.sizeof_ptr; lia | lia | ].
    apply Permutation_length in Hp1 as Hlen1.
    pose proof (merge_sort_rec_spec E compar fuel (base + nitems / 2) (nitems - nitems / 2)
                  w1 (pre ++ left') (drop m seg) suf) as S2.
    rewrite H2 in S2. destruct S2 as (right' & Hm2 & Hp2 & _);
      [ rewrite Hm1; list_norm | len | len | unfold C.sizeof_ptr; lia | lia | ].
    apply Permutation_length in Hp2 as Hlen2.
    apply (IH k' _ _ _ _ pre (take m seg) (drop m seg ++ suf)) in H1
      as (Ha1 & Hs1 & Hr1 & t1 & Ht1 & Hall1 & Hc1);
      [ | rewrite Hm; rewrite Hsplit at 1; list_norm | lia | lia
        | unfold C.sizeof_ptr; lia | lia | lia ].
    apply (IH k' _ _ _ _ (pre ++ left') (drop m seg) suf) in H2
      as (Ha2 & Hs2 & Hr2 & t2 & Ht2 & Hall2 & Hc2);
      [ | rewrite Hm1; list_norm | len | len | unfold C.sizeof_ptr; lia | lia | lia ].
    apply (merge_account _ _ _ _ _ pre left' right' suf) in H
      as (Ha3 & Hs3 & Hr3 & t3 & Ht3 & Hall3 & Hc3);
      [ | rewrite Hm2; list_norm | lia | lia | lia | lia ].
    split; [lia|]. split; [congruence|]. split; [congruence|].
    exists (t1 ++ t2 ++ t3). split; [rewrite Ht3, Ht2, Ht1; list_norm|]. split.
    + rewrite !Forall_app. repeat split.
      * eapply Forall_impl; [exact Hall1|]. intros e (x & y & -> & Hx & Hy).
        exists x, y. split; [reflexivity|]. rewrite Hsplit, !elem_of_app. auto.
      * eapply Forall_impl; [exact Hall2|]. intros e (x & y & -> & Hx & Hy).
        exists x, y. split; [reflexivity|]. rewrite Hsplit, !elem_of_app. auto.
      * eapply Forall_impl; [exact Hall3|]. intros e (x & y & -> & Hx & Hy).
        exists x, y. split; [reflexivity|]. rewrite Hp1 in Hx. rewrite Hp2 in Hy.
        rewrite Hsplit, !elem_of_app. auto.
    + rewrite !length_app. nia.
  - injection H as <-. split; [lia|]. split; [reflexivity|]. split; [reflexivity|].
    exists []. rewrite app_nil_r. split; [reflexivity|]. split; [constructor|simpl; lia].
Qed.

End MergeCosts.

(** ** What quicksort costs *)

Section QuickCosts.

Context {A : Type}.
Variable E : environment.
Variable compar : A -> A -> Z.
Hypothesis Hrand : rand_in_range E.
Implicit Types (w : world A) (pre suf seg : list A) (t : list (event A)).

Lemma comparisons_app t1 t2 : comparisons (t1 ++ t2) = (comparisons t1 + comparisons t2)%nat.
Proof. unfold comparisons. now rewrite filter_app, length_app. Qed.

Lemma comparisons_map (p : A) l : comparisons (map (fun x => Compar x p) l) = length l.
Proof.
  unfold comparisons. induction l as [|x l IH]; [reflexivity|].
  simpl map. rewrite filter_cons_True by reflexivity. simpl. now rewrite IH.
Qed.

Lemma within_perm seg seg' e : seg' ≡ₚ seg -> within seg' e -> within seg e.
Proof. intros Hp. destruct e; simpl; try tauto. now rewrite Hp. Qed.

Lemma within_incl seg seg' e : seg' ⊆ seg -> within seg' e -> within seg e.
Proof. intros Hs. destruct e; simpl; try tauto. intros [? ?]. split; now apply Hs. Qed.

Lemma int_rem_inv r m w off w' : int_rem r m w = Ok off w' -> w' = w.
Proof.
  unfold int_rem, fault, ret.
  repeat match goal with |- context [if ?b then _ else _] => destruct b end;
    intros H; try discriminate; now injection H.
Qed.

Lemma choose_random_pivot_inv base low high w w' :
  choose_random_pivot E base low high w = Ok tt w' ->
  trace w' = trace w /\ allocs w' = allocs w /\ rng_seed w' = rng_seed w
  /\ rng_pos w' = S (rng_pos w).
Proof.
  unfold choose_random_pivot. intros H.
  apply bind_inv in H as (r & w1 & Hr & H). unfold rand in Hr. injection Hr as <- <-.
  apply bind_inv in H as (off & w1 & Ho & H). apply int_rem_inv in Ho as ->.
  apply swap_inv in H as (x & y & _ & _ & _ & _ & ->). repeat split.
Qed.

(** What a run of [quick_sort_rec] that returns has done besides permuting
    its range: no allocation, one draw for every range of two or more
    cells, nothing printed, and comparisons between references of the range
    only, fewer than one for every pair of cells. *)
Lemma quick_sort_rec_account : forall fuel base low high w w' pre seg suf,
  quick_sort_rec E fuel base low high compar w = Ok tt w' ->
  mem w = pre ++ seg ++ suf ->
  base + low = Z.of_nat (length pre) ->
  high + 1 = low + Z.of_nat (length seg) ->
  0 <= low -> high + 1 < 2 ^ 64 ->
  (length seg < fuel)%nat ->
  allocs w' = allocs w /\ rng_seed w' = rng_seed w
  /\ (rng_pos w <= rng_pos w' <= rng_pos w + Nat.pred (length seg))%nat
  /\ exists t,
      trace w' = trace w ++ t
      /\ Forall (within seg) t
      /\ 2 * Z.of_nat (comparisons t) <= Z.of_nat (length seg) * (Z.of_nat (length seg) - 1).
Proof.
  induction fuel as [|fuel IH];
    intros base low high w w' pre seg suf H Hm Hlow Hhigh H0 Hmax Hfuel; [lia|].
  cbn [quick_sort_rec] in H. unfold bind at 1, emit at 1 in H.
  destruct (Z.ltb_spec low high) as [Hlt|Hge].
  - apply bind_inv in H as ([] & w1 & Hc & H).
    pose proof (choose_random_pivot_spec E Hrand base low high
                  (log w (Enter_quick_sort_rec low high)) pre seg suf Hm Hlow Hhigh
                  ltac:(lia) Hmax) as Sc.
    rewrite Hc in Sc. destruct Sc as (seg1 & Hm1 & Hp1 & _).
    apply choose_random_pivot_inv in Hc as (Ht1 & Ha1 & Hs1 & Hr1). simpl in Ht1, Ha1, Hs1, Hr1.
    apply Permutation_length in Hp1 as Hlen1.
    destruct seg1 as [|p mid _] using rev_ind; [simpl in Hlen1; lia|].
    rewrite length_app in Hlen1. simpl in Hlen1.
    destruct (partition_spec compar base low high w1 pre mid p suf)
      as (w2 & lts & ges & Hpart & Hm2 & Hl & Hg & Hp2); try lia.
    { rewrite Hm1. list_norm. }
    rewrite (bind_Ok _ _ _ _ _ Hpart) in H.
    apply Permutation_length in Hp2 as Hlen2. rewrite length_app in Hlen2.
    apply partition_comparisons in Hpart as (p' & Hpv & Ht2 & Hs2 & Hr2 & Ha2); try lia.
    assert (Hmid : slice (Z.to_nat (base + low)) (Z.to_nat (high - low)) (mem w1) = mid).
    { rewrite Hm1, <- app_assoc. replace (Z.to_nat (base + low)) with (length pre) by lia.
      apply slice_middle. lia. }
    assert (p' = p) as ->.
    { rewrite Hm1 in Hpv. rewrite app_assoc in Hpv.
      rewrite lookup_app_l in Hpv by len. rewrite lookup_app_r in Hpv by len.
      rewrite lookup_app_r in Hpv by len.
      replace (Z.to_nat (base + high) - length pre - length mid)%nat with 0%nat in Hpv by lia.
      simpl in Hpv. congruence. }
    rewrite Hmid in Ht2.
    assert (Hscan : Forall (within seg) (map (fun x => Compar x p) mid)).
    { apply Forall_forall. intros e He. apply list_elem_of_fmap in He as (x & -> & Hx).
      unfold within. rewrite <- Hp1, !elem_of_app, !list_elem_of_singleton. auto. }
    assert (Hinl : lts ⊆ seg).
    { intros x Hx. rewrite <- Hp1, <- Hp2, !elem_of_app. auto. }
    assert (Hinr : ges ⊆ seg).
    { intros x Hx. rewrite <- Hp1, <- Hp2, !elem_of_app. auto. }
    apply bind_inv in H as ([] & w3 & Hleft & H).
    assert (Hl3 : exists lts',
               mem w3 = pre ++ lts' ++ p :: ges ++ suf /\ lts' ≡ₚ lts
               /\ allocs w3 = allocs w2 /\ rng_seed w3 = rng_seed w2
               /\ (rng_pos w2 <= rng_pos w3 <= rng_pos w2 + Nat.pred (length lts))%nat
               /\ exists t, trace w3 = trace w2 ++ t /\ Forall (within lts) t
                  /\ 2 * Z.of_nat (comparisons t)
                     <= Z.of_nat (length lts) * (Z.of_nat (length lts) - 1)).
    { destruct (Z.ltb_spec 0 (low + Z.of_nat (length lts))).
      - rewrite sub_small in Hleft by lia.
        pose proof (quick_sort_rec_spec E compar Hrand fuel base low
                      (low + Z.of_nat (length lts) - 1) w2 pre lts (p :: ges ++ suf)) as S3.
        rewrite Hleft in S3. destruct S3 as (lts' & Hm3 & Hp3 & _); try assumption; try lia.
        exists lts'. split; [assumption|]. split; [assumption|].
        apply (IH _ _ _ _ _ pre lts (p :: ges ++ suf)) in Hleft; try assumption; lia.
      - injection Hleft as <-. exists lts. destruct lts; [|simpl in *; lia].
        repeat (split; [first [assumption | reflexivity | simpl; lia]|]).
        exists []. rewrite app_nil_r. split; [reflexivity|]. split; [constructor|].
        change (comparisons (@nil (event A))) with 0%nat. simpl. lia. }
    destruct Hl3 as (lts' & Hm3 & Hp3 & Ha3 & Hs3 & Hr3 & t3 & Ht3 & Hall3 & Hc3).
    apply Permutation_length in Hp3 as Hlen3.
    rewrite add_small in H by lia.
    apply (IH _ _ _ _ _ (pre ++ lts' ++ [p]) ges suf) in H
      as (Ha4 & Hs4 & Hr4 & t4 & Ht4 & Hall4 & Hc4);
      [ | rewrite Hm3; list_norm | len .. ].
    split; [congruence|]. split; [congruence|]. split; [lia|].
    exists ([Enter_quick_sort_rec low high] ++ map (fun x => Compar x p) mid ++ t3 ++ t4).
    split; [rewrite Ht4, Ht3, Ht2, Ht1; list_norm|]. split.
    + rewrite !Forall_app. repeat split.
      * repeat constructor.
      * exact Hscan.
      * eapply Forall_impl; [exact Hall3|]. intros e. now apply within_incl.
      * eapply Forall_impl; [exact Hall4|]. intros e. now apply within_incl.
    + rewrite !comparisons_app, comparisons_map.
      change (comparisons [Enter_quick_sort_rec low high]) with 0%nat. nia.
  - injection H as <-. simpl. split; [reflexivity|]. split; [reflexivity|]. split; [lia|].
    exists [Enter_quick_sort_rec low high]. split; [reflexivity|].
    split; [repeat constructor|].
    change (comparisons [Enter_quick_sort_rec low high]) with 0%nat. nia.
Qed.

End QuickCosts.

(** ** Further properties of the engine *)

Section StableSort.

Context {A : Type}.
Variable compar : A -> A -> Z.
Hypothesis Hord : total_preorder compar.

Lemma tie_refl x : compar x x = 0.
Proof. pose proof (compar_sign _ Hord x x). lia. Qed.

Lemma le_by_antisym_tie x y : le_by compar x y -> le_by compar y x -> compar x y = 0.
Proof. unfold le_by. intros Hxy Hyx. pose proof (compar_sign _ Hord x y). lia. Qed.

Lemma sorted_head_least x l y : sorted_by compar (x :: l) -> y ∈ x :: l -> le_by compar x y.
Proof.
  intros Hs Hy. apply StronglySorted_inv in Hs as [_ Hall].
  apply elem_of_cons in Hy as [->|Hy]; [apply le_by_refl, Hord|].
  rewrite Forall_forall in Hall. now apply Hall.
Qed.

(** A sequence has one sorted arrangement in which ties keep their order. *)
Lemma stable_sort_unique : forall l1 l2 : list A,
  sorted_by compar l1 -> sorted_by compar l2 ->
  (forall x, filter (fun y => compar x y = 0) l1 = filter (fun y => compar x y = 0) l2) ->
  l1 = l2.
Proof.
  induction l1 as [|a t1 IH]; intros l2 S1 S2 H.
  - destruct l2 as [|b t2]; [reflexivity|].
    specialize (H b). rewrite filter_cons_True in H by apply tie_refl. discriminate.
  - destruct l2 as [|b t2].
    { specialize (H a). rewrite filter_cons_True in H by apply tie_refl. discriminate. }
    assert (Hab : compar a b = 0).
    { apply le_by_antisym_tie.
      - apply (sorted_head_least a t1 b S1).
        assert (Hb : b ∈ filter (fun y => compar b y = 0) (b :: t2)).
        { rewrite filter_cons_True by apply tie_refl. left. }
        rewrite <- H in Hb. now apply list_elem_of_filter in Hb.
      - apply (sorted_head_least b t2 a S2).
        assert (Ha : a ∈ filter (fun y => compar a y = 0) (a :: t1)).
        { rewrite filter_cons_True by apply tie_refl. left. }
        rewrite H in Ha. now apply list_elem_of_filter in Ha. }
    assert (a = b) as ->.
    { pose proof (H a) as Ha. rewrite filter_cons_True in Ha by apply tie_refl.
      rewrite filter_cons_True in Ha by exact Hab. congruence. }
    f_equal. apply StronglySorted_inv in S1 as [S1 _]. apply StronglySorted_inv in S2 as [S2 _].
    apply IH; try assumption.
    intros x. specialize (H x). rewrite !filter_cons in H.
    destruct (decide (compar x b = 0)); congruence.
Qed.

End StableSort.

Section Further.

Context {A : Type}.
Implicit Types (w : world A) (pre suf seg : list A).

Lemma merge_sort_returns (E : environment) (compar : A -> A -> Z) fuel w pre seg suf :
  (forall n, (allocs w <= n)%nat -> heap_ok E n = true) ->
  mem w = pre ++ seg ++ suf -> addressable (mem w) -> (length seg < fuel)%nat ->
  exists w' seg',
    merge_sort E fuel (Some (Z.of_nat (length pre))) (Z.of_nat (length seg)) (Some compar) w
    = Ok tt w'
    /\ mem w' = pre ++ seg' ++ suf /\ seg' ≡ₚ seg
    /\ (total_preorder compar -> sorted_by compar seg' /\ stable compar seg seg').
Proof.
  intros Hheap Hm Haddr Hfuel.
  pose proof (merge_sort_spec E compar fuel w pre seg suf Hm Haddr Hfuel) as H.
  destruct (merge_sort E fuel _ _ _ w) as [[] w'|st w'| |]; simpl in H; try contradiction.
  - destruct H as (seg' & Hm' & Hp & Hs & _). exists w', seg'. auto.
  - destruct H as (seg' & _ & _ & _ & Hlt & Hfail & _).
    rewrite Hheap in Hfail by lia. discriminate.
Qed.

(** The depth of the recursion of [merge_sort_rec] on [nitems <= 2^k] cells
    is at most [k + 1]: any more fuel changes nothing. *)
Lemma merge_sort_rec_depth (E : environment) (compar : A -> A -> Z) :
  forall k fuel fuel' base nitems w,
  nitems <= 2 ^ Z.of_nat k -> nitems < 2 ^ 64 -> (k < fuel)%nat -> (k < fuel')%nat ->
  merge_sort_rec E fuel base nitems compar w = merge_sort_rec E fuel' base nitems compar w.
Proof.
  induction k as [|k IH]; intros fuel fuel' base nitems w Hk Hmax Hf Hf';
    (destruct fuel as [|fuel]; [lia|]); (destruct fuel' as [|fuel']; [lia|]);
    cbn [merge_sort_rec]; destruct (Z.ltb_spec 1 nitems) as [Hbig|Hsmall];
    try reflexivity.
  - simpl in Hk. lia.
  - pose proof (half_bounds nitems Hbig) as Hhalf.
    destruct (half_pow nitems (S k) Hbig Hk) as (k' & [= <-] & Hk1 & Hk2).
    unfold bind. rewrite (IH fuel fuel' base (nitems / 2) w) by lia.
    destruct (merge_sort_rec E fuel' base (nitems / 2) compar w) as [[] w1| | |];
      try reflexivity.
    rewrite sub_small by lia.
    rewrite (IH fuel fuel' (base + nitems / 2) (nitems - nitems / 2) w1) by lia.
    reflexivity.
Qed.

(** X1 (merge): given two sorted runs side by side, and memory for the
    scratch buffer, [merge] returns with the range sorted; it holds the
    references of the two runs, and among references that tie those of the
    left run come first, each run in its own order. *)
Theorem merge_joins_sorted_runs (E : environment) (compar : A -> A -> Z) w pre left right suf :
  total_preorder compar ->
  heap_ok E (allocs w) = true ->
  mem w = pre ++ left ++ right ++ suf -> addressable (mem w) ->
  sorted_by compar left -> sorted_by compar right ->
  exists w' seg',
    merge E (Z.of_nat (length pre)) (Z.of_nat (length left + length right))
      (Z.of_nat (length left)) compar w = Ok tt w'
    /\ mem w' = pre ++ seg' ++ suf
    /\ seg' ≡ₚ left ++ right
    /\ sorted_by compar seg'
    /\ stable compar (left ++ right) seg'.
Proof.
  intros Hord Hheap Hm Haddr Hl Hr. apply addressable_fits in Haddr.
  rewrite Hm, !length_app in Haddr.
  destruct (merge_spec E compar (Z.of_nat (length pre)) (Z.of_nat (length left + length right))
              (Z.of_nat (length left)) w pre left right suf)
    as (w' & Hrun & Hm' & _); try assumption; try reflexivity.
  { unfold C.sizeof_ptr. lia. }
  exists w', (merge_lists compar left right).
  split; [assumption|]. split; [assumption|].
  split; [apply merge_lists_perm|].
  split; [now apply merge_lists_sorted|].
  intros x. rewrite filter_app. now apply merge_lists_stable.
Qed.

(** X2 (merge_sort is the stable sort): when its allocations succeed,
    [merge_sort] called with a total preorder returns the one arrangement
    of the sequence that is sorted and keeps ties in their order: every
    sorted sequence in which each class of ties reads as in the input is
    the sequence it leaves. *)
Theorem merge_sort_is_the_stable_sort (E : environment) (compar : A -> A -> Z)
    fuel w pre seg suf :
  total_preorder compar ->
  (forall n, (allocs w <= n)%nat -> heap_ok E n = true) ->
  mem w = pre ++ seg ++ suf -> addressable (mem w) -> (length seg < fuel)%nat ->
  exists w' seg',
    merge_sort E fuel (Some (Z.of_nat (length pre))) (Z.of_nat (length seg)) (Some compar) w
    = Ok tt w'
    /\ mem w' = pre ++ seg' ++ suf
    /\ forall l, sorted_by compar l -> stable compar seg l -> l = seg'.
Proof.
  intros Hord Hheap Hm Haddr Hfuel.
  destruct (merge_sort_returns E compar fuel w pre seg suf Hheap Hm Haddr Hfuel)
    as (w' & seg' & Hrun & Hm' & _ & Hs).
  destruct (Hs Hord) as [Hsorted Hstable].
  exists w', seg'. split; [assumption|]. split; [assumption|].
  intros l Hl Hst. apply (stable_sort_unique compar Hord); try assumption.
  intros x. now rewrite Hst, Hstable.
Qed.

(** X3 (merge_sort on a sorted sequence): when its allocations succeed,
    [merge_sort] called with a total preorder on a sequence that is sorted
    already returns with the array exactly as it was, ties included. *)
Theorem merge_sort_keeps_sorted_input (E : environment) (compar : A -> A -> Z)
    fuel w pre seg suf :
  total_preorder compar ->
  (forall n, (allocs w <= n)%nat -> heap_ok E n = true) ->
  mem w = pre ++ seg ++ suf -> addressable (mem w) -> (length seg < fuel)%nat ->
  sorted_by compar seg ->
  exists w',
    merge_sort E fuel (Some (Z.of_nat (length pre))) (Z.of_nat (length seg)) (Some compar) w
    = Ok tt w'
    /\ mem w' = mem w.
Proof.
  intros Hord Hheap Hm Haddr Hfuel Hsorted.
  destruct (merge_sort_returns E compar fuel w pre seg suf Hheap Hm Haddr Hfuel)
    as (w' & seg' & Hrun & Hm' & _ & Hs).
  destruct (Hs Hord) as [Hsorted' Hstable].
  exists w'. split; [assumption|].
  rewrite Hm, Hm'. f_equal. f_equal.
  apply (stable_sort_unique compar Hord); assumption.
Qed.

(** X4 (quick_sort on a sorted sequence): [quick_sort] called with a total
    preorder on fewer than [2^32] references that are sorted already
    returns with, at every position, a reference that ties with the one that
    was there; when no two different references of the sequence tie, the
    array is exactly as it was. *)
Theorem quick_sort_keeps_sorted_input (E : environment) (compar : A -> A -> Z)
    fuel w pre seg suf :
  total_preorder compar -> rand_in_range E ->
  mem w = pre ++ seg ++ suf -> addressable (mem w) -> (length seg < fuel)%nat ->
  Z.of_nat (length seg) < 2 ^ 32 ->
  sorted_by compar seg ->
  exists w' seg',
    quick_sort E fuel (Some (Z.of_nat (length pre))) (Z.of_nat (length seg)) (Some compar) w
    = Ok tt w'
    /\ mem w' = pre ++ seg' ++ suf
    /\ Forall2 (fun a b => compar a b = 0) seg seg'
    /\ ((forall a b, a ∈ seg -> b ∈ seg -> compar a b = 0 -> a = b) -> mem w' = mem w).
Proof.
  intros Hord Hrand Hm Haddr Hfuel Hsmall Hsorted.
  destruct (quick_sort_returns_sorted E compar fuel w pre seg suf Hord Hrand Hm Haddr Hfuel Hsmall)
    as (w' & seg' & Hrun & Hm' & Hp & Hs).
  exists w', seg'. split; [assumption|]. split; [assumption|]. split.
  - apply (sorted_permutations_tied compar Hord); [assumption | assumption | now symmetry].
  - intros Hanti. rewrite Hm, Hm'. f_equal. f_equal.
    apply (sorted_permutations_equal compar Hord seg); try assumption. reflexivity.
Qed.

End Further.

Section FurtherCosts.

Context {A : Type}.
Implicit Types (w : world A) (pre suf seg : list A).

Lemma length_below_partition (compar : A -> A -> Z) p (lts ges mid : list A) :
  Forall (fun x => compar x p < 0) lts -> Forall (fun x => ~ compar x p < 0) ges ->
  lts ++ ges ≡ₚ mid ->
  length (below compar p mid) = length lts.
Proof.
  intros Hl Hg Hp. unfold below. rewrite <- Hp, filter_app, length_app.
  rewrite (filter_all _ _ Hl), (filter_none _ _ Hg). simpl. lia.
Qed.

Lemma range_with_pivot w base low high :
  0 <= base -> 0 <= low <= high -> base + high < Z.of_nat (length (mem w)) ->
  exists pre mid pivot suf,
    mem w = pre ++ mid ++ pivot :: suf
    /\ base + low = Z.of_nat (length pre)
    /\ high = low + Z.of_nat (length mid)
    /\ mem w !! Z.to_nat (base + high) = Some pivot
    /\ slice (Z.to_nat (base + low)) (Z.to_nat (high - low)) (mem w) = mid.
Proof.
  intros Hbase Hrange Hin.
  destruct (cut_range (mem w) (Z.to_nat (base + low)) (Z.to_nat (high - low + 1)))
    as (pre & seg & suf & Hm & Hpre & Hseg); [lia|].
  destruct seg as [|pivot mid _] using rev_ind; [simpl in Hseg; lia|].
  rewrite length_app in Hseg. simpl in Hseg.
  exists pre, mid, pivot, suf.
  assert (Hm' : mem w = pre ++ mid ++ pivot :: suf) by (rewrite Hm; list_norm).
  split; [assumption|]. split; [lia|]. split; [lia|]. split.
  - rewrite Hm', app_assoc. rewrite lookup_app_r by len.
    replace (Z.to_nat (base + high) - length (pre ++ mid))%nat with 0%nat by len.
    reflexivity.
  - rewrite Hm'. replace (Z.to_nat (base + low)) with (length pre) by lia.
    apply slice_middle. lia.
Qed.

Lemma log2_up_covers n : 0 <= n -> n <= 2 ^ Z.of_nat (Z.to_nat (Z.log2_up n)).
Proof.
  intros Hn. rewrite Z2Nat.id by apply Z.log2_up_nonneg.
  destruct (Z.le_gt_cases n 1) as [Hsmall|Hbig].
  - rewrite Z.log2_up_eqn0 by assumption. simpl. lia.
  - apply Z.log2_up_spec. assumption.
Qed.

Lemma merge_sort_account (E : environment) (compar : A -> A -> Z) fuel k w w' pre seg suf :
  merge_sort E fuel (Some (Z.of_nat (length pre))) (Z.of_nat (length seg)) (Some compar) w
  = Ok tt w' ->
  mem w = pre ++ seg ++ suf -> addressable (mem w) -> (length seg < fuel)%nat ->
  Z.of_nat (length seg) <= 2 ^ Z.of_nat k ->
  allocs w' = (allocs w + Nat.pred (length seg))%nat
  /\ rng_seed w' = rng_seed w /\ rng_pos w' = rng_pos w
  /\ exists t,
      trace w' = trace w ++ t
      /\ Forall (fun e => exists x y, e = Compar x y /\ x ∈ seg /\ y ∈ seg) t
      /\ (length t <= length seg * k)%nat.
Proof.
  intros H Hm Haddr Hfuel Hk. apply addressable_fits in Haddr.
  rewrite Hm, !length_app in Haddr. cbn [merge_sort] in H.
  destruct (Z.leb_spec 2 (Z.of_nat (length seg))).
  - apply (merge_sort_rec_account E compar fuel k (Z.of_nat (length pre))
             (Z.of_nat (length seg)) w w' pre seg suf); try assumption; try reflexivity.
    unfold C.sizeof_ptr. lia.
  - injection H as <-. split; [lia|]. split; [reflexivity|]. split; [reflexivity|].
    exists []. rewrite app_nil_r. split; [reflexivity|]. split; [constructor|simpl; lia].
Qed.

Lemma quick_sort_returns (E : environment) (compar : A -> A -> Z) fuel w pre seg suf :
  rand_in_range E ->
  mem w = pre ++ seg ++ suf -> addressable (mem w) -> (length seg < fuel)%nat ->
  Z.of_nat (length seg) < 2 ^ 32 ->
  exists w',
    quick_sort E fuel (Some (Z.of_nat (length pre))) (Z.of_nat (length seg)) (Some compar) w
    = Ok tt w'.
Proof.
  intros Hrand Hm Haddr Hfuel Hsmall.
  pose proof (quick_sort_spec E compar fuel w pre seg suf Hrand Hm Haddr Hfuel) as H.
  destruct (quick_sort E fuel _ _ _ w) as [[] w'| | |]; simpl in H; try contradiction; try lia.
  now exists w'.
Qed.

Lemma quick_sort_account (E : environment) (compar : A -> A -> Z) fuel w w' pre seg suf :
  rand_in_range E ->
  quick_sort E fuel (Some (Z.of_nat (length pre))) (Z.of_nat (length seg)) (Some compar) w
  = Ok tt w' ->
  mem w = pre ++ seg ++ suf -> addressable (mem w) -> (length seg < fuel)%nat ->
  allocs w' = allocs w
  /\ (seg = [] -> w' = w)
  /\ (seg <> [] ->
      rng_seed w' = C.to_unsigned (now E) /\ (rng_pos w' <= Nat.pred (length seg))%nat)
  /\ exists t,
      trace w' = trace w ++ t
      /\ Forall (within seg) t
      /\ 2 * Z.of_nat (comparisons t) <= Z.of_nat (length seg) * (Z.of_nat (length seg) - 1).
Proof.
  intros Hrand H Hm Haddr Hfuel. apply addressable_fits in Haddr.
  rewrite Hm, !length_app in Haddr. cbn [quick_sort] in H.
  destruct (Z.ltb_spec 0 (Z.of_nat (length seg))).
  - unfold bind at 1, srand at 1 in H. rewrite sub_small in H by lia.
    apply (quick_sort_rec_account E compar Hrand fuel _ _ _ _ _ pre seg suf) in H
      as (Ha & Hs & Hr & t & Ht & Hall & Hc); simpl; try assumption; try lia.
    simpl in Ha, Hs, Hr, Ht.
    split; [assumption|]. split; [intros ->; simpl in *; lia|].
    split; [intros _; split; [assumption|lia]|].
    exists (Srand (C.to_unsigned (now E)) :: t).
    split; [rewrite Ht; list_norm|]. split; [constructor; [exact I|assumption]|].
    change (Srand (C.to_unsigned (now E)) :: t) with ([Srand (C.to_unsigned (now E))] ++ t).
    rewrite comparisons_app.
    change (comparisons [Srand (C.to_unsigned (now E))]) with 0%nat. simpl. lia.
  - injection H as <-. destruct seg; [|simpl in *; lia].
    split; [reflexivity|]. split; [reflexivity|]. split; [congruence|].
    exists []. rewrite app_nil_r. split; [reflexivity|]. split; [constructor|].
    change (comparisons (@nil (event A))) with 0%nat. simpl. lia.
Qed.

(** X5 (partition returns the rank of the pivot): on a range [low <= high]
    inside the array, [partition] returns [low] plus the number of cells of
    [low .. high - 1] that compare below the reference at [high]. *)
Theorem partition_returns_rank (compar : A -> A -> Z) base low high w :
  0 <= base -> 0 <= low <= high ->
  base + high < Z.of_nat (length (mem w)) ->
  addressable (mem w) ->
  exists pivot w',
    mem w !! Z.to_nat (base + high) = Some pivot
    /\ partition base low high compar w
       = Ok (low + Z.of_nat (length (below compar pivot
                 (slice (Z.to_nat (base + low)) (Z.to_nat (high - low)) (mem w))))) w'.
Proof.
  intros Hbase Hrange Hin Haddr. apply addressable_fits in Haddr.
  destruct (range_with_pivot w base low high Hbase Hrange Hin)
    as (pre & mid & pivot & suf & Hm & Hpre & Hhigh & Hpv & Hmid).
  destruct (partition_spec compar base low high w pre mid pivot suf)
    as (w' & lts & ges & Hrun & _ & Hlt & Hge & Hp); try assumption; try lia.
  exists pivot, w'. split; [assumption|].
  rewrite Hmid, (length_below_partition compar pivot lts ges mid Hlt Hge Hp). exact Hrun.
Qed.

(** X6 (the comparisons of partition): on a range [low <= high] inside the
    array, [partition] calls the comparator once for each cell of
    [low .. high - 1], in index order, with the reference found there on
    entry first and the reference at [high] second; it calls it on nothing
    else, prints nothing, and leaves the generator and the allocator alone. *)
Theorem partition_compares_each_cell_once (compar : A -> A -> Z) base low high w :
  0 <= base -> 0 <= low <= high ->
  base + high < Z.of_nat (length (mem w)) ->
  addressable (mem w) ->
  exists pivot i w',
    mem w !! Z.to_nat (base + high) = Some pivot
    /\ partition base low high compar w = Ok i w'
    /\ trace w' = trace w ++ map (fun x => Compar x pivot)
                               (slice (Z.to_nat (base + low)) (Z.to_nat (high - low)) (mem w))
    /\ same_libc w w'.
Proof.
  intros Hbase Hrange Hin Haddr. apply addressable_fits in Haddr.
  destruct (range_with_pivot w base low high Hbase Hrange Hin)
    as (pre & mid & pivot & suf & Hm & Hpre & Hhigh & Hpv & Hmid).
  destruct (partition_spec compar base low high w pre mid pivot suf)
    as (w' & lts & ges & Hrun & _); try assumption; try lia.
  exists pivot, (low + Z.of_nat (length lts)), w'.
  split; [assumption|]. split; [assumption|].
  apply partition_comparisons in Hrun as (p' & Hpv' & Ht & Hf); try lia.
  replace p' with pivot in Ht by congruence. split; assumption.
Qed.

(** X7 (the comparisons of merge): given memory for the scratch buffer,
    [merge] calls the comparator only with a reference of the left run
    first and a reference of the right run second; it makes at least as many
    calls as the shorter run has cells and fewer than the two runs have
    together. *)
Theorem merge_compares_across_runs (E : environment) (compar : A -> A -> Z)
    w pre left right suf :
  heap_ok E (allocs w) = true ->
  mem w = pre ++ left ++ right ++ suf -> addressable (mem w) ->
  exists w' t,
    merge E (Z.of_nat (length pre)) (Z.of_nat (length left + length right))
      (Z.of_nat (length left)) compar w = Ok tt w'
    /\ trace w' = trace w ++ t
    /\ Forall (fun e => exists x y, e = Compar x y /\ x ∈ left /\ y ∈ right) t
    /\ (Nat.min (length left) (length right) <= length t
        <= Nat.pred (length left + length right))%nat.
Proof.
  intros Hheap Hm Haddr. apply addressable_fits in Haddr.
  rewrite Hm, !length_app in Haddr.
  destruct (merge_spec E compar (Z.of_nat (length pre)) (Z.of_nat (length left + length right))
              (Z.of_nat (length left)) w pre left right suf)
    as (w' & Hrun & _); try assumption; try reflexivity.
  { unfold C.sizeof_ptr. lia. }
  destruct (merge_account E compar _ _ _ w w' pre left right suf Hrun Hm eq_refl eq_refl eq_refl)
    as (_ & _ & _ & t & Ht & Hall & Hlen); [lia|].
  exists w', t. auto.
Qed.

(** X8 (what merge_sort uses): when its allocations succeed, [merge_sort]
    on [N] references returns having made exactly [N - 1] allocations
    (none for [N <= 1]), and without seeding or drawing from the random
    generator. *)
Theorem merge_sort_resources (E : environment) (compar : A -> A -> Z) fuel w pre seg suf :
  (forall n, (allocs w <= n)%nat -> heap_ok E n = true) ->
  mem w = pre ++ seg ++ suf -> addressable (mem w) -> (length seg < fuel)%nat ->
  exists w',
    merge_sort E fuel (Some (Z.of_nat (length pre))) (Z.of_nat (length seg)) (Some compar) w
    = Ok tt w'
    /\ allocs w' = (allocs w + Nat.pred (length seg))%nat
    /\ rng_seed w' = rng_seed w /\ rng_pos w' = rng_pos w.
Proof.
  intros Hheap Hm Haddr Hfuel.
  destruct (merge_sort_returns E compar fuel w pre seg suf Hheap Hm Haddr Hfuel)
    as (w' & seg' & Hrun & _).
  destruct (merge_sort_account E compar fuel _ w w' pre seg suf Hrun Hm Haddr Hfuel
              (log2_up_covers _ (Nat2Z.is_nonneg _))) as (Ha & Hs & Hr & _).
  exists w'. auto.
Qed.

(** X9 (the comparisons of merge_sort): when its allocations succeed,
    [merge_sort] on [N] references returns having printed nothing and
    called the comparator on references of the sequence only, at most
    [N * ceil(log2 N)] times, whatever the comparator answers. *)
Theorem merge_sort_comparisons (E : environment) (compar : A -> A -> Z) fuel w pre seg suf :
  (forall n, (allocs w <= n)%nat -> heap_ok E n = true) ->
  mem w = pre ++ seg ++ suf -> addressable (mem w) -> (length seg < fuel)%nat ->
  exists w' t,
    merge_sort E fuel (Some (Z.of_nat (length pre))) (Z.of_nat (length seg)) (Some compar) w
    = Ok tt w'
    /\ trace w' = trace w ++ t
    /\ Forall (fun e => exists x y, e = Compar x y /\ x ∈ seg /\ y ∈ seg) t
    /\ (length t <= length seg * Z.to_nat (Z.log2_up (Z.of_nat (length seg))))%nat.
Proof.
  intros Hheap Hm Haddr Hfuel.
  destruct (merge_sort_returns E compar fuel w pre seg suf Hheap Hm Haddr Hfuel)
    as (w' & seg' & Hrun & _).
  destruct (merge_sort_account E compar fuel _ w w' pre seg suf Hrun Hm Haddr Hfuel
              (log2_up_covers _ (Nat2Z.is_nonneg _))) as (_ & _ & _ & t & Ht & Hall & Hlen).
  exists w', t. auto.
Qed.

(** X10 (the recursion of merge_sort is logarithmic): on [N] references
    [merge_sort] needs a depth of recursion of [ceil(log2 N) + 1] at most:
    with that much it runs to its end, returning or exiting on a failed
    allocation as it would with any more. *)
Theorem merge_sort_depth_logarithmic (E : environment) (compar : A -> A -> Z) w pre seg suf :
  mem w = pre ++ seg ++ suf -> addressable (mem w) ->
  merge_sort_post E compar w pre seg suf
    (merge_sort E (S (Z.to_nat (Z.log2_up (Z.of_nat (length seg)))))
       (Some (Z.of_nat (length pre))) (Z.of_nat (length seg)) (Some compar) w)
  /\ forall fuel, (S (Z.to_nat (Z.log2_up (Z.of_nat (length seg)))) <= fuel)%nat ->
       merge_sort E fuel (Some (Z.of_nat (length pre))) (Z.of_nat (length seg)) (Some compar) w
       = merge_sort E (S (Z.to_nat (Z.log2_up (Z.of_nat (length seg)))))
           (Some (Z.of_nat (length pre))) (Z.of_nat (length seg)) (Some compar) w.
Proof.
  intros Hm Haddr. set (depth := S (Z.to_nat (Z.log2_up (Z.of_nat (length seg))))).
  assert (Hsame : forall fuel, (depth <= fuel)%nat ->
            merge_sort E fuel (Some (Z.of_nat (length pre))) (Z.of_nat (length seg))
              (Some compar) w
            = merge_sort E depth (Some (Z.of_nat (length pre))) (Z.of_nat (length seg))
                (Some compar) w).
  { intros fuel Hfuel. cbn [merge_sort].
    destruct (Z.leb_spec 2 (Z.of_nat (length seg))); [|reflexivity].
    apply addressable_fits in Haddr. rewrite Hm, !length_app in Haddr.
    apply (merge_sort_rec_depth E compar (Z.to_nat (Z.log2_up (Z.of_nat (length seg)))));
      try (unfold depth in *; lia).
    apply log2_up_covers. lia. }
  split; [|exact Hsame].
  rewrite <- (Hsame (max depth (S (length seg)))) by lia.
  apply merge_sort_spec; try assumption. lia.
Qed.

(** X11 (what quick_sort uses): on [N < 2^32] references [quick_sort]
    returns, whatever the comparator answers, without allocating; for
    [N >= 1] it has seeded the generator with the time and drawn from it at
    most [N - 1] times; for [N = 0] it has done nothing at all. *)
Theorem quick_sort_resources (E : environment) (compar : A -> A -> Z) fuel w pre seg suf :
  rand_in_range E ->
  mem w = pre ++ seg ++ suf -> addressable (mem w) -> (length seg < fuel)%nat ->
  Z.of_nat (length seg) < 2 ^ 32 ->
  exists w',
    quick_sort E fuel (Some (Z.of_nat (length pre))) (Z.of_nat (length seg)) (Some compar) w
    = Ok tt w'
    /\ allocs w' = allocs w
    /\ (seg = [] -> w' = w)
    /\ (seg <> [] ->
        rng_seed w' = C.to_unsigned (now E) /\ (rng_pos w' <= Nat.pred (length seg))%nat).
Proof.
  intros Hrand Hm Haddr Hfuel Hsmall.
  destruct (quick_sort_returns E compar fuel w pre seg suf Hrand Hm Haddr Hfuel Hsmall)
    as (w' & Hrun).
  destruct (quick_sort_account E compar fuel w w' pre seg suf Hrand Hrun Hm Haddr Hfuel)
    as (Ha & Hnil & Hrng & _).
  exists w'. auto.
Qed.

(** X12 (the comparisons of quick_sort): on [N < 2^32] references
    [quick_sort] returns, whatever the comparator answers, having printed
    nothing and called the comparator on references of the sequence only, at
    most [N * (N - 1) / 2] times. *)
Theorem quick_sort_comparisons (E : environment) (compar : A -> A -> Z) fuel w pre seg suf :
  rand_in_range E ->
  mem w = pre ++ seg ++ suf -> addressable (mem w) -> (length seg < fuel)%nat ->
  Z.of_nat (length seg) < 2 ^ 32 ->
  exists w' t,
    quick_sort E fuel (Some (Z.of_nat (length pre))) (Z.of_nat (length seg)) (Some compar) w
    = Ok tt w'
    /\ trace w' = trace w ++ t
    /\ Forall (within seg) t
    /\ 2 * Z.of_nat (comparisons t) <= Z.of_nat (length seg) * (Z.of_nat (length seg) - 1).
Proof.
  intros Hrand Hm Haddr Hfuel Hsmall.
  destruct (quick_sort_returns E compar fuel w pre seg suf Hrand Hm Haddr Hfuel Hsmall)
    as (w' & Hrun).
  destruct (quick_sort_account E compar fuel w w' pre seg suf Hrand Hrun Hm Haddr Hfuel)
    as (_ & _ & _ & t & Ht & Hall & Hc).
  exists w', t. auto.
Qed.

End FurtherCosts.

(** ** The further properties on the arrays of the unit tests *)

Lemma sorted_integers_sorted : sorted_by compar_Z sorted_integers.
Proof. repeat constructor; unfold le_by, compar_Z; simpl; lia. Qed.

Lemma runs_sorted : sorted_by compar_Z [1; 3] /\ sorted_by compar_Z [2; 4].
Proof. split; repeat constructor; unfold le_by, compar_Z; simpl; lia. Qed.

Lemma integers_untied (l : list Z) a b : a ∈ l -> b ∈ l -> compar_Z a b = 0 -> a = b.
Proof.
  intros _ _. unfold compar_Z. destruct (Z.compare_spec a b) as [Heq|Hlt|Hgt]; intros H;
    [exact Heq | discriminate H ..].
Qed.

(** X1: the runs [1; 3] and [2; 4] are merged into a sorted range. *)
Lemma merge_joins_sorted_runs_witness :
  total_preorder compar_Z /\ heap_ok (libc 0 roomy) (allocs (boot two_runs)) = true
  /\ addressable (mem (boot two_runs))
  /\ sorted_by compar_Z [1; 3] /\ sorted_by compar_Z [2; 4]
  /\ exists w' seg',
       merge (libc 0 roomy) 0 4 2 compar_Z (boot two_runs) = Ok tt w'
       /\ mem w' = [] ++ seg' ++ []
       /\ seg' ≡ₚ [1; 3] ++ [2; 4]
       /\ sorted_by compar_Z seg'
       /\ stable compar_Z ([1; 3] ++ [2; 4]) seg'.
Proof.
  pose proof compar_Z_total_preorder as Hord.
  assert (Haddr : addressable (mem (boot two_runs))) by (apply small_addressable; simpl; lia).
  destruct runs_sorted as [Hl Hr].
  split; [assumption|]. split; [reflexivity|]. split; [assumption|].
  split; [assumption|]. split; [assumption|].
  exact (merge_joins_sorted_runs (libc 0 roomy) compar_Z (boot two_runs) [] [1; 3] [2; 4] []
           Hord eq_refl eq_refl Haddr Hl Hr).
Defined.

(** X2: the stable sort of the records that tie on their key. *)
Lemma merge_sort_is_the_stable_sort_witness :
  total_preorder compar_key
  /\ (forall n, (allocs (boot tied_records) <= n)%nat -> heap_ok (libc 0 roomy) n = true)
  /\ addressable (mem (boot tied_records))
  /\ exists w' seg',
       merge_sort (libc 0 roomy) 5 (Some 0) 4 (Some compar_key) (boot tied_records) = Ok tt w'
       /\ mem w' = [] ++ seg' ++ []
       /\ forall l, sorted_by compar_key l -> stable compar_key tied_records l -> l = seg'.
Proof.
  pose proof compar_key_total_preorder as Hord.
  assert (Haddr : addressable (mem (boot tied_records)))
    by (apply small_addressable; simpl; lia).
  split; [assumption|]. split; [reflexivity|]. split; [assumption|].
  exact (merge_sort_is_the_stable_sort (libc 0 roomy) compar_key 5 (boot tied_records)
           [] tied_records [] Hord (fun _ _ => eq_refl) eq_refl Haddr ltac:(simpl; lia)).
Defined.

(** X3: [merge_sort] leaves [1; 2; 3; 4] as it is. *)
Lemma merge_sort_keeps_sorted_input_witness :
  total_preorder compar_Z
  /\ (forall n, (allocs (boot sorted_integers) <= n)%nat -> heap_ok (libc 0 roomy) n = true)
  /\ addressable (mem (boot sorted_integers))
  /\ sorted_by compar_Z sorted_integers
  /\ exists w',
       merge_sort (libc 0 roomy) 5 (Some 0) 4 (Some compar_Z) (boot sorted_integers) = Ok tt w'
       /\ mem w' = mem (boot sorted_integers).
Proof.
  pose proof compar_Z_total_preorder as Hord.
  pose proof sorted_integers_sorted as Hs.
  assert (Haddr : addressable (mem (boot sorted_integers)))
    by (apply small_addressable; simpl; lia).
  split; [assumption|]. split; [reflexivity|]. split; [assumption|]. split; [assumption|].
  exact (merge_sort_keeps_sorted_input (libc 0 roomy) compar_Z 5 (boot sorted_integers)
           [] sorted_integers [] Hord (fun _ _ => eq_refl) eq_refl Haddr ltac:(simpl; lia) Hs).
Defined.

(** X4: [quick_sort] leaves [1; 2; 3; 4] as it is. *)
Lemma quick_sort_keeps_sorted_input_witness :
  total_preorder compar_Z /\ rand_in_range (libc 0 roomy)
  /\ addressable (mem (boot sorted_integers))
  /\ sorted_by compar_Z sorted_integers
  /\ exists w',
       quick_sort (libc 0 roomy) 5 (Some 0) 4 (Some compar_Z) (boot sorted_integers) = Ok tt w'
       /\ mem w' = mem (boot sorted_integers).
Proof.
  pose proof compar_Z_total_preorder as Hord.
  pose proof (libc_rand_in_range 0 roomy) as Hrand.
  pose proof sorted_integers_sorted as Hs.
  assert (Haddr : addressable (mem (boot sorted_integers)))
    by (apply small_addressable; simpl; lia).
  split; [assumption|]. split; [assumption|]. split; [assumption|]. split; [assumption|].
  destruct (quick_sort_keeps_sorted_input (libc 0 roomy) compar_Z 5 (boot sorted_integers)
              [] sorted_integers [] Hord Hrand eq_refl Haddr ltac:(simpl; lia)
              ltac:(simpl; lia) Hs) as (w' & seg' & Hrun & _ & _ & Hsame).
  exists w'. split; [exact Hrun|]. apply Hsame. apply integers_untied.
Defined.

(** X5: on [4; 3; 2; 1] the pivot is 1, nothing is below it, and
    [partition] returns 0. *)
Lemma partition_returns_rank_witness :
  0 <= 0 /\ 0 <= 0 <= 3 /\ 0 + 3 < Z.of_nat (length (mem (boot four_integers)))
  /\ addressable (mem (boot four_integers))
  /\ exists w', partition 0 0 3 compar_Z (boot four_integers) = Ok 0 w'.
Proof.
  assert (Haddr : addressable (mem (boot four_integers)))
    by (apply small_addressable; simpl; lia).
  split; [lia|]. split; [lia|]. split; [simpl; lia|]. split; [assumption|].
  destruct (partition_returns_rank compar_Z 0 0 3 (boot four_integers)
              ltac:(lia) ltac:(lia) ltac:(simpl; lia) Haddr) as (pivot & w' & Hp & Hrun).
  exists w'. injection Hp as <-. exact Hrun.
Defined.

(** X6: on [4; 3; 2; 1], [partition] compares 4, 3 and 2 with 1. *)
Lemma partition_compares_each_cell_once_witness :
  0 <= 0 /\ 0 <= 0 <= 3 /\ 0 + 3 < Z.of_nat (length (mem (boot four_integers)))
  /\ addressable (mem (boot four_integers))
  /\ exists i w',
       partition 0 0 3 compar_Z (boot four_integers) = Ok i w'
       /\ trace w' = [Compar 4 1; Compar 3 1; Compar 2 1].
Proof.
  assert (Haddr : addressable (mem (boot four_integers)))
    by (apply small_addressable; simpl; lia).
  split; [lia|]. split; [lia|]. split; [simpl; lia|]. split; [assumption|].
  destruct (partition_compares_each_cell_once compar_Z 0 0 3 (boot four_integers)
              ltac:(lia) ltac:(lia) ltac:(simpl; lia) Haddr)
    as (pivot & i & w' & Hp & Hrun & Ht & _).
  exists i, w'. split; [exact Hrun|]. injection Hp as <-. exact Ht.
Defined.

(** X7: merging [1; 3] and [2; 4] takes two or three comparisons. *)
Lemma merge_compares_across_runs_witness :
  heap_ok (libc 0 roomy) (allocs (boot two_runs)) = true
  /\ addressable (mem (boot two_runs))
  /\ exists w' t,
       merge (libc 0 roomy) 0 4 2 compar_Z (boot two_runs) = Ok tt w'
       /\ trace w' = trace (boot two_runs) ++ t
       /\ Forall (fun e => exists x y, e = Compar x y /\ x ∈ [1; 3] /\ y ∈ [2; 4]) t
       /\ (2 <= length t <= 3)%nat.
Proof.
  assert (Haddr : addressable (mem (boot two_runs))) by (apply small_addressable; simpl; lia).
  split; [reflexivity|]. split; [assumption|].
  exact (merge_compares_across_runs (libc 0 roomy) compar_Z (boot two_runs) [] [1; 3] [2; 4] []
           eq_refl eq_refl Haddr).
Defined.

(** X8: [merge_sort] on four integers allocates three times. *)
Lemma merge_sort_resources_witness :
  (forall n, (allocs (boot four_integers) <= n)%nat -> heap_ok (libc 0 roomy) n = true)
  /\ addressable (mem (boot four_integers))
  /\ exists w',
       merge_sort (libc 0 roomy) 5 (Some 0) 4 (Some compar_Z) (boot four_integers) = Ok tt w'
       /\ allocs w' = 3%nat /\ rng_seed w' = 1 /\ rng_pos w' = 0%nat.
Proof.
  assert (Haddr : addressable (mem (boot four_integers)))
    by (apply small_addressable; simpl; lia).
  split; [reflexivity|]. split; [assumption|].
  exact (merge_sort_resources (libc 0 roomy) compar_Z 5 (boot four_integers)
           [] four_integers [] (fun _ _ => eq_refl) eq_refl Haddr ltac:(simpl; lia)).
Defined.

(** X9: [merge_sort] on four integers makes at most eight comparisons. *)
Lemma merge_sort_comparisons_witness :
  (forall n, (allocs (boot four_integers) <= n)%nat -> heap_ok (libc 0 roomy) n = true)
  /\ addressable (mem (boot four_integers))
  /\ exists w' t,
       merge_sort (libc 0 roomy) 5 (Some 0) 4 (Some compar_Z) (boot four_integers) = Ok tt w'
       /\ trace w' = trace (boot four_integers) ++ t
       /\ Forall (fun e => exists x y, e = Compar x y /\ x ∈ four_integers /\ y ∈ four_integers) t
       /\ (length t <= 8)%nat.
Proof.
  assert (Haddr : addressable (mem (boot four_integers)))
    by (apply small_addressable; simpl; lia).
  split; [reflexivity|]. split; [assumption|].
  exact (merge_sort_comparisons (libc 0 roomy) compar_Z 5 (boot four_integers)
           [] four_integers [] (fun _ _ => eq_refl) eq_refl Haddr ltac:(simpl; lia)).
Defined.

(** X10: [merge_sort] on four integers needs a depth of three. *)
Lemma merge_sort_depth_logarithmic_witness :
  addressable (mem (boot four_integers))
  /\ merge_sort_post (libc 0 roomy) compar_Z (boot four_integers) [] four_integers []
       (merge_sort (libc 0 roomy) 3 (Some 0) 4 (Some compar_Z) (boot four_integers)).
Proof.
  assert (Haddr : addressable (mem (boot four_integers)))
    by (apply small_addressable; simpl; lia).
  split; [assumption|].
  exact (proj1 (merge_sort_depth_logarithmic (libc 0 roomy) compar_Z (boot four_integers)
                  [] four_integers [] eq_refl Haddr)).
Defined.

(** X11: [quick_sort] on four integers seeds the generator with the time
    and draws at most three times. *)
Lemma quick_sort_resources_witness :
  rand_in_range (libc 7 roomy)
  /\ addressable (mem (boot four_integers))
  /\ exists w',
       quick_sort (libc 7 roomy) 5 (Some 0) 4 (Some compar_Z) (boot four_integers) = Ok tt w'
       /\ allocs w' = 0%nat /\ rng_seed w' = 7 /\ (rng_pos w' <= 3)%nat.
Proof.
  pose proof (libc_rand_in_range 7 roomy) as Hrand.
  assert (Haddr : addressable (mem (boot four_integers)))
    by (apply small_addressable; simpl; lia).
  split; [assumption|]. split; [assumption|].
  destruct (quick_sort_resources (libc 7 roomy) compar_Z 5 (boot four_integers)
              [] four_integers [] Hrand eq_refl Haddr ltac:(simpl; lia) ltac:(simpl; lia))
    as (w' & Hrun & Ha & _ & Hrng).
  destruct (Hrng ltac:(discriminate)) as [Hs Hp].
  exists w'. auto.
Defined.

(** X12: [quick_sort] on four integers makes at most six comparisons. *)
Lemma quick_sort_comparisons_witness :
  rand_in_range (libc 0 roomy)
  /\ addressable (mem (boot four_integers))
  /\ exists w' t,
       quick_sort (libc 0 roomy) 5 (Some 0) 4 (Some compar_Z) (boot four_integers) = Ok tt w'
       /\ trace w' = trace (boot four_integers) ++ t
       /\ Forall (within four_integers) t
       /\ Z.of_nat (comparisons t) <= 6.
Proof.
  pose proof (libc_rand_in_range 0 roomy) as Hrand.
  assert (Haddr : addressable (mem (boot four_integers)))
    by (apply small_addressable; simpl; lia).
  split; [assumption|]. split; [assumption|].
  destruct (quick_sort_comparisons (libc 0 roomy) compar_Z 5 (boot four_integers)
              [] four_integers [] Hrand eq_refl Haddr ltac:(simpl; lia) ltac:(simpl; lia))
    as (w' & t & Hrun & Ht & Hall & Hc).
  exists w', t. repeat (split; [assumption|]). simpl in Hc. lia.
Defined.

(** ** The program: comparators and dispatch *)

Section ProgramProperties.

Variable float : Type.
Variable float_gt : float -> float -> bool.
Variable strcmp : string -> string -> Z.
Variable E : environment.
Variable FILE_ : string.
Implicit Types (w : world (Record float)) (r : Record float).

Lemma comparator_record_floating_field_total_preorder :
  (forall a b, float_gt a b = true -> float_gt b a = false) ->
  (forall a b c, float_gt a b = false -> float_gt b c = false -> float_gt a c = false) ->
  total_preorder (comparator_record_floating_field float float_gt).
Proof.
  intros Hasym Htrans. split; unfold comparator_record_floating_field.
  - intros r1 r2.
    destruct (float_gt (floating_field r1) (floating_field r2)) eqn:H12;
      destruct (float_gt (floating_field r2) (floating_field r1)) eqn:H21; try lia.
    apply Hasym in H12. congruence.
  - intros r1 r2 r3.
    destruct (float_gt (floating_field r1) (floating_field r2)) eqn:H12; [lia|].
    destruct (float_gt (floating_field r2) (floating_field r3)) eqn:H23; [lia|].
    rewrite (Htrans _ _ _ H12 H23).
    destruct (float_gt (floating_field r3) (floating_field r1)); lia.
Qed.

(** X13 (bad arguments): called with a field other than 1, 2, 3 or an
    algorithm other than 1, 2, [execute_sorting_algorithm] prints one line
    with the file and line of the check and calls [exit(1)]; no record has
    been moved or compared, and a wrong field is what is reported when the
    algorithm is wrong too. *)
Theorem execute_sorting_algorithm_rejects fuel field algo records w :
  ~ (1 <= field <= 3) \/ ~ (1 <= algo <= 2) ->
  execute_sorting_algorithm float float_gt strcmp E FILE_ fuel field algo records w
  = Exit 1 (log w (Stderr
      (FILE_ ++ (if (1 <=? field) && (field <=? 3)
                 then ":147 Algorithm should be 1 (MergeSort) or 2 (QuickSort)"
                 else ":108 Field should be 1 (string), 2 (integer) or 3 (double)")
             ++ newline))).
Proof.
  intros Hbad. unfold execute_sorting_algorithm, get_comparator_for_field.
  destruct (Z.eqb_spec field 1) as [->|H1]; [|destruct (Z.eqb_spec field 2) as [->|H2];
    [|destruct (Z.eqb_spec field 3) as [->|H3]]].
  1-3: destruct (Z.eqb_spec algo 1) as [->|A1]; [lia|];
       destruct (Z.eqb_spec algo 2) as [->|A2]; [lia|]; reflexivity.
  destruct (Z.leb_spec 1 field); destruct (Z.leb_spec field 3); try lia; reflexivity.
Qed.

(** X14 (the integer comparator): on two records whose integer fields are
    [int]s, [comparator_record_integer_field] returns their difference when
    that is an [int]; when it is not, the subtraction overflows, and what
    two's complement arithmetic returns has the sign of the opposite
    order. *)
Theorem comparator_record_integer_field_sign r1 r2 :
  C.INT_MIN <= integer_field r1 <= C.INT_MAX ->
  C.INT_MIN <= integer_field r2 <= C.INT_MAX ->
  (C.INT_MIN <= integer_field r1 - integer_field r2 <= C.INT_MAX ->
     comparator_record_integer_field float r1 r2 = integer_field r1 - integer_field r2)
  /\ (C.INT_MAX < integer_field r1 - integer_field r2 ->
        comparator_record_integer_field float r1 r2 < 0)
  /\ (integer_field r1 - integer_field r2 < C.INT_MIN ->
        0 < comparator_record_integer_field float r1 r2).
Proof.
  unfold comparator_record_integer_field, C.to_int, C.INT_MIN, C.INT_MAX.
  intros H1 H2.
  pose proof (Z.div_mod (integer_field r1 - integer_field r2) (2 ^ 32) ltac:(lia)) as Hd.
  pose proof (Z.mod_pos_bound (integer_field r1 - integer_field r2) (2 ^ 32) ltac:(lia)) as Hr.
  destruct (Z.ltb_spec ((integer_field r1 - integer_field r2) mod 2 ^ 32) (2 ^ 31)); lia.
Qed.

(** X15 (the float comparator and NaN): if some value is neither greater
    nor smaller than any other, as a NaN is, and two values are ordered,
    then [comparator_record_floating_field] is not a total preorder: it
    ties the unordered value with both. *)
Theorem comparator_record_floating_field_nan (nan a b : float) :
  (forall x, float_gt nan x = false) -> (forall x, float_gt x nan = false) ->
  float_gt b a = true ->
  ~ total_preorder (comparator_record_floating_field float float_gt).
Proof.
  intros Hl Hr Hba [_ Htrans].
  specialize (Htrans (Build_Record 0 EmptyString 0 b) (Build_Record 0 EmptyString 0 nan)
                (Build_Record 0 EmptyString 0 a)).
  unfold comparator_record_floating_field in Htrans. simpl in Htrans.
  rewrite !Hl, !Hr, Hba in Htrans. lia.
Qed.

End ProgramProperties.

(** ** The program on examples *)

Lemma Z_gtb_order :
  (forall a b, (a >? b) = true -> (b >? a) = false)
  /\ (forall a b c, (a >? b) = false -> (b >? c) = false -> (a >? c) = false).
Proof.
  split.
  - intros a b. rewrite !Z.gtb_ltb. destruct (Z.ltb_spec b a), (Z.ltb_spec a b); auto; lia.
  - intros a b c. rewrite !Z.gtb_ltb.
    destruct (Z.ltb_spec b a), (Z.ltb_spec c b), (Z.ltb_spec c a); auto; try discriminate; lia.
Qed.

(** X13: field 0 is refused, whatever the algorithm. *)
Lemma execute_sorting_algorithm_rejects_witness :
  (~ (1 <= 0 <= 3) \/ ~ (1 <= 1 <= 2))
  /\ execute_sorting_algorithm Z Z.gtb strcmp_sign (libc 0 roomy) "merge_quick_sort_main.c"
       5 0 1 (Some 0) (boot [record_of 2; record_of 1])
     = Exit 1 (log (boot [record_of 2; record_of 1])
                 (Stderr ("merge_quick_sort_main.c:108 "
                          ++ "Field should be 1 (string), 2 (integer) or 3 (double)"
                          ++ newline))).
Proof.
  split; [left; lia|].
  apply (execute_sorting_algorithm_rejects Z Z.gtb strcmp_sign (libc 0 roomy)
           "merge_quick_sort_main.c" 5 0 1 (Some 0) (boot [record_of 2; record_of 1])).
  left. lia.
Defined.

(** X14: [INT_MAX] compared with [-1] comes out negative. *)
Lemma comparator_record_integer_field_sign_witness :
  C.INT_MIN <= C.INT_MAX <= C.INT_MAX /\ C.INT_MIN <= -1 <= C.INT_MAX
  /\ comparator_record_integer_field Z (Build_Record 0 EmptyString C.INT_MAX 0)
       (Build_Record 0 EmptyString (-1) 0) < 0.
Proof.
  split; [unfold C.INT_MIN, C.INT_MAX; lia|]. split; [unfold C.INT_MIN, C.INT_MAX; lia|].
  destruct (comparator_record_integer_field_sign Z (Build_Record 0 EmptyString C.INT_MAX 0)
              (Build_Record 0 EmptyString (-1) 0)) as (_ & Hneg & _);
    [unfold C.INT_MIN, C.INT_MAX; simpl; lia ..|].
  apply Hneg. unfold C.INT_MAX. simpl. lia.
Defined.

(** X15: with a value that [>] does not order, the float comparator is not
    a total preorder. *)
Lemma comparator_record_floating_field_nan_witness :
  (forall x, toy_gt None x = false) /\ (forall x, toy_gt x None = false)
  /\ toy_gt (Some 1) (Some 0) = true
  /\ ~ total_preorder (comparator_record_floating_field (option Z) toy_gt).
Proof.
  assert (Hl : forall x, toy_gt None x = false) by reflexivity.
  assert (Hr : forall x, toy_gt x None = false) by (intros [x|]; reflexivity).
  split; [assumption|]. split; [assumption|]. split; [reflexivity|].
  exact (comparator_record_floating_field_nan (option Z) toy_gt None (Some 0) (Some 1)
           Hl Hr eq_refl).
Defined.

(** ** The edit distance: the recursion and the two tables *)


Section Pure.

Import Run EditDistance.

Lemma distance_nil_l s2 : distance [] s2 = Z.of_nat (length s2).
Proof. destruct s2; reflexivity. Qed.

Lemma distance_nil_r s1 : distance s1 [] = Z.of_nat (length s1).
Proof. destruct s1; reflexivity. Qed.

Lemma distance_cons a t1 b t2 :
  distance (a :: t1) (b :: t2)
  = if Ascii.eqb a b then distance t1 t2
    else min (1 + distance (a :: t1) t2) (1 + distance t1 (b :: t2)).
Proof. reflexivity. Qed.

Lemma min_spec a b : (min a b = a /\ a <= b) \/ (min a b = b /\ b <= a).
Proof. unfold min. destruct (Z.ltb_spec a b); lia. Qed.

Lemma distance_common : forall s1 s2,
  exists c, c `sublist_of` s1 /\ c `sublist_of` s2
            /\ distance s1 s2 + 2 * Z.of_nat (length c)
               = Z.of_nat (length s1) + Z.of_nat (length s2).
Proof.
  induction s1 as [|a t1 IH1]; intros s2.
  { exists []. rewrite distance_nil_l.
    split; [apply sublist_nil_l|]. split; [apply sublist_nil_l|]. simpl. lia. }
  induction s2 as [|b t2 IH2].
  { exists []. rewrite distance_nil_r.
    split; [apply sublist_nil_l|]. split; [apply sublist_nil_l|]. simpl length. lia. }
  rewrite distance_cons. destruct (Ascii.eqb_spec a b) as [->|Hne].
  - destruct (IH1 t2) as (c & H1 & H2 & Hd). exists (b :: c).
    split; [now constructor|]. split; [now constructor|]. simpl length. lia.
  - destruct IH2 as (c2 & H21 & H22 & Hd2). destruct (IH1 (b :: t2)) as (c1 & H11 & H12 & Hd1).
    destruct (min_spec (1 + distance (a :: t1) t2) (1 + distance t1 (b :: t2)))
      as [[-> Hle]|[-> Hle]].
    + exists c2. split; [assumption|]. split; [now constructor|]. simpl length in *. lia.
    + exists c1. split; [now constructor|]. split; [assumption|]. simpl length in *. lia.
Qed.

Lemma distance_least : forall s1 s2 c,
  c `sublist_of` s1 -> c `sublist_of` s2 ->
  distance s1 s2 + 2 * Z.of_nat (length c) <= Z.of_nat (length s1) + Z.of_nat (length s2).
Proof.
  induction s1 as [|a t1 IH1]; intros s2 c H1 H2.
  { apply sublist_nil_r in H1 as ->. rewrite distance_nil_l. simpl. lia. }
  induction s2 as [|b t2 IH2] in c, H1, H2 |- *.
  { apply sublist_nil_r in H2 as ->. rewrite distance_nil_r. simpl. lia. }
  rewrite distance_cons. destruct (Ascii.eqb_spec a b) as [->|Hne].
  - assert (Hc : exists c', c' `sublist_of` t1 /\ c' `sublist_of` t2
                            /\ (length c <= S (length c'))%nat).
    { apply sublist_cons_r in H1 as [H1|(c1 & -> & H1)];
        apply sublist_cons_r in H2 as [H2|(c2 & Hc2 & H2)].
      - exists c. auto.
      - subst c. exists c2. split; [|split; [assumption|simpl; lia]].
        etrans; [|exact H1]. now constructor.
      - exists c1. split; [assumption|]. split; [|simpl; lia].
        etrans; [|exact H2]. now constructor.
      - injection Hc2 as <-. exists c1. split; [assumption|]. split; [assumption|simpl; lia]. }
    destruct Hc as (c' & Hc1 & Hc2 & Hlen). specialize (IH1 t2 c' Hc1 Hc2).
    simpl length. lia.
  - pose proof (min_spec (1 + distance (a :: t1) t2) (1 + distance t1 (b :: t2))) as Hmin.
    apply sublist_cons_r in H2 as H2'. destruct H2' as [H2'|(c2 & -> & H2')].
    + specialize (IH2 c H1 H2'). simpl length in *. lia.
    + apply sublist_cons_r in H1 as [H1'|(c1 & [= -> ->] & _)]; [|congruence].
      specialize (IH1 (b :: t2) (b :: c2) H1' H2). simpl length in *. lia.
Qed.

Lemma distance_bounds s1 s2 :
  0 <= distance s1 s2 <= Z.of_nat (length s1) + Z.of_nat (length s2).
Proof.
  destruct (distance_common s1 s2) as (c & H1 & H2 & Hd).
  apply sublist_length in H1, H2. lia.
Qed.

Lemma sublist_reverse (l1 l2 : list ascii) :
  l1 `sublist_of` l2 -> reverse l1 `sublist_of` reverse l2.
Proof.
  induction 1 as [|x l1 l2 _ IH|x l1 l2 _ IH].
  - constructor.
  - rewrite !reverse_cons. apply sublist_app; [assumption|reflexivity].
  - rewrite reverse_cons. now apply sublist_inserts_r.
Qed.

Lemma distance_reverse_le s1 s2 : distance s1 s2 <= distance (reverse s1) (reverse s2).
Proof.
  destruct (distance_common (reverse s1) (reverse s2)) as (c & H1 & H2 & Hd).
  apply sublist_reverse in H1, H2. rewrite reverse_involutive in H1, H2.
  pose proof (distance_least s1 s2 (reverse c) H1 H2) as Hl.
  rewrite !length_reverse in *. lia.
Qed.

Lemma distance_reverse s1 s2 : distance (reverse s1) (reverse s2) = distance s1 s2.
Proof.
  pose proof (distance_reverse_le s1 s2).
  pose proof (distance_reverse_le (reverse s1) (reverse s2)) as H2.
  rewrite !reverse_involutive in H2. lia.
Qed.

End Pure.

Section Runs.

Import Run EditDistance.

Variables s1 s2 : list ascii.

Lemma bind_Val {S X Y : Type} (m : Run.T S X) (k : X -> Run.T S Y) memo x memo' :
  m memo = Val x memo' -> bind m k memo = k x memo'.
Proof. unfold bind. now intros ->. Qed.

Lemma small_int n : 0 <= n <= 2 * MAXLEN + 1 -> C.to_int n = n.
Proof. intros H. apply to_int_small. unfold MAXLEN in H. lia. Qed.

Lemma strlen_small (s : list ascii) :
  Z.of_nat (length s) <= MAXLEN -> strlen s = Z.of_nat (length s).
Proof. intros H. apply small_int. lia. Qed.

Lemma read_at memo i j v :
  0 <= i <= MAXLEN -> 0 <= j <= MAXLEN -> memo i j = Some v -> read i j memo = Val v memo.
Proof.
  intros Hi Hj Hv. unfold read, in_table.
  destruct (Z.leb_spec 0 i), (Z.leb_spec i MAXLEN), (Z.leb_spec 0 j), (Z.leb_spec j MAXLEN);
    try lia.
  simpl. now rewrite Hv.
Qed.

Lemma write_at memo i j v :
  0 <= i <= MAXLEN -> 0 <= j <= MAXLEN ->
  write i j v memo
  = Val tt (fun i' j' => if (i' =? i) && (j' =? j) then Some v else memo i' j').
Proof.
  intros Hi Hj. unfold write, in_table.
  destruct (Z.leb_spec 0 i), (Z.leb_spec i MAXLEN), (Z.leb_spec 0 j), (Z.leb_spec j MAXLEN);
    try lia.
  reflexivity.
Qed.

Lemma char_at_in (s : list ascii) k c memo :
  0 <= k -> s !! Z.to_nat k = Some c -> char_at s k memo = Val c memo.
Proof.
  intros Hk Hc. unfold char_at. apply lookup_lt_Some in Hc as Hlt.
  destruct (Z.leb_spec 0 k), (Z.leb_spec k (Z.of_nat (length s))); try lia. simpl.
  f_equal. now apply nth_lookup_Some.
Qed.

Lemma reverse_take_snoc (s : list ascii) k c :
  0 < k -> s !! Z.to_nat (k - 1) = Some c ->
  reverse (take (Z.to_nat k) s) = c :: reverse (take (Z.to_nat (k - 1)) s).
Proof.
  intros Hk Hc. replace (Z.to_nat k) with (S (Z.to_nat (k - 1))) by lia.
  rewrite (take_S_r _ _ _ Hc). now rewrite reverse_snoc.
Qed.

Lemma prefix_distance_bounds i j :
  0 <= i -> 0 <= j -> 0 <= prefix_distance s1 s2 i j <= i + j.
Proof.
  intros Hi Hj. unfold prefix_distance.
  pose proof (distance_bounds (reverse (take (Z.to_nat i) s1)) (reverse (take (Z.to_nat j) s2))).
  rewrite !length_reverse, !length_take in H. lia.
Qed.

Lemma fill_cell_spec i j memo
    (Himax : i <= MAXLEN) (Hlen2 : Z.of_nat (length s2) <= MAXLEN) :
  0 <= i <= Z.of_nat (length s1) -> 0 <= j <= Z.of_nat (length s2) ->
  filled s1 s2 i j memo ->
  fill_cell s1 s2 i j memo
  = Val tt (fun i' j' => if (i' =? i) && (j' =? j) then Some (prefix_distance s1 s2 i j)
                         else memo i' j').
Proof.
  intros Hi Hj Hf. unfold fill_cell.
  destruct (Z.eqb_spec i 0) as [->|Hi0].
  { rewrite write_at by lia.
    replace (prefix_distance s1 s2 0 j) with j; [reflexivity|].
    unfold prefix_distance. simpl take. rewrite distance_nil_l.
    rewrite length_reverse, length_take. lia. }
  destruct (Z.eqb_spec j 0) as [->|Hj0].
  { rewrite write_at by lia.
    replace (prefix_distance s1 s2 i 0) with i; [reflexivity|].
    unfold prefix_distance. simpl take. rewrite distance_nil_r.
    rewrite length_reverse, length_take. lia. }
  unfold minus. rewrite !small_int by lia.
  destruct (lookup_lt_is_Some_2 s1 (Z.to_nat (i - 1)) ltac:(lia)) as [c1 Hc1].
  destruct (lookup_lt_is_Some_2 s2 (Z.to_nat (j - 1)) ltac:(lia)) as [c2 Hc2].
  rewrite (bind_Val _ _ _ _ _ (char_at_in s1 (i - 1) c1 memo ltac:(lia) Hc1)).
  rewrite (bind_Val _ _ _ _ _ (char_at_in s2 (j - 1) c2 memo ltac:(lia) Hc2)).
  assert (Hd : prefix_distance s1 s2 i j
               = if Ascii.eqb c1 c2 then prefix_distance s1 s2 (i - 1) (j - 1)
                 else min (1 + prefix_distance s1 s2 i (j - 1)) (1 + prefix_distance s1 s2 (i - 1) j)).
  { unfold prefix_distance.
    rewrite (reverse_take_snoc s1 i c1) by (assumption || lia).
    rewrite (reverse_take_snoc s2 j c2) by (assumption || lia).
    now rewrite distance_cons. }
  destruct (Ascii.eqb c1 c2).
  - rewrite (bind_Val _ _ _ _ _ (read_at memo (i - 1) (j - 1) _ ltac:(lia) ltac:(lia)
                                   (Hf (i - 1) (j - 1) ltac:(lia) ltac:(lia) ltac:(lia)))).
    rewrite write_at by lia. now rewrite Hd.
  - rewrite (bind_Val _ _ _ _ _ (read_at memo (i - 1) j _ ltac:(lia) ltac:(lia)
                                   (Hf (i - 1) j ltac:(lia) ltac:(lia) ltac:(lia)))).
    rewrite (bind_Val _ _ _ _ _ (read_at memo i (j - 1) _ ltac:(lia) ltac:(lia)
                                   (Hf i (j - 1) ltac:(lia) ltac:(lia) ltac:(lia)))).
    rewrite write_at by lia.
    replace (plus 1 (min (prefix_distance s1 s2 (i - 1) j) (prefix_distance s1 s2 i (j - 1))))
      with (prefix_distance s1 s2 i j); [reflexivity|].
    rewrite Hd.
    pose proof (prefix_distance_bounds (i - 1) j ltac:(lia) ltac:(lia)).
    pose proof (prefix_distance_bounds i (j - 1) ltac:(lia) ltac:(lia)).
    pose proof (min_spec (prefix_distance s1 s2 (i - 1) j) (prefix_distance s1 s2 i (j - 1))) as Hm.
    pose proof (min_spec (1 + prefix_distance s1 s2 i (j - 1)) (1 + prefix_distance s1 s2 (i - 1) j)) as Hm'.
    unfold plus. rewrite small_int by lia. lia.
Qed.

Lemma fill_row_spec i (Himax : i <= MAXLEN) (Hlen2 : Z.of_nat (length s2) <= MAXLEN) :
  forall n j memo,
  0 <= i <= Z.of_nat (length s1) -> 0 <= j <= Z.of_nat (length s2) + 1 ->
  n = Z.to_nat (Z.of_nat (length s2) + 1 - j) ->
  filled s1 s2 i j memo ->
  exists memo',
    fill_row n s1 s2 i j (Z.of_nat (length s2)) memo = Val tt memo'
    /\ filled s1 s2 (i + 1) 0 memo'.
Proof.
  induction n as [|n IH]; intros j memo Hi Hj Hn Hf; cbn [fill_row].
  - destruct (Z.leb_spec j (Z.of_nat (length s2))); [lia|].
    exists memo. split; [reflexivity|]. intros i' j' Hi' Hj' Hlt. apply Hf; lia.
  - destruct (Z.leb_spec j (Z.of_nat (length s2))); [|lia].
    rewrite (bind_Val _ _ _ _ _ (fill_cell_spec i j memo Himax Hlen2 ltac:(lia) ltac:(lia) Hf)).
    unfold plus. rewrite small_int by lia.
    apply IH; try lia.
    intros i' j' Hi' Hj' Hlt.
    destruct (Z.eqb_spec i' i) as [->|Hne]; destruct (Z.eqb_spec j' j) as [->|Hne'];
      cbn [andb]; try reflexivity; apply Hf; lia.
Qed.

Lemma fill_rows_spec (Hlen1 : Z.of_nat (length s1) <= MAXLEN)
    (Hlen2 : Z.of_nat (length s2) <= MAXLEN) : forall n i memo,
  0 <= i <= Z.of_nat (length s1) + 1 ->
  n = Z.to_nat (Z.of_nat (length s1) + 1 - i) ->
  filled s1 s2 i 0 memo ->
  exists memo',
    fill_rows n s1 s2 i (Z.of_nat (length s1)) (Z.of_nat (length s2)) memo = Val tt memo'
    /\ filled s1 s2 (Z.of_nat (length s1) + 1) 0 memo'.
Proof.
  induction n as [|n IH]; intros i memo Hi Hn Hf; cbn [fill_rows].
  - destruct (Z.leb_spec i (Z.of_nat (length s1))); [lia|].
    exists memo. split; [reflexivity|]. intros i' j' Hi' Hj' Hlt. apply Hf; lia.
  - destruct (Z.leb_spec i (Z.of_nat (length s1))); [|lia].
    destruct (fill_row_spec i ltac:(lia) Hlen2 (Z.to_nat (Z.of_nat (length s2) + 1)) 0 memo)
      as (memo1 & Hrow & Hf1); try lia; try assumption.
    rewrite (bind_Val _ _ _ _ _ Hrow).
    unfold plus. rewrite small_int by lia.
    apply IH; try lia. assumption.
Qed.

Lemma edit_distance_dyn_spec (Hlen1 : Z.of_nat (length s1) <= MAXLEN)
    (Hlen2 : Z.of_nat (length s2) <= MAXLEN) :
  exists memo, edit_distance_dyn s1 s2 = Val (distance s1 s2) memo.
Proof.
  unfold edit_distance_dyn. rewrite !strlen_small by assumption.
  destruct (fill_rows_spec Hlen1 Hlen2 (Z.to_nat (Z.of_nat (length s1) + 1)) 0 fresh)
    as (memo & Hrun & Hf); try lia.
  { intros i' j' Hi' Hj' Hlt. lia. }
  rewrite (bind_Val _ _ _ _ _ Hrun). exists memo.
  rewrite (read_at memo _ _ (prefix_distance s1 s2 (Z.of_nat (length s1)) (Z.of_nat (length s2))))
    by (try lia; apply Hf; lia).
  f_equal. unfold prefix_distance. rewrite !Nat2Z.id, !take_ge by lia.
  apply distance_reverse.
Qed.

Lemma suffix_distance_bounds i j :
  0 <= i <= Z.of_nat (length s1) -> 0 <= j <= Z.of_nat (length s2) ->
  0 <= suffix_distance s1 s2 i j <= i + j.
Proof.
  intros Hi Hj. unfold suffix_distance.
  pose proof (distance_bounds (drop (Z.to_nat (Z.of_nat (length s1) - i)) s1)
                (drop (Z.to_nat (Z.of_nat (length s2) - j)) s2)) as H.
  rewrite !length_drop in H. lia.
Qed.

Lemma memoised_write memo i j :
  memoised s1 s2 memo ->
  memoised s1 s2 (fun i' j' => if (i' =? i) && (j' =? j) then Some (suffix_distance s1 s2 i j)
                         else memo i' j').
Proof.
  intros Hm i' j' Hi' Hj'.
  destruct (Z.eqb_spec i' i) as [->|]; destruct (Z.eqb_spec j' j) as [->|]; cbn [andb];
    auto.
Qed.

Lemma drop_at_head (s : list ascii) k c :
  s !! k = Some c -> drop k s = c :: drop (S k) s.
Proof. intros H. now apply drop_S. Qed.

Lemma edit_distance_recursive_spec (Hlen1 : Z.of_nat (length s1) <= MAXLEN)
    (Hlen2 : Z.of_nat (length s2) <= MAXLEN) : forall fuel p1 p2 len1 len2 memo,
  memoised s1 s2 memo ->
  0 <= len1 <= Z.of_nat (length s1) -> 0 <= len2 <= Z.of_nat (length s2) ->
  p1 = Z.of_nat (length s1) - len1 -> p2 = Z.of_nat (length s2) - len2 ->
  (Z.to_nat (len1 + len2) < fuel)%nat ->
  exists memo',
    edit_distance_recursive fuel s1 s2 p1 p2 len1 len2 memo
    = Val (suffix_distance s1 s2 len1 len2) memo'
    /\ memoised s1 s2 memo'.
Proof.
  induction fuel as [|fuel IH]; intros p1 p2 len1 len2 memo Hm H1 H2 Hp1 Hp2 Hfuel; [lia|].
  cbn [edit_distance_recursive].
  pose proof (suffix_distance_bounds len1 len2 H1 H2) as Hb.
  destruct (Hm len1 len2 H1 H2) as [Hv|Hv];
    rewrite (bind_Val _ _ _ _ _ (read_at memo len1 len2 _ ltac:(lia) ltac:(lia) Hv)).
  2:{ destruct (Z.eqb_spec (suffix_distance s1 s2 len1 len2) (-1)); [lia|]. cbn [negb].
      exists memo. split; [reflexivity|assumption]. }
  rewrite Z.eqb_refl. cbn [negb].
  destruct (Z.eqb_spec len1 0) as [->|Hn1].
  { exists memo. split; [|assumption]. unfold ret. f_equal. unfold suffix_distance.
    rewrite Z.sub_0_r, Nat2Z.id, drop_all, distance_nil_l, length_drop. lia. }
  destruct (Z.eqb_spec len2 0) as [->|Hn2].
  { exists memo. split; [|assumption]. unfold ret. f_equal. unfold suffix_distance.
    rewrite (Z.sub_0_r (Z.of_nat (length s2))), Nat2Z.id, drop_all, distance_nil_r, length_drop.
    lia. }
  destruct (lookup_lt_is_Some_2 s1 (Z.to_nat p1) ltac:(lia)) as [c1 Hc1].
  destruct (lookup_lt_is_Some_2 s2 (Z.to_nat p2) ltac:(lia)) as [c2 Hc2].
  rewrite (bind_Val _ _ _ _ _ (char_at_in s1 p1 c1 memo ltac:(lia) Hc1)).
  rewrite (bind_Val _ _ _ _ _ (char_at_in s2 p2 c2 memo ltac:(lia) Hc2)).
  unfold minus. rewrite !small_int by lia.
  assert (Hd : suffix_distance s1 s2 len1 len2
               = if Ascii.eqb c1 c2 then suffix_distance s1 s2 (len1 - 1) (len2 - 1)
                 else min (1 + suffix_distance s1 s2 len1 (len2 - 1))
                          (1 + suffix_distance s1 s2 (len1 - 1) len2)).
  { unfold suffix_distance. rewrite <- Hp1, <- Hp2.
    rewrite (drop_at_head s1 _ c1 Hc1), (drop_at_head s2 _ c2 Hc2), distance_cons.
    replace (Z.to_nat (Z.of_nat (length s1) - (len1 - 1))) with (S (Z.to_nat p1)) by lia.
    replace (Z.to_nat (Z.of_nat (length s2) - (len2 - 1))) with (S (Z.to_nat p2)) by lia.
    reflexivity. }
  destruct (Ascii.eqb c1 c2).
  - destruct (IH (p1 + 1) (p2 + 1) (len1 - 1) (len2 - 1) memo Hm) as (memo1 & Hrun & Hm1);
      try lia.
    rewrite (bind_Val _ _ _ _ _ Hrun).
    rewrite (bind_Val _ _ _ _ _ (write_at memo1 len1 len2 _ ltac:(lia) ltac:(lia))).
    rewrite <- Hd. eexists. split.
    + apply read_at; try lia. now rewrite !Z.eqb_refl.
    + now apply memoised_write.
  - destruct (IH p1 (p2 + 1) len1 (len2 - 1) memo Hm) as (memo1 & Hrun1 & Hm1); try lia.
    rewrite (bind_Val _ _ _ _ _ Hrun1).
    destruct (IH (p1 + 1) p2 (len1 - 1) len2 memo1 Hm1) as (memo2 & Hrun2 & Hm2); try lia.
    rewrite (bind_Val _ _ _ _ _ Hrun2).
    pose proof (suffix_distance_bounds len1 (len2 - 1) ltac:(lia) ltac:(lia)).
    pose proof (suffix_distance_bounds (len1 - 1) len2 ltac:(lia) ltac:(lia)).
    unfold plus. rewrite !small_int by lia.
    rewrite (bind_Val _ _ _ _ _ (write_at memo2 len1 len2 _ ltac:(lia) ltac:(lia))).
    rewrite <- Hd. eexists. split.
    + apply read_at; try lia. now rewrite !Z.eqb_refl.
    + now apply memoised_write.
Qed.

Lemma clear_row_spec i (Hlen2 : Z.of_nat (length s2) <= MAXLEN) : forall n j memo,
  0 <= i <= MAXLEN -> 0 <= j <= Z.of_nat (length s2) + 1 ->
  n = Z.to_nat (Z.of_nat (length s2) + 1 - j) ->
  exists memo',
    clear_row n i j (Z.of_nat (length s2)) memo = Val tt memo'
    /\ forall i' j', memo' i' j'
         = if (i' =? i) && (j <=? j') && (j' <=? Z.of_nat (length s2)) then Some (-1)
           else memo i' j'.
Proof.
  induction n as [|n IH]; intros j memo Hi Hj Hn; cbn [clear_row].
  - destruct (Z.leb_spec j (Z.of_nat (length s2))); [lia|].
    exists memo. split; [reflexivity|]. intros i' j'.
    destruct (Z.eqb_spec i' i), (Z.leb_spec j j'), (Z.leb_spec j' (Z.of_nat (length s2)));
      cbn [andb]; try reflexivity; lia.
  - destruct (Z.leb_spec j (Z.of_nat (length s2))); [|lia].
    rewrite (bind_Val _ _ _ _ _ (write_at memo i j _ ltac:(lia) ltac:(lia))).
    unfold plus. rewrite small_int by lia.
    destruct (IH (j + 1) (fun i' j' => if (i' =? i) && (j' =? j) then Some (-1) else memo i' j'))
      as (memo' & Hrun & Hcells); try lia.
    exists memo'. split; [assumption|]. intros i' j'. rewrite Hcells.
    destruct (Z.eqb_spec i' i), (Z.leb_spec (j + 1) j'), (Z.leb_spec j j'),
      (Z.leb_spec j' (Z.of_nat (length s2))), (Z.eqb_spec j' j); cbn [andb];
      try reflexivity; lia.
Qed.

Lemma clear_rows_spec (Hlen1 : Z.of_nat (length s1) <= MAXLEN)
    (Hlen2 : Z.of_nat (length s2) <= MAXLEN) : forall n i memo,
  0 <= i <= Z.of_nat (length s1) + 1 ->
  n = Z.to_nat (Z.of_nat (length s1) + 1 - i) ->
  exists memo',
    clear_rows n i (Z.of_nat (length s1)) (Z.of_nat (length s2)) memo = Val tt memo'
    /\ forall i' j', memo' i' j'
         = if (i <=? i') && (i' <=? Z.of_nat (length s1))
              && (0 <=? j') && (j' <=? Z.of_nat (length s2)) then Some (-1)
           else memo i' j'.
Proof.
  induction n as [|n IH]; intros i memo Hi Hn; cbn [clear_rows].
  - destruct (Z.leb_spec i (Z.of_nat (length s1))); [lia|].
    exists memo. split; [reflexivity|]. intros i' j'.
    destruct (Z.leb_spec i i'), (Z.leb_spec i' (Z.of_nat (length s1))); cbn [andb];
      try reflexivity; lia.
  - destruct (Z.leb_spec i (Z.of_nat (length s1))); [|lia].
    destruct (clear_row_spec i Hlen2 (Z.to_nat (Z.of_nat (length s2) + 1)) 0 memo)
      as (memo1 & Hrow & Hcells1); try lia.
    rewrite (bind_Val _ _ _ _ _ Hrow).
    unfold plus. rewrite small_int by lia.
    destruct (IH (i + 1) memo1) as (memo' & Hrun & Hcells); try lia.
    exists memo'. split; [assumption|]. intros i' j'. rewrite Hcells, Hcells1.
    destruct (Z.leb_spec (i + 1) i'), (Z.leb_spec i i'), (Z.eqb_spec i' i),
      (Z.leb_spec i' (Z.of_nat (length s1))), (Z.leb_spec 0 j'),
      (Z.leb_spec j' (Z.of_nat (length s2))); cbn [andb]; try reflexivity; lia.
Qed.

Lemma edit_distance_spec fuel (Hlen1 : Z.of_nat (length s1) <= MAXLEN)
    (Hlen2 : Z.of_nat (length s2) <= MAXLEN) :
  (length s1 + length s2 < fuel)%nat ->
  exists memo, edit_distance fuel s1 s2 = Val (distance s1 s2) memo.
Proof.
  intros Hfuel. unfold edit_distance. rewrite !strlen_small by assumption.
  destruct (clear_rows_spec Hlen1 Hlen2 (Z.to_nat (Z.of_nat (length s1) + 1)) 0 fresh)
    as (memo & Hrun & Hcells); try lia.
  rewrite (bind_Val _ _ _ _ _ Hrun).
  destruct (edit_distance_recursive_spec Hlen1 Hlen2 fuel 0 0 (Z.of_nat (length s1))
              (Z.of_nat (length s2)) memo) as (memo' & Hrec & _); try lia.
  { intros i j Hi Hj. left. rewrite Hcells.
    destruct (Z.leb_spec 0 i), (Z.leb_spec i (Z.of_nat (length s1))), (Z.leb_spec 0 j),
      (Z.leb_spec j (Z.of_nat (length s2))); cbn [andb]; try reflexivity; lia. }
  exists memo'. rewrite Hrec. f_equal. unfold suffix_distance.
  now rewrite !Z.sub_diag.
Qed.

Lemma in_table_false i j : MAXLEN < i \/ MAXLEN < j -> in_table i j = false.
Proof.
  intros H. unfold in_table.
  destruct (Z.leb_spec 0 i), (Z.leb_spec i MAXLEN), (Z.leb_spec 0 j), (Z.leb_spec j MAXLEN);
    cbn [andb]; try reflexivity; lia.
Qed.

Lemma fill_row_overflow len2 : forall n j memo,
  MAXLEN < len2 -> 0 <= j <= MAXLEN + 1 -> n = Z.to_nat (len2 + 1 - j) ->
  fill_row n s1 s2 0 j len2 memo = Undefined.
Proof.
  induction n as [|n IH]; intros j memo Hlong Hj Hn; [lia|]. cbn [fill_row].
  destruct (Z.leb_spec j len2); [|lia]. unfold fill_cell. cbn [Z.eqb].
  destruct (Z.eq_dec j (MAXLEN + 1)) as [->|Hne].
  - unfold bind, write. now rewrite in_table_false by lia.
  - rewrite (bind_Val _ _ _ _ _ (write_at memo 0 j j ltac:(unfold MAXLEN; lia) ltac:(lia))).
    unfold plus. rewrite small_int by lia. apply IH; lia.
Qed.

Lemma fill_rows_overflow (Hlen2 : Z.of_nat (length s2) <= MAXLEN) : forall n i memo,
  MAXLEN < Z.of_nat (length s1) -> 0 <= i <= MAXLEN + 1 ->
  n = Z.to_nat (Z.of_nat (length s1) + 1 - i) ->
  filled s1 s2 i 0 memo ->
  fill_rows n s1 s2 i (Z.of_nat (length s1)) (Z.of_nat (length s2)) memo = Undefined.
Proof.
  induction n as [|n IH]; intros i memo Hlong Hi Hn Hf; [lia|]. cbn [fill_rows].
  destruct (Z.leb_spec i (Z.of_nat (length s1))); [|lia].
  destruct (Z.eq_dec i (MAXLEN + 1)) as [->|Hne].
  - replace (Z.to_nat (Z.of_nat (length s2) + 1)) with (S (length s2)) by lia.
    cbn [fill_row]. destruct (Z.leb_spec 0 (Z.of_nat (length s2))); [|lia].
    unfold bind at 1 2. unfold fill_cell. cbn [Z.eqb].
    unfold write. now rewrite in_table_false by lia.
  - destruct (fill_row_spec i ltac:(lia) Hlen2 (Z.to_nat (Z.of_nat (length s2) + 1)) 0 memo)
      as (memo1 & Hrow & Hf1); try lia; try assumption.
    rewrite (bind_Val _ _ _ _ _ Hrow). unfold plus. rewrite small_int by lia.
    apply IH; try lia. assumption.
Qed.

Lemma clear_row_overflow len2 i : forall n j memo,
  0 <= i <= MAXLEN -> MAXLEN < len2 -> 0 <= j <= MAXLEN + 1 ->
  n = Z.to_nat (len2 + 1 - j) ->
  clear_row n i j len2 memo = Undefined.
Proof.
  induction n as [|n IH]; intros j memo Hi Hlong Hj Hn; [lia|]. cbn [clear_row].
  destruct (Z.leb_spec j len2); [|lia].
  destruct (Z.eq_dec j (MAXLEN + 1)) as [->|Hne].
  - unfold bind, write. now rewrite in_table_false by lia.
  - rewrite (bind_Val _ _ _ _ _ (write_at memo i j _ ltac:(lia) ltac:(lia))).
    unfold plus. rewrite small_int by lia. apply IH; lia.
Qed.

Lemma clear_rows_overflow (Hlen2 : Z.of_nat (length s2) <= MAXLEN) : forall n i memo,
  MAXLEN < Z.of_nat (length s1) -> 0 <= i <= MAXLEN + 1 ->
  n = Z.to_nat (Z.of_nat (length s1) + 1 - i) ->
  clear_rows n i (Z.of_nat (length s1)) (Z.of_nat (length s2)) memo = Undefined.
Proof.
  induction n as [|n IH]; intros i memo Hlong Hi Hn; [lia|]. cbn [clear_rows].
  destruct (Z.leb_spec i (Z.of_nat (length s1))); [|lia].
  destruct (Z.eq_dec i (MAXLEN + 1)) as [->|Hne].
  - replace (Z.to_nat (Z.of_nat (length s2) + 1)) with (S (length s2)) by lia.
    cbn [clear_row]. destruct (Z.leb_spec 0 (Z.of_nat (length s2))); [|lia].
    unfold bind at 1 2. unfold write. now rewrite in_table_false by lia.
  - destruct (clear_row_spec i Hlen2 (Z.to_nat (Z.of_nat (length s2) + 1)) 0 memo)
      as (memo1 & Hrow & _); try lia.
    rewrite (bind_Val _ _ _ _ _ Hrow). unfold plus. rewrite small_int by lia.
    apply IH; lia.
Qed.

Lemma strlen_int (s : list ascii) :
  Z.of_nat (length s) < 2 ^ 31 -> strlen s = Z.of_nat (length s).
Proof. intros H. apply to_int_small. lia. Qed.

End Runs.

Section Metric.

Import Run EditDistance.

Lemma distance_sym s1 s2 : distance s1 s2 = distance s2 s1.
Proof.
  assert (H : forall s1 s2, distance s1 s2 <= distance s2 s1).
  { clear. intros s1 s2. destruct (distance_common s2 s1) as (c & H1 & H2 & Hd).
    pose proof (distance_least s1 s2 c H2 H1). lia. }
  pose proof (H s1 s2). pose proof (H s2 s1). lia.
Qed.

Lemma sublist_full (l1 l2 : list ascii) :
  l1 `sublist_of` l2 -> (length l2 <= length l1)%nat -> l1 = l2.
Proof.
  induction 1 as [|x l1 l2 _ IH|x l1 l2 Hs IH]; intros Hlen.
  - reflexivity.
  - f_equal. apply IH. simpl in Hlen. lia.
  - apply sublist_length in Hs. simpl in Hlen. lia.
Qed.

Lemma distance_zero s1 s2 : distance s1 s2 = 0 <-> s1 = s2.
Proof.
  split.
  - intros H0. destruct (distance_common s1 s2) as (c & H1 & H2 & Hd).
    pose proof (sublist_length _ _ H1). pose proof (sublist_length _ _ H2).
    rewrite <- (sublist_full c s1 H1) by lia. apply sublist_full; [assumption|lia].
  - intros ->. pose proof (distance_least s2 s2 s2 ltac:(reflexivity) ltac:(reflexivity)).
    pose proof (distance_bounds s2 s2). lia.
Qed.

End Metric.

Section Words.

Import Run Corrector.

Lemma letters_app w1 w2 : letters (w1 ++ w2) = letters w1 ++ letters w2.
Proof. unfold letters. apply filter_app. Qed.

Lemma length_letters w : (length (letters w) <= length w)%nat.
Proof. unfold letters. apply length_filter. Qed.

Lemma peek_at (buf : list ascii) p c :
  0 <= p -> buf !! Z.to_nat p = Some c -> peek p buf = Val c buf.
Proof.
  intros Hp Hc. unfold peek. destruct (Z.leb_spec 0 p); [|lia]. now rewrite Hc.
Qed.

Lemma poke_at (buf : list ascii) p c :
  0 <= p < Z.of_nat (length buf) -> poke p c buf = Val tt (<[Z.to_nat p := c]> buf).
Proof.
  intros Hp. unfold poke.
  destruct (Z.leb_spec 0 p), (Z.ltb_spec p (Z.of_nat (length buf))); try lia. reflexivity.
Qed.

(** The cell at [done] of a buffer in which the first [length out] cells of
    the word have been overwritten by [out]. *)
Lemma lookup_unread (pre out orig : list ascii) k :
  (length out <= k)%nat ->
  (pre ++ out ++ drop (length out) orig) !! (length pre + k)%nat = orig !! k.
Proof.
  intros Hk. rewrite lookup_app_r by lia. rewrite lookup_app_r by lia.
  rewrite lookup_drop. f_equal. lia.
Qed.

Lemma insert_unread (pre out orig : list ascii) c x :
  orig !! length out = Some x ->
  <[(length pre + length out)%nat := c]> (pre ++ out ++ drop (length out) orig)
  = pre ++ (out ++ [c]) ++ drop (length (out ++ [c])) orig.
Proof.
  intros Hx. rewrite (drop_S _ _ _ Hx).
  rewrite insert_app_r_alt by lia. rewrite insert_app_r_alt by lia.
  replace (length pre + length out - length pre - length out)%nat with 0%nat by lia.
  rewrite length_app. simpl. rewrite <- app_assoc. simpl.
  now replace (length out + 1)%nat with (S (length out)) by lia.
Qed.

Lemma remove_punctuation_loop_spec (pre post : list ascii) : forall todo done n,
  Forall (fun c => c <> zero) todo -> (length todo <= n)%nat ->
  remove_punctuation_loop n (Z.of_nat (length pre + length done))
    (Z.of_nat (length pre + length (letters done)))
    (pre ++ letters done ++ drop (length (letters done)) (done ++ todo ++ zero :: post))
  = Val (Z.of_nat (length pre + length (letters (done ++ todo))))
      (pre ++ letters (done ++ todo)
           ++ drop (length (letters (done ++ todo))) (done ++ todo ++ zero :: post)).
Proof.
  induction todo as [|c todo IH]; intros done n Hnz Hn.
  - rewrite app_nil_r. simpl app.
    assert (Hpeek : peek (Z.of_nat (length pre + length done))
                      (pre ++ letters done
                           ++ drop (length (letters done)) (done ++ zero :: post))
                    = Val zero (pre ++ letters done
                                   ++ drop (length (letters done)) (done ++ zero :: post))).
    { apply peek_at; [lia|]. rewrite Nat2Z.id.
      rewrite lookup_unread by apply length_letters.
      now apply list_lookup_middle. }
    destruct n; cbn [remove_punctuation_loop]; rewrite (bind_Val _ _ _ _ _ Hpeek);
      reflexivity.
  - apply Forall_cons in Hnz as [Hc Hnz]. destruct n as [|n]; [simpl in Hn; lia|].
    cbn [remove_punctuation_loop].
    assert (Horig : (done ++ (c :: todo) ++ zero :: post) !! length done = Some c).
    { now apply list_lookup_middle. }
    assert (Hpeek : peek (Z.of_nat (length pre + length done))
                      (pre ++ letters done
                           ++ drop (length (letters done)) (done ++ (c :: todo) ++ zero :: post))
                    = Val c (pre ++ letters done
                                ++ drop (length (letters done))
                                     (done ++ (c :: todo) ++ zero :: post))).
    { apply peek_at; [lia|]. rewrite Nat2Z.id.
      now rewrite lookup_unread by apply length_letters. }
    rewrite (bind_Val _ _ _ _ _ Hpeek).
    destruct (Ascii.eqb_spec c zero) as [|_]; [contradiction|].
    specialize (IH (done ++ [c]) n Hnz ltac:(simpl in Hn; lia)).
    replace ((done ++ [c]) ++ todo ++ zero :: post)
      with (done ++ (c :: todo) ++ zero :: post) in IH by (now rewrite <- app_assoc).
    replace ((done ++ [c]) ++ todo) with (done ++ c :: todo) in IH
      by (now rewrite <- app_assoc).
    assert (Hl : letters (done ++ [c]) = letters done ++ (if is_letter c then [c] else [])).
    { rewrite letters_app. f_equal. unfold letters. rewrite filter_cons, filter_nil.
      destruct (is_letter c); [destruct (decide (true = true)) | destruct (decide (false = true))];
        congruence. }
    rewrite Hl in IH. rewrite (length_app done [c]) in IH. simpl length in IH.
    pose proof (length_letters done) as Hll.
    destruct (is_letter c) eqn:Hletter.
    + destruct (lookup_lt_is_Some_2 (done ++ (c :: todo) ++ zero :: post)
                  (length (letters done))) as [x Hx].
      { rewrite length_app. simpl. lia. }
      assert (Hpoke : poke (Z.of_nat (length pre + length (letters done))) c
                        (pre ++ letters done
                             ++ drop (length (letters done))
                                  (done ++ (c :: todo) ++ zero :: post))
                      = Val tt (pre ++ (letters done ++ [c])
                                    ++ drop (length (letters done ++ [c]))
                                         (done ++ (c :: todo) ++ zero :: post))).
      { rewrite poke_at.
        2:{ rewrite !length_app, length_drop, !length_app. simpl. lia. }
        now rewrite Nat2Z.id, (insert_unread _ _ _ c x Hx). }
      rewrite (bind_Val _ _ _ _ _ Hpoke).
      replace (Z.of_nat (length pre + length done) + 1)
        with (Z.of_nat (length pre + (length done + 1))) by lia.
      replace (Z.of_nat (length pre + length (letters done)) + 1)
        with (Z.of_nat (length pre + length (letters done ++ [c])))
        by (rewrite length_app; simpl; lia).
      exact IH.
    + rewrite app_nil_r in IH.
      replace (Z.of_nat (length pre + length done) + 1)
        with (Z.of_nat (length pre + (length done + 1))) by lia.
      exact IH.
Qed.

Lemma remove_punctuation_spec fuel (pre w post : list ascii) :
  Forall (fun c => c <> zero) w -> (length w <= fuel)%nat ->
  remove_punctuation fuel (Z.of_nat (length pre)) (pre ++ w ++ zero :: post)
  = Val tt (pre ++ letters w ++ zero :: drop (S (length (letters w))) (w ++ zero :: post)).
Proof.
  intros Hnz Hfuel. unfold remove_punctuation.
  pose proof (remove_punctuation_loop_spec pre post w [] fuel Hnz Hfuel) as Hloop.
  simpl in Hloop. rewrite Nat.add_0_r in Hloop.
  rewrite (bind_Val _ _ _ _ _ Hloop).
  pose proof (length_letters w) as Hll.
  destruct (lookup_lt_is_Some_2 (w ++ zero :: post) (length (letters w))) as [x Hx].
  { rewrite length_app. simpl. lia. }
  rewrite poke_at.
  2:{ rewrite !length_app, length_drop, !length_app. simpl. lia. }
  rewrite Nat2Z.id. f_equal.
  rewrite (drop_S _ _ _ Hx).
  rewrite insert_app_r_alt by lia. rewrite insert_app_r_alt by lia.
  replace (length pre + length (letters w) - length pre - length (letters w))%nat
    with 0%nat by lia.
  reflexivity.
Qed.

Lemma find_closest_word_loop_spec word threshold :
  Z.of_nat (length word) <= EditDistance.MAXLEN ->
  forall rest seen n min_distance closest_word,
  Forall (fun e => Z.of_nat (length e) <= EditDistance.MAXLEN) rest ->
  Z.of_nat (length (seen ++ rest)) < 2 ^ 31 ->
  (length rest <= n)%nat ->
  match closest_word with
  | None => min_distance = MAXLEN
            /\ Forall (fun e => threshold < EditDistance.distance word e) seen
  | Some e =>
      min_distance = EditDistance.distance word e
      /\ exists k, seen !! k = Some e /\ EditDistance.distance word e <= threshold
         /\ forall k' e', seen !! k' = Some e' ->
              EditDistance.distance word e <= EditDistance.distance word e'
              /\ ((k' < k)%nat -> EditDistance.distance word e < EditDistance.distance word e')
  end ->
  exists r,
    find_closest_word_loop n word (seen ++ rest) (Z.of_nat (length (seen ++ rest))) threshold
      (Z.of_nat (length seen)) min_distance closest_word = Val r tt
    /\ match r with
       | None => Forall (fun e => threshold < EditDistance.distance word e) (seen ++ rest)
       | Some e =>
           exists k, (seen ++ rest) !! k = Some e /\ EditDistance.distance word e <= threshold
             /\ forall k' e', (seen ++ rest) !! k' = Some e' ->
                  EditDistance.distance word e <= EditDistance.distance word e'
                  /\ ((k' < k)%nat ->
                      EditDistance.distance word e < EditDistance.distance word e')
       end.
Proof.
  intros Hword. induction rest as [|x rest IH]; intros seen n min_distance closest Hall Hint Hn Hinv.
  - rewrite app_nil_r in *. exists closest. split.
    + destruct n; cbn [find_closest_word_loop];
        destruct (Z.ltb_spec (Z.of_nat (length seen)) (Z.of_nat (length seen))); try lia;
        reflexivity.
    + destruct closest as [e|]; [|tauto]. destruct Hinv as [_ Hk]. exact Hk.
  - apply Forall_cons in Hall as [Hx Hall]. destruct n as [|n]; [simpl in Hn; lia|].
    cbn [find_closest_word_loop]. rewrite length_app in *. simpl length in *.
    destruct (Z.ltb_spec (Z.of_nat (length seen)) (Z.of_nat (length seen + S (length rest))));
      [|lia].
    destruct (Z.leb_spec 0 (Z.of_nat (length seen))); [|lia].
    rewrite Nat2Z.id, (list_lookup_middle seen rest x (length seen) eq_refl).
    destruct (edit_distance_dyn_spec word x Hword Hx) as (memo & ->).
    pose proof (distance_bounds word x) as Hb.
    unfold EditDistance.plus. rewrite to_int_small by lia.
    replace (Z.of_nat (length seen) + 1) with (Z.of_nat (length (seen ++ [x])))
      by (rewrite length_app; simpl; lia).
    replace (Z.of_nat (length seen + S (length rest)))
      with (Z.of_nat (length ((seen ++ [x]) ++ rest)))
      by (rewrite !length_app; simpl; lia).
    replace (seen ++ x :: rest) with ((seen ++ [x]) ++ rest) by (now rewrite <- app_assoc).
    destruct (Z.leb_spec (EditDistance.distance word x) threshold) as [Hle|Hgt];
      [destruct (Z.ltb_spec (EditDistance.distance word x) min_distance) as [Hlt|Hge]|];
      cbn [andb]; apply IH; try assumption; try (rewrite !length_app; simpl; lia);
      try (simpl in Hn; lia).
    + (* the entry becomes the closest word *)
      split; [reflexivity|]. exists (length seen).
      split; [now apply list_lookup_middle|]. split; [assumption|].
      intros k' e' He'. apply lookup_app_Some in He' as [He'|[Hk' He']].
      * destruct closest as [e|].
        -- destruct Hinv as [-> (k & Hk & Hthr & Hmin)].
           destruct (Hmin k' e' He') as [Hle' _]. split; [lia|]. intros _. lia.
        -- destruct Hinv as [_ Hfar]. rewrite Forall_forall in Hfar.
           pose proof (Hfar e' (list_elem_of_lookup_2 _ _ _ He')). split; [lia|]. intros _. lia.
      * destruct (k' - length seen)%nat as [|d] eqn:Hd; [|destruct d; discriminate].
        injection He' as <-. split; [lia|]. intros Hlt'. lia.
    + (* within the threshold, but not closer *)
      destruct closest as [e|].
      * destruct Hinv as [-> (k & Hk & Hthr & Hmin)]. split; [reflexivity|].
        exists k. split; [now apply lookup_app_l_Some|]. split; [assumption|].
        intros k' e' He'. apply lookup_app_Some in He' as [He'|[Hk' He']].
        -- now apply Hmin.
        -- destruct (k' - length seen)%nat as [|d] eqn:Hd; [|destruct d; discriminate].
           injection He' as <-. split; [lia|]. intros Hlt'.
           apply lookup_lt_Some in Hk. lia.
      * destruct Hinv as [-> _]. unfold MAXLEN, EditDistance.MAXLEN in *. lia.
    + (* beyond the threshold *)
      destruct closest as [e|].
      * destruct Hinv as [-> (k & Hk & Hthr & Hmin)]. split; [reflexivity|].
        exists k. split; [now apply lookup_app_l_Some|]. split; [assumption|].
        intros k' e' He'. apply lookup_app_Some in He' as [He'|[Hk' He']].
        -- now apply Hmin.
        -- destruct (k' - length seen)%nat as [|d] eqn:Hd; [|destruct d; discriminate].
           injection He' as <-. split; [lia|]. intros Hlt'.
           apply lookup_lt_Some in Hk. lia.
      * destruct Hinv as [-> Hfar]. split; [reflexivity|].
        apply Forall_app. split; [assumption|]. now repeat constructor.
Qed.

End Words.

(** ** Properties of the spelling corrector *)

Section CorrectorProperties.

Import Run.

(** X17 (edit_distance_dyn counts insertions and deletions): on two strings
    of at most [MAXLEN] characters [edit_distance_dyn] returns the sum of
    their lengths minus twice the length of a longest common subsequence:
    the least number of characters to delete from one and insert into the
    other, a substitution counting for two. *)
Theorem edit_distance_dyn_is_indel_distance (s1 s2 : list ascii) :
  Z.of_nat (length s1) <= EditDistance.MAXLEN ->
  Z.of_nat (length s2) <= EditDistance.MAXLEN ->
  exists d memo c,
    EditDistance.edit_distance_dyn s1 s2 = Val d memo
    /\ c `sublist_of` s1 /\ c `sublist_of` s2
    /\ d = Z.of_nat (length s1) + Z.of_nat (length s2) - 2 * Z.of_nat (length c)
    /\ forall c', c' `sublist_of` s1 -> c' `sublist_of` s2 -> (length c' <= length c)%nat.
Proof.
  intros H1 H2. destruct (edit_distance_dyn_spec s1 s2 H1 H2) as (memo & Hrun).
  destruct (distance_common s1 s2) as (c & Hc1 & Hc2 & Hd).
  exists (EditDistance.distance s1 s2), memo, c.
  split; [assumption|]. split; [assumption|]. split; [assumption|]. split; [lia|].
  intros c' Hc1' Hc2'. pose proof (distance_least s1 s2 c' Hc1' Hc2'). lia.
Qed.

(** X18 (the two implementations agree): on two strings of at most
    [MAXLEN] characters the memoised [edit_distance], given a depth of
    recursion greater than the sum of the lengths, and [edit_distance_dyn]
    return the same number. *)
Theorem edit_distance_agrees_with_dyn fuel (s1 s2 : list ascii) :
  Z.of_nat (length s1) <= EditDistance.MAXLEN ->
  Z.of_nat (length s2) <= EditDistance.MAXLEN ->
  (length s1 + length s2 < fuel)%nat ->
  exists d memo memo',
    EditDistance.edit_distance fuel s1 s2 = Val d memo
    /\ EditDistance.edit_distance_dyn s1 s2 = Val d memo'.
Proof.
  intros H1 H2 Hfuel.
  destruct (edit_distance_spec s1 s2 fuel H1 H2 Hfuel) as (memo & Hrec).
  destruct (edit_distance_dyn_spec s1 s2 H1 H2) as (memo' & Hdyn).
  exists (EditDistance.distance s1 s2), memo, memo'. auto.
Qed.

(** X19 (the distance behaves as one): on two strings of at most [MAXLEN]
    characters [edit_distance_dyn] returns the same number whichever string
    comes first; the number is zero exactly when the strings are equal, lies
    between the difference and the sum of the lengths, and has the parity of
    the sum. *)
Theorem edit_distance_dyn_symmetric_and_bounded (s1 s2 : list ascii) :
  Z.of_nat (length s1) <= EditDistance.MAXLEN ->
  Z.of_nat (length s2) <= EditDistance.MAXLEN ->
  exists d memo memo',
    EditDistance.edit_distance_dyn s1 s2 = Val d memo
    /\ EditDistance.edit_distance_dyn s2 s1 = Val d memo'
    /\ (d = 0 <-> s1 = s2)
    /\ Z.abs (Z.of_nat (length s1) - Z.of_nat (length s2)) <= d
       <= Z.of_nat (length s1) + Z.of_nat (length s2)
    /\ Z.even (d + Z.of_nat (length s1) + Z.of_nat (length s2)) = true.
Proof.
  intros H1 H2. destruct (edit_distance_dyn_spec s1 s2 H1 H2) as (memo & Hrun).
  destruct (edit_distance_dyn_spec s2 s1 H2 H1) as (memo' & Hrun').
  exists (EditDistance.distance s1 s2), memo, memo'.
  split; [assumption|]. split; [now rewrite distance_sym|].
  split; [apply distance_zero|].
  destruct (distance_common s1 s2) as (c & Hc1 & Hc2 & Hd).
  apply sublist_length in Hc1, Hc2. split; [lia|].
  replace (EditDistance.distance s1 s2 + Z.of_nat (length s1) + Z.of_nat (length s2))
    with (2 * (Z.of_nat (length s1) + Z.of_nat (length s2) - Z.of_nat (length c))) by lia.
  rewrite Z.even_mul. reflexivity.
Qed.

(** X20 (strings longer than the table): for two strings of fewer than
    [2^31] characters each, so that [(int)strlen] is their length, when one
    of them has more than [MAXLEN] characters both [edit_distance_dyn] and
    [edit_distance] write outside their table, which is undefined behaviour,
    whatever the other string is. *)
Theorem edit_distance_too_long (s1 s2 : list ascii) :
  EditDistance.MAXLEN < Z.of_nat (length s1) \/ EditDistance.MAXLEN < Z.of_nat (length s2) ->
  Z.of_nat (length s1) < 2 ^ 31 -> Z.of_nat (length s2) < 2 ^ 31 ->
  EditDistance.edit_distance_dyn s1 s2 = Undefined
  /\ forall fuel, EditDistance.edit_distance fuel s1 s2 = Undefined.
Proof.
  intros Hlong Hint1 Hint2. unfold EditDistance.edit_distance_dyn, EditDistance.edit_distance.
  rewrite !strlen_int by assumption.
  destruct (Z.le_gt_cases (Z.of_nat (length s2)) EditDistance.MAXLEN) as [Hlen2|Hlong2].
  - destruct Hlong as [Hlong1|]; [|lia]. split; [|intros fuel]; unfold bind.
    + rewrite fill_rows_overflow; try assumption; try reflexivity;
        try (unfold EditDistance.MAXLEN; lia).
      intros i' j' Hi' Hj' Hlt. lia.
    + rewrite clear_rows_overflow; try assumption; try reflexivity;
        unfold EditDistance.MAXLEN; lia.
  - replace (Z.to_nat (Z.of_nat (length s1) + 1)) with (S (length s1)) by lia.
    split; [|intros fuel]; unfold bind;
      cbn [EditDistance.fill_rows EditDistance.clear_rows];
      (destruct (Z.leb_spec 0 (Z.of_nat (length s1))); [|lia]); unfold bind.
    + rewrite fill_row_overflow; try assumption; try reflexivity;
        unfold EditDistance.MAXLEN in *; lia.
    + rewrite clear_row_overflow; try assumption; try reflexivity;
        unfold EditDistance.MAXLEN in *; lia.
Qed.

(** X21 (find_closest_word): with a word and dictionary entries of at most
    1000 characters, [find_closest_word] returns NULL exactly when every
    entry is farther from the word than the threshold; otherwise it returns
    an entry within the threshold that no entry beats, the first of those at
    that distance. *)
Theorem find_closest_word_picks_first_closest word dictionary threshold :
  Z.of_nat (length word) <= EditDistance.MAXLEN ->
  Forall (fun e => Z.of_nat (length e) <= EditDistance.MAXLEN) dictionary ->
  Z.of_nat (length dictionary) < 2 ^ 31 ->
  exists r,
    Corrector.find_closest_word word dictionary (Z.of_nat (length dictionary)) threshold
    = Val r tt
    /\ match r with
       | None => Forall (fun e => threshold < EditDistance.distance word e) dictionary
       | Some e =>
           exists k, dictionary !! k = Some e /\ EditDistance.distance word e <= threshold
             /\ forall k' e', dictionary !! k' = Some e' ->
                  EditDistance.distance word e <= EditDistance.distance word e'
                  /\ ((k' < k)%nat ->
                      EditDistance.distance word e < EditDistance.distance word e')
       end.
Proof.
  intros Hword Hdict Hsize. unfold Corrector.find_closest_word.
  apply (find_closest_word_loop_spec word threshold Hword dictionary []
           (Z.to_nat (Z.of_nat (length dictionary))) Corrector.MAXLEN None);
    try assumption; try (simpl; lia).
  split; [reflexivity|constructor].
Qed.

(** X22 (remove_punctuation): on a buffer that holds a word and its
    terminating NUL, [remove_punctuation] leaves the letters of the word, in
    their order, followed by a NUL; what precedes the word and what follows
    its old NUL are untouched. *)
Theorem remove_punctuation_keeps_letters fuel (pre w post : list ascii) :
  Forall (fun c => c <> zero) w -> (length w <= fuel)%nat ->
  exists junk,
    Corrector.remove_punctuation fuel (Z.of_nat (length pre)) (pre ++ w ++ zero :: post)
    = Val tt (pre ++ letters w ++ zero :: junk ++ post)
    /\ (length (letters w) + length junk = length w)%nat.
Proof.
  intros Hnz Hfuel. rewrite (remove_punctuation_spec fuel pre w post Hnz Hfuel).
  pose proof (length_letters w) as Hll.
  exists (drop (S (length (letters w))) (w ++ [zero])). split.
  - do 4 f_equal. change (zero :: post) with ([zero] ++ post).
    rewrite app_assoc. rewrite drop_app_le; [reflexivity|].
    rewrite length_app. simpl. lia.
  - rewrite length_drop, length_app. simpl. lia.
Qed.

End CorrectorProperties.

(** ** The corrector on examples *)

Lemma too_long_length : Z.of_nat (length too_long) = 1001.
Proof. unfold too_long. now rewrite length_replicate. Qed.

(** X17: "casa" and "cassa" are one insertion apart. *)
Lemma edit_distance_dyn_is_indel_distance_witness :
  Z.of_nat (length casa) <= EditDistance.MAXLEN
  /\ Z.of_nat (length cassa) <= EditDistance.MAXLEN
  /\ exists memo, EditDistance.edit_distance_dyn casa cassa = Run.Val 1 memo.
Proof.
  assert (H1 : Z.of_nat (length casa) <= EditDistance.MAXLEN) by (vm_compute; discriminate).
  assert (H2 : Z.of_nat (length cassa) <= EditDistance.MAXLEN) by (vm_compute; discriminate).
  split; [assumption|]. split; [assumption|].
  destruct (edit_distance_dyn_is_indel_distance casa cassa H1 H2)
    as (d & memo & c & Hrun & Hc1 & Hc2 & Hd & Hbest).
  exists memo. rewrite Hrun. f_equal.
  assert (Hc : (length casa <= length c)%nat) by (apply Hbest; [reflexivity|]; repeat constructor).
  apply sublist_length in Hc1. unfold casa, cassa in *. simpl in *. lia.
Defined.

(** X18: the memoised and the tabulated distance of "casa" from "cassa". *)
Lemma edit_distance_agrees_with_dyn_witness :
  Z.of_nat (length casa) <= EditDistance.MAXLEN
  /\ Z.of_nat (length cassa) <= EditDistance.MAXLEN
  /\ exists d memo memo',
       EditDistance.edit_distance 10 casa cassa = Run.Val d memo
       /\ EditDistance.edit_distance_dyn casa cassa = Run.Val d memo'.
Proof.
  assert (H1 : Z.of_nat (length casa) <= EditDistance.MAXLEN) by (vm_compute; discriminate).
  assert (H2 : Z.of_nat (length cassa) <= EditDistance.MAXLEN) by (vm_compute; discriminate).
  split; [assumption|]. split; [assumption|].
  exact (edit_distance_agrees_with_dyn 10 casa cassa H1 H2 ltac:(simpl; lia)).
Defined.

(** X19: the distance of "casa" and "cassa", either way round. *)
Lemma edit_distance_dyn_symmetric_and_bounded_witness :
  Z.of_nat (length casa) <= EditDistance.MAXLEN
  /\ Z.of_nat (length cassa) <= EditDistance.MAXLEN
  /\ exists d memo memo',
       EditDistance.edit_distance_dyn casa cassa = Run.Val d memo
       /\ EditDistance.edit_distance_dyn cassa casa = Run.Val d memo'
       /\ 1 <= d <= 9.
Proof.
  assert (H1 : Z.of_nat (length casa) <= EditDistance.MAXLEN) by (vm_compute; discriminate).
  assert (H2 : Z.of_nat (length cassa) <= EditDistance.MAXLEN) by (vm_compute; discriminate).
  split; [assumption|]. split; [assumption|].
  destruct (edit_distance_dyn_symmetric_and_bounded casa cassa H1 H2)
    as (d & memo & memo' & Hrun & Hrun' & _ & Hb & _).
  exists d, memo, memo'. split; [assumption|]. split; [assumption|].
  unfold casa, cassa in Hb. simpl in Hb. lia.
Defined.

(** X20: a word of 1001 characters. *)
Lemma edit_distance_too_long_witness :
  (EditDistance.MAXLEN < Z.of_nat (length too_long)
   \/ EditDistance.MAXLEN < Z.of_nat (length casa))
  /\ Z.of_nat (length too_long) < 2 ^ 31 /\ Z.of_nat (length casa) < 2 ^ 31
  /\ EditDistance.edit_distance_dyn too_long casa = Run.Undefined
  /\ forall fuel, EditDistance.edit_distance fuel too_long casa = Run.Undefined.
Proof.
  pose proof too_long_length as Hlen.
  assert (H1 : EditDistance.MAXLEN < Z.of_nat (length too_long)
               \/ EditDistance.MAXLEN < Z.of_nat (length casa))
    by (left; rewrite Hlen; unfold EditDistance.MAXLEN; lia).
  assert (H2 : Z.of_nat (length too_long) < 2 ^ 31) by (rewrite Hlen; lia).
  assert (H3 : Z.of_nat (length casa) < 2 ^ 31) by (simpl; lia).
  split; [assumption|]. split; [assumption|]. split; [assumption|].
  exact (edit_distance_too_long too_long casa H1 H2 H3).
Defined.

(** X21: the closest word to "casa" in a small dictionary. *)
Lemma find_closest_word_picks_first_closest_witness :
  Z.of_nat (length casa) <= EditDistance.MAXLEN
  /\ Forall (fun e => Z.of_nat (length e) <= EditDistance.MAXLEN) small_dictionary
  /\ Z.of_nat (length small_dictionary) < 2 ^ 31
  /\ Corrector.find_closest_word casa small_dictionary 3 2 = Run.Val (Some cassa) tt.
Proof.
  assert (H1 : Z.of_nat (length casa) <= EditDistance.MAXLEN) by (vm_compute; discriminate).
  assert (H2 : Forall (fun e => Z.of_nat (length e) <= EditDistance.MAXLEN) small_dictionary)
    by (repeat constructor; vm_compute; discriminate).
  assert (H3 : Z.of_nat (length small_dictionary) < 2 ^ 31) by (simpl; lia).
  split; [assumption|]. split; [assumption|]. split; [assumption|].
  destruct (find_closest_word_picks_first_closest casa small_dictionary 2 H1 H2 H3)
    as (r & Hrun & _).
  change (Z.of_nat (length small_dictionary)) with 3 in Hrun. rewrite Hrun.
  vm_compute in Hrun. now injection Hrun as <-.
Defined.

(** X22: [c'e!] becomes [ce]. *)
Lemma remove_punctuation_keeps_letters_witness :
  Forall (fun c => c <> zero) punctuated
  /\ exists junk,
       Corrector.remove_punctuation 4 0 (punctuated ++ [zero])
       = Run.Val tt (list_ascii_of_string "ce" ++ zero :: junk)
       /\ length junk = 2%nat.
Proof.
  assert (H1 : Forall (fun c => c <> zero) punctuated) by (repeat constructor; discriminate).
  split; [assumption|].
  destruct (remove_punctuation_keeps_letters 4 [] punctuated [] H1
              ltac:(unfold punctuated; simpl; lia))
    as (junk & Hrun & Hlen).
  exists junk. rewrite app_nil_r in Hrun. split; [exact Hrun|].
  change (length (letters punctuated)) with 2%nat in Hlen.
  change (length punctuated) with 4%nat in Hlen. lia.
Defined.

(** ** The sorts see the comparator through the sign of its results *)

Section Signs.

Context {A : Type}.
Variable E : environment.
Variables compar compar' : A -> A -> Z.
Implicit Types (w : world A) (pre suf seg : list A).

Lemma bind_ext {X Y : Type} (m : M A X) (k k' : X -> M A Y) w :
  (forall x w', m w = Ok x w' -> k x w' = k' x w') -> bind m k w = bind m k' w.
Proof. intros H. unfold bind. destruct (m w); auto. Qed.

Lemma bind_both {X Y : Type} (m m' : M A X) (k k' : X -> M A Y) w :
  m' w = m w -> (forall x w', m w = Ok x w' -> k x w' = k' x w') ->
  bind m k w = bind m' k' w.
Proof. intros Hm H. unfold bind. rewrite Hm. destruct (m w); auto. Qed.

Lemma same_sign_incl seg seg' : seg' ⊆ seg -> same_sign compar compar' seg ->
  same_sign compar compar' seg'.
Proof. intros Hs H a b Ha Hb. apply H; now apply Hs. Qed.

Lemma same_sign_tests seg a b :
  same_sign compar compar' seg -> a ∈ seg -> b ∈ seg ->
  (compar' a b <? 0) = (compar a b <? 0) /\ (compar' a b <=? 0) = (compar a b <=? 0).
Proof.
  intros H Ha Hb. specialize (H a b Ha Hb).
  destruct (Z.ltb_spec (compar' a b) 0), (Z.ltb_spec (compar a b) 0),
    (Z.leb_spec (compar' a b) 0), (Z.leb_spec (compar a b) 0); split; try reflexivity; lia.
Qed.

Lemma partition_loop_agree refs base high pivot :
  same_sign compar compar' refs -> pivot ∈ refs ->
  forall n i j w,
  0 <= base + i -> 0 <= i <= j -> j <= high -> high < 2 ^ 64 ->
  (Z.to_nat (base + high) <= length (mem w))%nat ->
  Forall (fun x => x ∈ refs) (slice (Z.to_nat (base + j)) (Z.to_nat (high - j)) (mem w)) ->
  partition_loop n base high compar pivot i j w
  = partition_loop n base high compar' pivot i j w.
Proof.
  intros Hsign Hp. induction n as [|n IH]; intros i j w Hb Hi Hj Hmax Hlen Hall;
    cbn [partition_loop]; [reflexivity|].
  destruct (Z.ltb_spec j high); [|reflexivity].
  apply bind_ext. intros bj w1 Hl. apply load_inv in Hl as (-> & _ & Hbj).
  rewrite !(bind_Ok _ _ _ _ _ (call_Ok _ _ _ _)).
  replace (Z.to_nat (high - j)) with (S (Z.to_nat (high - (j + 1)))) in Hall by lia.
  rewrite (slice_cons _ _ _ _ Hbj) in Hall. apply Forall_cons in Hall as [Hin Hall].
  replace (S (Z.to_nat (base + j))) with (Z.to_nat (base + (j + 1))) in Hall by lia.
  destruct (same_sign_tests refs bj pivot Hsign Hin Hp) as [-> _].
  rewrite !add_small by lia.
  destruct (compar bj pivot <? 0).
  - apply bind_ext. intros [] w2 Hs.
    apply swap_inv in Hs as (x & y & _ & _ & _ & _ & ->).
    apply IH; try lia.
    + simpl. rewrite !length_insert. exact Hlen.
    + simpl. rewrite !slice_insert_before by lia. exact Hall.
  - apply IH; try lia; assumption.
Qed.

Lemma partition_agree refs base low high w pre mid p suf :
  same_sign compar compar' refs -> mid ⊆ refs -> p ∈ refs ->
  mem w = pre ++ mid ++ p :: suf ->
  base + low = Z.of_nat (length pre) -> high = low + Z.of_nat (length mid) ->
  0 <= low -> high < 2 ^ 64 ->
  partition base low high compar w = partition base low high compar' w.
Proof.
  intros Hsign Hmid Hp Hm Hlow Hhigh H0 Hmax. unfold partition.
  apply bind_ext. intros pivot w1 Hl. apply load_inv in Hl as (-> & _ & Hpv).
  assert (pivot = p) as ->.
  { rewrite Hm, app_assoc in Hpv. rewrite lookup_app_r in Hpv by len.
    replace (Z.to_nat (base + high) - length (pre ++ mid))%nat with 0%nat in Hpv by len.
    simpl in Hpv. congruence. }
  apply bind_both; [|reflexivity]. symmetry.
  apply (partition_loop_agree refs base high p Hsign Hp); try lia.
  - rewrite Hm, !length_app. simpl. lia.
  - replace (Z.to_nat (base + low)) with (length pre) by lia.
    rewrite Hm, slice_middle by lia. apply Forall_forall. exact Hmid.
Qed.

Hypothesis Hrand : rand_in_range E.

Lemma quick_sort_rec_agree : forall fuel base low high w pre seg suf,
  same_sign compar compar' seg ->
  mem w = pre ++ seg ++ suf ->
  base + low = Z.of_nat (length pre) ->
  high + 1 = low + Z.of_nat (length seg) ->
  0 <= low -> high + 1 < 2 ^ 64 ->
  (length seg < fuel)%nat ->
  quick_sort_rec E fuel base low high compar w
  = quick_sort_rec E fuel base low high compar' w.
Proof.
  induction fuel as [|fuel IH];
    intros base low high w pre seg suf Hsign Hm Hlow Hhigh H0 Hmax Hfuel; [lia|].
  cbn [quick_sort_rec]. apply bind_ext. intros [] w0 He. injection He as <-.
  destruct (Z.ltb_spec low high) as [Hlt|Hge]; [|reflexivity].
  apply bind_ext. intros [] w1 Hc.
  pose proof (choose_random_pivot_spec E Hrand base low high
                (log w (Enter_quick_sort_rec low high)) pre seg suf Hm Hlow Hhigh
                ltac:(lia) Hmax) as Sc.
  rewrite Hc in Sc. destruct Sc as (seg1 & Hm1 & Hp1 & _).
  apply Permutation_length in Hp1 as Hlen1.
  destruct seg1 as [|p mid _] using rev_ind; [simpl in Hlen1; lia|].
  rewrite length_app in Hlen1. simpl in Hlen1.
  assert (Hm1' : mem w1 = pre ++ mid ++ p :: suf) by (rewrite Hm1; list_norm).
  assert (Hmid : mid ⊆ seg).
  { intros x Hx. rewrite <- Hp1, elem_of_app. auto. }
  assert (Hpin : p ∈ seg).
  { rewrite <- Hp1, elem_of_app, list_elem_of_singleton. auto. }
  apply bind_both.
  { symmetry. apply (partition_agree seg base low high w1 pre mid p suf); try assumption; lia. }
  intros pi w2 Hpart.
  destruct (partition_spec compar base low high w1 pre mid p suf)
    as (w2' & lts & ges & Hpart' & Hm2 & _ & _ & Hp2); try assumption; try lia.
  rewrite Hpart in Hpart'. injection Hpart' as -> <-.
  apply Permutation_length in Hp2 as Hlen2. rewrite length_app in Hlen2.
  assert (Hinl : lts ⊆ seg).
  { intros x Hx. apply Hmid. rewrite <- Hp2, elem_of_app. auto. }
  assert (Hinr : ges ⊆ seg).
  { intros x Hx. apply Hmid. rewrite <- Hp2, elem_of_app. auto. }
  assert (Hleft : (if 0 <? low + Z.of_nat (length lts)
                   then quick_sort_rec E fuel base low
                          (C.sub (low + Z.of_nat (length lts)) 1) compar'
                   else ret tt) w2
                  = (if 0 <? low + Z.of_nat (length lts)
                     then quick_sort_rec E fuel base low
                            (C.sub (low + Z.of_nat (length lts)) 1) compar
                     else ret tt) w2).
  { destruct (Z.ltb_spec 0 (low + Z.of_nat (length lts))); [|reflexivity].
    rewrite sub_small by lia. symmetry.
    apply (IH _ _ _ _ pre lts (p :: ges ++ suf)); try assumption; try lia.
    now apply (same_sign_incl seg). }
  apply bind_both; [exact Hleft|]. intros [] w3 Hrun3.
  assert (Hm3 : exists lts', mem w3 = pre ++ lts' ++ p :: ges ++ suf
                             /\ length lts' = length lts).
  { destruct (Z.ltb_spec 0 (low + Z.of_nat (length lts))).
    - rewrite sub_small in Hrun3 by lia.
      pose proof (quick_sort_rec_spec E compar Hrand fuel base low
                    (low + Z.of_nat (length lts) - 1) w2 pre lts (p :: ges ++ suf)) as S3.
      rewrite Hrun3 in S3. destruct S3 as (lts' & Hm3 & Hp3 & _); try assumption; try lia.
      exists lts'. split; [assumption|]. now apply Permutation_length.
    - injection Hrun3 as <-. exists lts. auto. }
  destruct Hm3 as (lts' & Hm3 & Hlen3).
  rewrite add_small by lia.
  apply (IH _ _ _ _ (pre ++ lts' ++ [p]) ges suf); try len.
  - now apply (same_sign_incl seg).
  - rewrite Hm3. list_norm.
Qed.

Lemma merge_loop_agree refs base nitems middle_i cap pre left right suf :
  same_sign compar compar' refs -> left ⊆ refs -> right ⊆ refs ->
  base = Z.of_nat (length pre) -> middle_i = Z.of_nat (length left) ->
  nitems = Z.of_nat (length left + length right) -> nitems < 2 ^ 64 ->
  forall n i j k temp w,
  mem w = pre ++ left ++ right ++ suf ->
  0 <= i -> middle_i <= j ->
  merge_loop n base nitems middle_i compar cap i j k temp w
  = merge_loop n base nitems middle_i compar' cap i j k temp w.
Proof.
  intros Hsign Hl Hr Hb Hmid Hn Hmax.
  induction n as [|n IH]; intros i j k temp w Hm Hi Hj; cbn [merge_loop]; [reflexivity|].
  destruct (Z.ltb_spec i middle_i); destruct (Z.ltb_spec j nitems); cbn [andb];
    try reflexivity.
  apply bind_ext. intros bi w1 Hli. apply load_inv in Hli as (-> & _ & Hbi).
  apply bind_ext. intros bj w1 Hlj. apply load_inv in Hlj as (-> & _ & Hbj).
  rewrite !(bind_Ok _ _ _ _ _ (call_Ok _ _ _ _)).
  assert (Hini : bi ∈ refs).
  { apply Hl. rewrite Hm in Hbi.
    apply (lookup_run pre left (right ++ suf) (Z.to_nat i)); [|lia].
    replace (length pre + Z.to_nat i)%nat with (Z.to_nat (base + i)) by lia. exact Hbi. }
  assert (Hinj : bj ∈ refs).
  { apply Hr. rewrite Hm in Hbj.
    apply (lookup_run (pre ++ left) right suf (Z.to_nat j - length left)); [|lia].
    rewrite length_app, <- app_assoc.
    replace (length pre + length left + (Z.to_nat j - length left))%nat
      with (Z.to_nat (base + j)) by lia.
    exact Hbj. }
  destruct (same_sign_tests refs bi bj Hsign Hini Hinj) as [_ ->].
  rewrite !(add_small i 1), !(add_small j 1) by lia.
  destruct (compar bi bj <=? 0); apply bind_ext; intros temp1 w1 Hs;
    apply temp_store_inv in Hs as ->; apply IH; simpl; try assumption; lia.
Qed.

Lemma merge_agree refs base nitems middle_i w pre left right suf :
  same_sign compar compar' refs -> left ⊆ refs -> right ⊆ refs ->
  mem w = pre ++ left ++ right ++ suf ->
  base = Z.of_nat (length pre) -> middle_i = Z.of_nat (length left) ->
  nitems = Z.of_nat (length left + length right) -> nitems < 2 ^ 64 ->
  merge E base nitems middle_i compar w = merge E base nitems middle_i compar' w.
Proof.
  intros Hsign Hl Hr Hm Hb Hmid Hn Hmax. unfold merge.
  apply bind_ext. intros temp w1 Hmal.
  assert (Hm1 : mem w1 = pre ++ left ++ right ++ suf).
  { unfold malloc in Hmal. destruct (heap_ok E (allocs w)); injection Hmal as <- <-;
      exact Hm. }
  destruct temp as [cap|]; [|reflexivity].
  apply bind_both; [|reflexivity]. symmetry.
  apply (merge_loop_agree refs base nitems middle_i cap pre left right suf); try assumption; lia.
Qed.

Lemma merge_sort_rec_agree : forall fuel base nitems w pre seg suf,
  same_sign compar compar' seg ->
  mem w = pre ++ seg ++ suf ->
  base = Z.of_nat (length pre) ->
  nitems = Z.of_nat (length seg) ->
  nitems * C.sizeof_ptr < 2 ^ 64 ->
  (length seg < fuel)%nat ->
  merge_sort_rec E fuel base nitems compar w = merge_sort_rec E fuel base nitems compar' w.
Proof.
  induction fuel as [|fuel IH]; intros base nitems w pre seg suf Hsign Hm Hb Hn Hfit Hfuel;
    [lia|].
  cbn [merge_sort_rec]. destruct (Z.ltb_spec 1 nitems) as [Hbig|Hsmall]; [|reflexivity].
  pose proof (half_bounds nitems Hbig) as Hhalf.
  set (m := Z.to_nat (nitems / 2)) in *.
  assert (Hsplit : seg = take m seg ++ drop m seg) by now rewrite take_drop.
  assert (Hlt : length (take m seg) = m) by (rewrite length_take; lia).
  assert (Hld : (length (drop m seg) = length seg - m)%nat) by now rewrite length_drop.
  assert (Hinl : take m seg ⊆ seg) by (apply sublist_subseteq, sublist_take).
  assert (Hinr : drop m seg ⊆ seg) by (apply sublist_subseteq, sublist_drop).
  unfold C.sizeof_ptr in Hfit.
  assert (Hm0 : mem w = pre ++ take m seg ++ drop m seg ++ suf).
  { rewrite Hm. rewrite Hsplit at 1. list_norm. }
  apply bind_both.
  { symmetry. apply (IH base (nitems / 2) w pre (take m seg) (drop m seg ++ suf));
      try assumption; try lia; [now apply (same_sign_incl seg) | unfold C.sizeof_ptr; lia]. }
  intros [] w1 H1.
  pose proof (merge_sort_rec_spec E compar fuel base (nitems / 2) w pre (take m seg)
                (drop m seg ++ suf)) as S1.
  rewrite H1 in S1. destruct S1 as (left' & Hm1 & Hp1 & _);
    [ assumption | lia | lia | unfold C.sizeof_ptr; lia | lia | ].
  apply Permutation_length in Hp1 as Hlen1.
  rewrite sub_small by lia.
  assert (Hm1' : mem w1 = (pre ++ left') ++ drop m seg ++ suf) by (rewrite Hm1; list_norm).
  apply bind_both.
  { symmetry.
    apply (IH (base + nitems / 2) (nitems - nitems / 2) w1 (pre ++ left') (drop m seg) suf);
      try assumption; [now apply (same_sign_incl seg) | len | len
                       | unfold C.sizeof_ptr; lia | lia]. }
  intros [] w2 H2.
  pose proof (merge_sort_rec_spec E compar fuel (base + nitems / 2) (nitems - nitems / 2)
                w1 (pre ++ left') (drop m seg) suf) as S2.
  rewrite H2 in S2. destruct S2 as (right' & Hm2 & Hp2 & _);
    [ assumption | len | len | unfold C.sizeof_ptr; lia | lia | ].
  apply Permutation_length in Hp2 as Hlen2.
  apply (merge_agree seg base nitems (nitems / 2) w2 pre left' right' suf); try assumption;
    try lia.
  - intros x Hx. apply Hinl. now rewrite <- Hp1.
  - intros x Hx. apply Hinr. now rewrite <- Hp2.
  - rewrite Hm2. list_norm.
Qed.

End Signs.

Section SignsProperties.

Context {A : Type}.
Implicit Types (w : world A) (pre suf seg : list A).

Lemma quick_sort_agree (E : environment) (compar compar' : A -> A -> Z) fuel w pre seg suf :
  rand_in_range E ->
  mem w = pre ++ seg ++ suf -> addressable (mem w) -> (length seg < fuel)%nat ->
  same_sign compar compar' seg ->
  quick_sort E fuel (Some (Z.of_nat (length pre))) (Z.of_nat (length seg)) (Some compar) w
  = quick_sort E fuel (Some (Z.of_nat (length pre))) (Z.of_nat (length seg)) (Some compar') w.
Proof.
  intros Hrand Hm Haddr Hfuel Hsign. apply addressable_fits in Haddr.
  rewrite Hm, !length_app in Haddr. cbn [quick_sort].
  destruct (Z.ltb_spec 0 (Z.of_nat (length seg))); [|reflexivity].
  apply bind_ext. intros [] w1 Hs. unfold srand in Hs. injection Hs as <-.
  rewrite sub_small by lia.
  apply (quick_sort_rec_agree E compar compar' Hrand fuel _ _ _ _ pre seg suf);
    simpl; try assumption; lia.
Qed.

Lemma merge_sort_agree (E : environment) (compar compar' : A -> A -> Z) fuel w pre seg suf :
  mem w = pre ++ seg ++ suf -> addressable (mem w) -> (length seg < fuel)%nat ->
  same_sign compar compar' seg ->
  merge_sort E fuel (Some (Z.of_nat (length pre))) (Z.of_nat (length seg)) (Some compar) w
  = merge_sort E fuel (Some (Z.of_nat (length pre))) (Z.of_nat (length seg)) (Some compar') w.
Proof.
  intros Hm Haddr Hfuel Hsign. apply addressable_fits in Haddr.
  rewrite Hm, !length_app in Haddr. cbn [merge_sort].
  destruct (Z.leb_spec 2 (Z.of_nat (length seg))); [|reflexivity].
  apply (merge_sort_rec_agree E compar compar' fuel _ _ w pre seg suf);
    try assumption; try reflexivity.
  unfold C.sizeof_ptr. lia.
Qed.

Lemma StronglySorted_weaken (R R' : A -> A -> Prop) (l : list A) :
  (forall a b, R a b -> R' a b) -> StronglySorted R l -> StronglySorted R' l.
Proof.
  intros Himp. induction 1 as [|a l _ IH Hall]; constructor; [assumption|].
  eapply Forall_impl; [exact Hall|]. intros b. apply Himp.
Qed.

(** X23 (only the sign of the comparator matters): two comparators whose
    results have the same sign on every pair of references of the sequence
    make [quick_sort], and make [merge_sort], run to the same outcome: the
    same final array, the same calls in the same order, the same use of the
    generator and the allocator. *)
Theorem sorts_see_only_signs (E : environment) (compar compar' : A -> A -> Z)
    fuel w pre seg suf :
  rand_in_range E ->
  mem w = pre ++ seg ++ suf -> addressable (mem w) -> (length seg < fuel)%nat ->
  same_sign compar compar' seg ->
  quick_sort E fuel (Some (Z.of_nat (length pre))) (Z.of_nat (length seg)) (Some compar) w
  = quick_sort E fuel (Some (Z.of_nat (length pre))) (Z.of_nat (length seg)) (Some compar') w
  /\ merge_sort E fuel (Some (Z.of_nat (length pre))) (Z.of_nat (length seg)) (Some compar) w
     = merge_sort E fuel (Some (Z.of_nat (length pre))) (Z.of_nat (length seg))
         (Some compar') w.
Proof.
  intros Hrand Hm Haddr Hfuel Hsign. split.
  - apply (quick_sort_agree E compar compar' fuel w pre seg suf); assumption.
  - apply (merge_sort_agree E compar compar' fuel w pre seg suf); assumption.
Qed.

End SignsProperties.

Section ProgramSorts.

Variable float : Type.
Variable float_gt : float -> float -> bool.
Variable strcmp : string -> string -> Z.
Variable E : environment.
Variable FILE_ : string.
Implicit Types (w : world (Record float)) (r : Record float).

Lemma integer_difference_total_preorder :
  total_preorder (fun r1 r2 : Record float => integer_field r1 - integer_field r2).
Proof. split; intros; lia. Qed.

(** X16 (the program sorts its records): with a field whose comparator
    answers, on the records of the array, with the signs of a total preorder
    (as the float comparator does on an array without a NaN, and the integer
    comparator while the differences are [int]s) and an array of
    [MAX_RECORDS] records, [execute_sorting_algorithm] returns with the
    records permuted and sorted by that preorder, by quicksort for algorithm
    2 and, allocations succeeding, by mergesort for algorithm 1, which also
    keeps ties in their order. *)
Theorem execute_sorting_algorithm_sorts fuel field algo compar ideal w pre seg suf :
  get_comparator_for_field float float_gt strcmp FILE_ field w = Ok (Some compar) w ->
  same_sign compar ideal seg -> total_preorder ideal ->
  rand_in_range E ->
  (forall n, (allocs w <= n)%nat -> heap_ok E n = true) ->
  mem w = pre ++ seg ++ suf -> Z.of_nat (length seg) = MAX_RECORDS ->
  addressable (mem w) -> (length seg < fuel)%nat ->
  algo = 1 \/ algo = 2 ->
  exists w' seg',
    execute_sorting_algorithm float float_gt strcmp E FILE_ fuel field algo
      (Some (Z.of_nat (length pre))) w = Ok tt w'
    /\ mem w' = pre ++ seg' ++ suf /\ seg' ≡ₚ seg /\ sorted_by ideal seg'
    /\ (algo = 1 -> stable ideal seg seg').
Proof.
  intros Hc Hsign Hord Hrand Hheap Hm Hlen Haddr Hfuel Halgo.
  unfold execute_sorting_algorithm. rewrite (bind_Ok _ _ _ _ _ Hc). rewrite <- Hlen.
  destruct Halgo as [-> | ->]; cbn [Z.eqb Pos.eqb].
  - rewrite (merge_sort_agree E compar ideal fuel w pre seg suf Hm Haddr Hfuel Hsign).
    destruct (merge_sort_returns E ideal fuel w pre seg suf Hheap Hm Haddr Hfuel)
      as (w' & seg' & Hrun & Hm' & Hp & Hs).
    destruct (Hs Hord) as [Hsorted Hstable]. exists w', seg'. auto.
  - rewrite (quick_sort_agree E compar ideal fuel w pre seg suf Hrand Hm Haddr Hfuel Hsign).
    destruct (quick_sort_returns_sorted E ideal fuel w pre seg suf Hord Hrand Hm Haddr Hfuel)
      as (w' & seg' & Hrun & Hm' & Hp & Hs).
    { rewrite Hlen. unfold MAX_RECORDS. lia. }
    exists w', seg'. repeat (split; [assumption|]). intros [=].
Qed.

(** X24 (sorting by the integer field): with field 2, an array of
    [MAX_RECORDS] records and algorithm 1 or 2, if the difference of the
    integer fields of any two records of the array is an [int] then
    [execute_sorting_algorithm] returns (allocations succeeding, for
    algorithm 1) with the records in non-decreasing order of their integer
    field. *)
Theorem execute_sorting_algorithm_sorts_integers fuel algo w pre seg suf :
  rand_in_range E ->
  (forall n, (allocs w <= n)%nat -> heap_ok E n = true) ->
  mem w = pre ++ seg ++ suf -> Z.of_nat (length seg) = MAX_RECORDS ->
  addressable (mem w) -> (length seg < fuel)%nat ->
  algo = 1 \/ algo = 2 ->
  (forall a b, a ∈ seg -> b ∈ seg ->
     C.INT_MIN <= integer_field a - integer_field b <= C.INT_MAX) ->
  exists w' seg',
    execute_sorting_algorithm float float_gt strcmp E FILE_ fuel 2 algo
      (Some (Z.of_nat (length pre))) w = Ok tt w'
    /\ mem w' = pre ++ seg' ++ suf /\ seg' ≡ₚ seg
    /\ StronglySorted (fun a b => integer_field a <= integer_field b) seg'.
Proof.
  intros Hrand Hheap Hm Hlen Haddr Hfuel Halgo Hfits.
  pose proof integer_difference_total_preorder as Hord.
  assert (Hsign : same_sign (comparator_record_integer_field float)
                    (fun r1 r2 => integer_field r1 - integer_field r2) seg).
  { intros a b Ha Hb. f_equal. unfold comparator_record_integer_field, C.to_int.
    specialize (Hfits a b Ha Hb). unfold C.INT_MIN, C.INT_MAX in Hfits.
    pose proof (Z.div_mod (integer_field a - integer_field b) (2 ^ 32) ltac:(lia)).
    pose proof (Z.mod_pos_bound (integer_field a - integer_field b) (2 ^ 32) ltac:(lia)).
    destruct (Z.ltb_spec ((integer_field a - integer_field b) mod 2 ^ 32) (2 ^ 31)); lia. }
  assert (Hweak : forall seg', sorted_by (fun r1 r2 : Record float =>
                                            integer_field r1 - integer_field r2) seg' ->
                    StronglySorted (fun a b : Record float =>
                                      integer_field a <= integer_field b) seg').
  { intros seg'. apply StronglySorted_weaken. unfold le_by. intros a b. lia. }
  unfold execute_sorting_algorithm, get_comparator_for_field. cbn [Z.eqb Pos.eqb].
  rewrite (bind_Ok _ _ _ _ _ (eq_refl : ret _ w = Ok _ w)). rewrite <- Hlen.
  destruct Halgo as [-> | ->]; cbn [Z.eqb Pos.eqb].
  - rewrite (merge_sort_agree E _ _ fuel w pre seg suf Hm Haddr Hfuel Hsign).
    destruct (merge_sort_returns E (fun r1 r2 => integer_field r1 - integer_field r2)
                fuel w pre seg suf Hheap Hm Haddr Hfuel)
      as (w' & seg' & Hrun & Hm' & Hp & Hs).
    destruct (Hs Hord) as [Hsorted _]. exists w', seg'. auto.
  - rewrite (quick_sort_agree E _ _ fuel w pre seg suf Hrand Hm Haddr Hfuel Hsign).
    destruct (quick_sort_returns_sorted E (fun r1 r2 => integer_field r1 - integer_field r2)
                fuel w pre seg suf Hord Hrand Hm Haddr Hfuel)
      as (w' & seg' & Hrun & Hm' & Hp & Hs).
    { rewrite Hlen. unfold MAX_RECORDS. lia. }
    exists w', seg'. auto.
Qed.

End ProgramSorts.

(** X23: on integers, the three-way comparator and plain subtraction. *)
Lemma sorts_see_only_signs_witness :
  rand_in_range (libc 0 roomy) /\ addressable (mem (boot four_integers))
  /\ same_sign compar_Z Z.sub four_integers
  /\ quick_sort (libc 0 roomy) 5 (Some 0) 4 (Some compar_Z) (boot four_integers)
     = quick_sort (libc 0 roomy) 5 (Some 0) 4 (Some Z.sub) (boot four_integers).
Proof.
  pose proof (libc_rand_in_range 0 roomy) as Hrand.
  assert (Haddr : addressable (mem (boot four_integers)))
    by (apply small_addressable; simpl; lia).
  assert (Hsign : same_sign compar_Z Z.sub four_integers).
  { intros a b _ _. unfold compar_Z. destruct (Z.compare_spec a b); lia. }
  split; [assumption|]. split; [assumption|]. split; [assumption|].
  exact (proj1 (sorts_see_only_signs (libc 0 roomy) compar_Z Z.sub 5 (boot four_integers)
                  [] four_integers [] Hrand eq_refl Haddr ltac:(simpl; lia) Hsign)).
Defined.

Lemma length_many_numbered : Z.of_nat (length many_numbered) = MAX_RECORDS.
Proof.
  unfold many_numbered. cbn [length]. rewrite length_replicate. unfold MAX_RECORDS. lia.
Qed.

Lemma many_numbered_fields a :
  a ∈ many_numbered -> integer_field a = 5 \/ integer_field a = -3 \/ integer_field a = 1.
Proof.
  unfold many_numbered. rewrite !elem_of_cons. intros [-> | [-> | H]]; auto.
  apply elem_of_replicate in H as [-> _]. auto.
Qed.

Lemma many_numbered_unsorted :
  ~ StronglySorted (fun a b : Record Z => integer_field a <= integer_field b) many_numbered.
Proof.
  unfold many_numbered. intros H. apply StronglySorted_inv in H as [_ H].
  apply Forall_cons in H as [H _]. cbn in H. lia.
Qed.

(** X24: twenty million records out of order, sorted by their integer field
    with quicksort. *)
Lemma execute_sorting_algorithm_sorts_integers_witness :
  rand_in_range (libc 0 roomy)
  /\ Z.of_nat (length many_numbered) = MAX_RECORDS
  /\ addressable (mem (boot many_numbered))
  /\ (forall a b, a ∈ many_numbered -> b ∈ many_numbered ->
        C.INT_MIN <= integer_field a - integer_field b <= C.INT_MAX)
  /\ ~ StronglySorted (fun a b : Record Z => integer_field a <= integer_field b) many_numbered
  /\ exists w' seg',
       execute_sorting_algorithm Z Z.gtb strcmp_sign (libc 0 roomy) "merge_quick_sort_main.c"
         (S (Z.to_nat MAX_RECORDS)) 2 2 (Some 0) (boot many_numbered) = Ok tt w'
       /\ mem w' = seg' /\ seg' ≡ₚ many_numbered
       /\ StronglySorted (fun a b => integer_field a <= integer_field b) seg'
       /\ seg' <> many_numbered.
Proof.
  pose proof (libc_rand_in_range 0 roomy) as Hrand.
  pose proof length_many_numbered as Hlen.
  pose proof many_numbered_unsorted as Hun.
  assert (Haddr : addressable (mem (boot many_numbered))).
  { unfold addressable, boot, mem. rewrite Hlen. unfold MAX_RECORDS, C.sizeof_ptr, C.SIZE_MAX. lia. }
  assert (Hfuel : (length many_numbered < S (Z.to_nat MAX_RECORDS))%nat) by lia.
  assert (Hfits : forall a b, a ∈ many_numbered -> b ∈ many_numbered ->
                    C.INT_MIN <= integer_field a - integer_field b <= C.INT_MAX).
  { intros a b Ha Hb. apply many_numbered_fields in Ha, Hb.
    unfold C.INT_MIN, C.INT_MAX. lia. }
  split; [assumption|]. split; [assumption|]. split; [assumption|]. split; [assumption|].
  split; [assumption|].
  destruct (execute_sorting_algorithm_sorts_integers Z Z.gtb strcmp_sign (libc 0 roomy)
              "merge_quick_sort_main.c" (S (Z.to_nat MAX_RECORDS)) 2 (boot many_numbered)
              [] many_numbered [] Hrand (fun _ _ => eq_refl)
              (eq_sym (app_nil_r many_numbered)) Hlen Haddr Hfuel (or_intror eq_refl) Hfits)
    as (w' & seg' & Hrun & Hm & Hp & Hs).
  rewrite app_nil_r in Hm. cbn [app] in Hm.
  exists w', seg'. split; [exact Hrun|]. split; [exact Hm|]. split; [exact Hp|].
  split; [exact Hs|]. intros ->. exact (Hun Hs).
Defined.

Lemma length_many_measured : Z.of_nat (length many_measured) = MAX_RECORDS.
Proof.
  unfold many_measured. cbn [length]. rewrite length_replicate. unfold MAX_RECORDS. lia.
Qed.

Lemma many_measured_fields a :
  a ∈ many_measured -> floating_field a = Some 2 \/ floating_field a = Some 1.
Proof.
  unfold many_measured. rewrite !elem_of_cons. intros [-> | [-> | H]]; auto.
  apply elem_of_replicate in H as [-> _]. auto.
Qed.

Lemma by_measure_total_preorder : total_preorder by_measure.
Proof.
  destruct compar_Z_total_preorder as [Hs Ht]. split; unfold by_measure.
  - intros a b. apply Hs.
  - intros a b c. apply Ht.
Qed.

Lemma many_measured_same_sign :
  same_sign (comparator_record_floating_field (option Z) toy_gt) by_measure many_measured.
Proof.
  intros a b Ha Hb. apply many_measured_fields in Ha, Hb.
  unfold comparator_record_floating_field, by_measure.
  destruct Ha as [-> | ->], Hb as [-> | ->]; reflexivity.
Qed.

Lemma many_measured_unsorted : ~ sorted_by by_measure many_measured.
Proof.
  unfold many_measured. intros H. apply StronglySorted_inv in H as [_ H].
  apply Forall_cons in H as [H _]. unfold le_by in H. cbn in H. lia.
Qed.

(** X16: twenty million records out of order, sorted by their float field
    with mergesort; the floats have a NaN, the records do not. *)
Lemma execute_sorting_algorithm_sorts_witness :
  same_sign (comparator_record_floating_field (option Z) toy_gt) by_measure many_measured
  /\ total_preorder by_measure
  /\ ~ total_preorder (comparator_record_floating_field (option Z) toy_gt)
  /\ rand_in_range (libc 0 roomy)
  /\ Z.of_nat (length many_measured) = MAX_RECORDS
  /\ addressable (mem (boot many_measured))
  /\ ~ sorted_by by_measure many_measured
  /\ exists w' seg',
       execute_sorting_algorithm (option Z) toy_gt strcmp_sign (libc 0 roomy)
         "merge_quick_sort_main.c" (S (Z.to_nat MAX_RECORDS)) 3 1 (Some 0) (boot many_measured)
       = Ok tt w'
       /\ mem w' = seg' /\ seg' ≡ₚ many_measured
       /\ sorted_by by_measure seg' /\ stable by_measure many_measured seg'
       /\ seg' <> many_measured.
Proof.
  pose proof many_measured_same_sign as Hsign.
  pose proof by_measure_total_preorder as Hord.
  pose proof (libc_rand_in_range 0 roomy) as Hrand.
  pose proof length_many_measured as Hlen.
  pose proof many_measured_unsorted as Hun.
  assert (Hnan : ~ total_preorder (comparator_record_floating_field (option Z) toy_gt)).
  { intros [_ Htrans].
    specialize (Htrans (measured 0 1) (Build_Record 0 EmptyString 0 None) (measured 0 0)).
    cbn in Htrans. lia. }
  assert (Haddr : addressable (mem (boot many_measured))).
  { unfold addressable, boot, mem. rewrite Hlen. unfold MAX_RECORDS, C.sizeof_ptr, C.SIZE_MAX. lia. }
  assert (Hfuel : (length many_measured < S (Z.to_nat MAX_RECORDS))%nat) by lia.
  split; [assumption|]. split; [assumption|]. split; [assumption|]. split; [assumption|].
  split; [assumption|]. split; [assumption|]. split; [assumption|].
  destruct (execute_sorting_algorithm_sorts (option Z) toy_gt strcmp_sign (libc 0 roomy)
              "merge_quick_sort_main.c" (S (Z.to_nat MAX_RECORDS)) 3 1
              (comparator_record_floating_field (option Z) toy_gt) by_measure
              (boot many_measured) [] many_measured [] eq_refl Hsign Hord Hrand
              (fun _ _ => eq_refl) (eq_sym (app_nil_r many_measured)) Hlen Haddr Hfuel
              (or_introl eq_refl))
    as (w' & seg' & Hrun & Hm & Hp & Hs & Hst).
  rewrite app_nil_r in Hm. cbn [app] in Hm.
  exists w', seg'. split; [exact Hrun|]. split; [exact Hm|]. split; [exact Hp|].
  split; [exact Hs|]. split; [exact (Hst eq_refl)|]. intros ->. exact (Hun Hs).
Defined.
